(** * Pressure-sole dashboard: timeline synchronisation, regional pressure,
    centre of pressure and the playback clock

  A shallow embedding of the computational core of the dashboard:

  - [DeliveryDetail] (the memo that builds [leftData], [rightData] and
    [phaseMarkers] for one delivery),
  - [PressureHeatmapSVG] ([maxTime], the per-region sums, [findClosestPoint],
    [calculateCoP] and the play / pause / reset / scrub state),
  - [RegionalPressureTimeline] ([regionalDatasets]).

  JavaScript numbers are modelled as exact rationals ([Qc]): the input
  documents are JSON, which has neither NaN nor an infinity, and rounding of
  IEEE doubles is outside the model, so the properties stated of quotients
  and sums are those that rounding keeps (signs, bounds set by [Math.min] and
  [Math.max], comparisons) or are stated for whole numbers, on which the
  arithmetic of doubles is exact.  The places where the code itself produces
  an infinity ([let minTime = Infinity], [Math.min()] and [Math.max()] of no
  argument) or [NaN] (a coordinate of an inherited member in [calculateCoP])
  are modelled explicitly.  Objects used as dictionaries
  ([Record<string, number>], [Map<number, ContactEvent>]) are finite maps of
  their own entries, and what a lookup finds besides these is written out
  where the code looks up a name it does not control; arrays are lists. *)

From Stdlib Require Import QArith Qcanon Qcabs Lqa.
From stdpp Require Import base numbers option list sorting gmap strings.

Local Open Scope Qc_scope.

(* The absolute-value brackets of [Qcabs] would capture one-element lists. *)
Disable Notation "[ q ]" : Qc_scope.

(** ** JavaScript values and built-ins used by the components *)

Module JS.

(** An integer literal of the source, as a number. *)
Definition num (z : Z) : Qc := Qc_of_Z z.

(** [v || 0] on a possibly missing number: [undefined] and [0] are falsy. *)
Definition or0 (v : option Qc) : Qc :=
  match v with
  | Some q => if decide (q = 0) then 0 else q
  | None => 0
  end.

(** A number that may be one of the two infinities. *)
Inductive number : Type :=
  | NegInfinity
  | Finite (q : Qc)
  | Infinity.

Definition number_min (a b : number) : number :=
  match a, b with
  | NegInfinity, _ | _, NegInfinity => NegInfinity
  | Infinity, c | c, Infinity => c
  | Finite p, Finite q => Finite (if decide (p ≤ q) then p else q)
  end.

Definition number_max (a b : number) : number :=
  match a, b with
  | Infinity, _ | _, Infinity => Infinity
  | NegInfinity, c | c, NegInfinity => c
  | Finite p, Finite q => Finite (if decide (p ≤ q) then q else p)
  end.

(** [Math.min(...xs)]: [Infinity] when [xs] is empty. *)
Definition Math_min (xs : list Qc) : number :=
  foldl (λ acc v, number_min acc (Finite v)) Infinity xs.

(** [Math.max(...xs)]: [-Infinity] when [xs] is empty. *)
Definition Math_max (xs : list Qc) : number :=
  foldl (λ acc v, number_max acc (Finite v)) NegInfinity xs.

(** [Math.abs]. *)
Definition Math_abs (q : Qc) : Qc := Qcabs q.

(** [parseInt] of the decimal text of a number: the integer part,
    truncated towards zero. *)
Definition parseInt (q : Qc) : Qc :=
  Qc_of_Z (Z.quot (Qnum (this q)) (Zpos (Qden (this q)))).

(** [Array.prototype.sort(cmp)].  ECMAScript requires the sort to be
    stable; with a consistent comparator the result is then fixed, whatever
    algorithm the engine runs.  It is written here as an insertion sort: an
    element goes in front of the first later element that does not compare
    strictly before it. *)
Section sort.
Context {A : Type} (cmp : A → A → Qc).

Fixpoint sort_insert (a : A) (l : list A) : list A :=
  match l with
  | [] => [a]
  | b :: l' =>
      if decide (cmp a b ≤ 0) then a :: b :: l' else b :: sort_insert a l'
  end.

Fixpoint sort (l : list A) : list A :=
  match l with
  | [] => []
  | a :: l' => sort_insert a (sort l')
  end.
End sort.

(** [arr.find(pred)]. *)
Definition find {A} (P : A → Prop) `{!∀ a, Decision (P a)}
    (l : list A) : option A :=
  snd <$> list_find P l.

(** The names every object inherits from [Object.prototype]: read through
    [obj[name]] on an object created as [{}] they are not [undefined]. *)
Definition inheritedNames : list string :=
  [ "constructor"; "hasOwnProperty"; "isPrototypeOf"; "propertyIsEnumerable";
    "toLocaleString"; "toString"; "valueOf"; "__proto__";
    "__defineGetter__"; "__defineSetter__"; "__lookupGetter__";
    "__lookupSetter__" ].

(** [Array.from(new Set(xs))]: the distinct values in order of first
    insertion. *)
Definition Set_from (xs : list Qc) : list Qc :=
  foldl (λ acc v, if decide (v ∈ acc) then acc else acc ++ [v]) [] xs.

End JS.

(** ** types/pressure-report.ts *)

Module Types.

Record CoPPoint : Type := mkCoPPoint {
  t_ms : Qc;
  x : Qc;
  y : Qc;
  sumW : Qc;
  sensors : gmap string Qc
}.

(** [StanceMetric]: the fields the timeline reads, and [foot] and [ct_s];
    the other scalar metrics and the [ui] block play no part in it. *)
Record StanceMetric : Type := mkStanceMetric {
  stance_id : Z;
  foot : string;
  ct_s : Qc;
  phase : string;
  cop_trajectory : list CoPPoint
}.

(** [stance_metrics: { Left, Right }]. *)
Record StanceSides : Type := mkStanceSides {
  stance_Left : list StanceMetric;
  stance_Right : list StanceMetric
}.

Record BallStanceData : Type := mkBallStanceData {
  ball_id : Z;
  stance_metrics : StanceSides
}.

(** [ContactEvent]; its [stance_id], [foot] and [ct_s] carry the prefix
    [evt_], the bare names being those of [StanceMetric]. *)
Record ContactEvent : Type := mkContactEvent {
  evt_stance_id : Z;
  evt_foot : string;
  ic_ts_ms : Qc;
  to_ts_ms : Qc;
  evt_ct_s : Qc;
  peak_ts_ms : Qc
}.

(** One [{ Left, Right }] object of the events document; either side may be
    missing (the code reads [e.Left || []]). *)
Record EventSides : Type := mkEventSides {
  events_Left : option (list ContactEvent);
  events_Right : option (list ContactEvent)
}.

(** [BallEventData.events]: the object itself, or an array wrapping it. *)
Inductive EventsShape : Type :=
  | EventsObject (e : EventSides)
  | EventsArray (es : list EventSides).

Record BallEventData : Type := mkBallEventData {
  evt_ball_id : Z;
  events : EventsShape
}.

End Types.

(** ** components/DeliveryDetail.tsx: the synchronised timeline *)

Module DeliveryDetail.
Import JS Types.

(** [Array.isArray(ballEvents.events)
       ? ballEvents.events.flatMap(e => e.Left || [])
       : ballEvents.events.Left || []], for either side. *)
Definition sideEvents (side : EventSides → option (list ContactEvent))
    (evs : EventsShape) : list ContactEvent :=
  match evs with
  | EventsArray es => es ≫= (λ e, default [] (side e))
  | EventsObject e => default [] (side e)
  end.

(** [[...leftEvents, ...rightEvents].forEach(evt =>
       eventsMap.set(evt.stance_id, evt))]. *)
Definition buildEventsMap (leftEvents rightEvents : list ContactEvent)
    : gmap Z ContactEvent :=
  foldl (λ eventsMap evt, <[evt_stance_id evt := evt]> eventsMap) ∅
        (leftEvents ++ rightEvents).

(** The scan [let minTime = Infinity; eventsMap.forEach(evt => { if
    (evt.ic_ts_ms < minTime) minTime = evt.ic_ts_ms })]; [None] is the initial
    [Infinity], below which every timestamp lies.  A [Map] is visited in
    insertion order and the finite map in key order; the scan ends on the
    same value in any order ([scanMinTime_spec] below fixes it). *)
Definition scanMinTime (eventsMap : gmap Z ContactEvent) : option Qc :=
  map_fold (λ _ evt minTime,
              match minTime with
              | None => Some (ic_ts_ms evt)
              | Some m => if decide (ic_ts_ms evt < m)
                          then Some (ic_ts_ms evt) else Some m
              end) None eventsMap.

(** [if (minTime === Infinity) minTime = 0]. *)
Definition globalStart (eventsMap : gmap Z ContactEvent) : Qc :=
  match scanMinTime eventsMap with
  | None => 0
  | Some m => m
  end.

(** [{ ...pt, t_ms: pt.t_ms + offset }]. *)
Definition shiftPoint (offset : Qc) (pt : CoPPoint) : CoPPoint :=
  {| t_ms := t_ms pt + offset;
     x := x pt; y := y pt; sumW := sumW pt; sensors := sensors pt |}.

(** The body of [stances.forEach(stance => ...)] in [processFoot], acting on
    the array [allPoints]. *)
Definition pushStance (eventsMap : gmap Z ContactEvent) (minTime : Qc)
    (allPoints : list CoPPoint) (stance : StanceMetric) : list CoPPoint :=
  match eventsMap !! stance_id stance with
  | None => allPoints
  | Some event =>
      let offset := ic_ts_ms event - minTime in
      foldl (λ pts pt, pts ++ [shiftPoint offset pt]) allPoints
            (cop_trajectory stance)
  end.

Definition byTime (a b : CoPPoint) : Qc := t_ms a - t_ms b.

Definition collectPoints (eventsMap : gmap Z ContactEvent) (minTime : Qc)
    (stances : list StanceMetric) : list CoPPoint :=
  foldl (pushStance eventsMap minTime) [] stances.

Definition processFoot (eventsMap : gmap Z ContactEvent) (minTime : Qc)
    (stances : list StanceMetric) : list CoPPoint :=
  sort byTime (collectPoints eventsMap minTime stances).

(** A phase marker; [end_] is the field [end]. *)
Record PhaseMarker : Type := mkPhaseMarker {
  name : string;
  start : number;
  end_ : number;
  color : string
}.

(** [(eventsMap.get(s.stance_id)?.ic_ts_ms || 0) - minTime], and the same
    with [to_ts_ms]. *)
Definition stanceStart (eventsMap : gmap Z ContactEvent) (minTime : Qc)
    (s : StanceMetric) : Qc :=
  or0 (ic_ts_ms <$> eventsMap !! stance_id s) - minTime.

Definition stanceEnd (eventsMap : gmap Z ContactEvent) (minTime : Qc)
    (s : StanceMetric) : Qc :=
  or0 (to_ts_ms <$> eventsMap !! stance_id s) - minTime.

(** The stances of both feet tagged with one phase:
    [[...Left, ...Right].filter(s => s.phase === phaseName)]. *)
Definition phaseStances (phaseName : string) (sd : BallStanceData)
    : list StanceMetric :=
  filter (λ s, phase s = phaseName)
         (stance_Left (stance_metrics sd) ++ stance_Right (stance_metrics sd)).

(** One [if (xStances.length > 0) { ...; markers.push({...}) }] block. *)
Definition pushMarker (eventsMap : gmap Z ContactEvent) (minTime : Qc)
    (phaseName colour : string) (xStances : list StanceMetric)
    (markers : list PhaseMarker) : list PhaseMarker :=
  if decide (0 < length xStances)%nat then
    let startTimes := stanceStart eventsMap minTime <$> xStances in
    let endTimes := stanceEnd eventsMap minTime <$> xStances in
    markers ++ [ {| name := phaseName;
                    start := Math_min startTimes;
                    end_ := Math_max endTimes;
                    color := colour |} ]
  else markers.

Definition deriveMarkers (eventsMap : gmap Z ContactEvent) (minTime : Qc)
    (sd : BallStanceData) : list PhaseMarker :=
  let markers := [] in
  let bfcStances := phaseStances "BFC" sd in
  let ffcStances := phaseStances "FFC" sd in
  let markers := pushMarker eventsMap minTime "BFC" "#FF6B35" bfcStances markers in
  pushMarker eventsMap minTime "FFC" "#2196F3" ffcStances markers.

Definition ballEventsMap (be : BallEventData) : gmap Z ContactEvent :=
  buildEventsMap (sideEvents events_Left (events be))
                 (sideEvents events_Right (events be)).

Record Timeline : Type := mkTimeline {
  leftData : list CoPPoint;
  rightData : list CoPPoint;
  phaseMarkers : list PhaseMarker
}.

(** The memo computing [{ leftData, rightData, phaseMarkers }]. *)
Definition alignedTimeline (ballStanceData : option BallStanceData)
    (ballEvents : option BallEventData) : Timeline :=
  match ballStanceData, ballEvents with
  | Some sd, Some be =>
      let eventsMap := ballEventsMap be in
      let minTime := globalStart eventsMap in
      let processedLeft :=
        processFoot eventsMap minTime (stance_Left (stance_metrics sd)) in
      let processedRight :=
        processFoot eventsMap minTime (stance_Right (stance_metrics sd)) in
      {| leftData := processedLeft;
         rightData := processedRight;
         phaseMarkers := deriveMarkers eventsMap minTime sd |}
  | _, _ => {| leftData := []; rightData := []; phaseMarkers := [] |}
  end.

(** [stanceMetrics.balls.find(ball => ball.ball_id === delivery.ball_id)] and
    its twin on the events file, feeding the memo. *)
Definition deliveryTimeline (stanceBalls : list BallStanceData)
    (eventBalls : list BallEventData) (delivery_ball_id : Z) : Timeline :=
  alignedTimeline
    (find (λ ball, ball_id ball = delivery_ball_id) stanceBalls)
    (find (λ ball, evt_ball_id ball = delivery_ball_id) eventBalls).

End DeliveryDetail.

(** ** components/PressureHeatmapSVG.tsx *)

Module PressureHeatmapSVG.
Import JS Types.

Definition SENSOR_REGIONS : list (string * list string) :=
  [ ("ForeFoot", ["S1"; "S2"]);
    ("UpperMid", ["S3"; "S4"; "S5"]);
    ("LowerMid", ["S6"]);
    ("Heel", ["S7"; "S8"]) ].

(** [maxTime]: the later of the two last samples, 2000 when there is none
    (or when it is not positive). *)
Definition maxTime (leftFootData rightFootData : list CoPPoint) : Qc :=
  let max := 0 in
  let max := match last leftFootData with
             | Some lastLeft =>
                 if decide (max < t_ms lastLeft) then t_ms lastLeft else max
             | None => max
             end in
  let max := match last rightFootData with
             | Some lastRight =>
                 if decide (max < t_ms lastRight) then t_ms lastRight else max
             | None => max
             end in
  if decide (0 < max) then max else num 2000.

(** [sensors.reduce((acc, sensor) => acc + (point.sensors[sensor] || 0), 0)]. *)
Definition regionSum (point : CoPPoint) (regionSensors : list string) : Qc :=
  foldl (λ acc sensor, acc + or0 (sensors point !! sensor)) 0 regionSensors.

(** [regionValues], filled by
    [Object.entries(SENSOR_REGIONS).forEach(([region, sensors]) => ...)]. *)
Definition regionValues (point : CoPPoint) : gmap string Qc :=
  foldl (λ values entry, <[entry.1 := regionSum point entry.2]> values) ∅
        SENSOR_REGIONS.

(** [findClosestPoint]: the two bound checks, then [data.find]. *)
Definition findClosestPoint (data : list CoPPoint) (time : Qc)
    : option CoPPoint :=
  match head data, last data with
  | Some first, Some final =>
      if decide (time < t_ms first - num 50) then None
      else if decide (t_ms final + num 50 < time) then None
      else find (λ p, Math_abs (t_ms p - time) < num 25) data
  | _, _ => None
  end.

Record Centroid : Type := mkCentroid { cx : Qc; cy : Qc }.

(** A coordinate as the code computes it: a number, or [NaN]. *)
Inductive coordinate : Type :=
  | NaN
  | Coord (q : Qc).

(** [a + b] and [a / d] (for a divisor that is a number other than 0);
    [NaN] stays [NaN]. *)
Definition coord_plus (a b : coordinate) : coordinate :=
  match a, b with
  | Coord p, Coord q => Coord (p + q)
  | _, _ => NaN
  end.

Definition coord_div (a : coordinate) (d : Qc) : coordinate :=
  match a with
  | Coord p => Coord (p / d)
  | NaN => NaN
  end.

(** What [sensorCentroids[sensorId]] finds. The centroids are kept in an
    object created as [{}] ([useRef({})]): besides its own entries, the
    names of [Object.prototype] are found in it, as functions (or, for
    [__proto__], as the prototype itself), which are truthy and have neither
    [x] nor [y]. *)
Inductive Property : Type :=
  | Own (centroid : Centroid)
  | Inherited
  | Undefined.

Definition getCentroid (sensorCentroids : gmap string Centroid)
    (sensorId : string) : Property :=
  match sensorCentroids !! sensorId with
  | Some centroid => Own centroid
  | None => if decide (sensorId ∈ inheritedNames) then Inherited else Undefined
  end.

Record CoPAcc : Type := mkCoPAcc {
  totalWeightedX : coordinate;
  totalWeightedY : coordinate;
  totalForce : Qc
}.

Record CoP : Type := mkCoP {
  cop_x : coordinate;
  cop_y : coordinate;
  force : Qc
}.

(** [Object.keys(sensors)].  The keys come in the order of the finite map
    rather than in insertion order; the sums below are the same in any order
    ([accSum_perm]). *)
Definition Object_keys (sensors : gmap string Qc) : list string :=
  (map_to_list sensors).*1.

(** The body of [Object.keys(sensors).forEach(sensorId => ...)]: under
    [if (val > 0 && centroid)], [centroid.x * val] is a number for an entry
    of the object, and [undefined * val], which is [NaN], for an inherited
    member. *)
Definition copStep (sensorCentroids : gmap string Centroid)
    (sensors : gmap string Qc) (acc : CoPAcc) (sensorId : string) : CoPAcc :=
  let val := or0 (sensors !! sensorId) in
  let centroid := getCentroid sensorCentroids sensorId in
  if decide (0 < val) then
    match centroid with
    | Own centroid =>
        {| totalWeightedX :=
             coord_plus (totalWeightedX acc) (Coord (cx centroid * val));
           totalWeightedY :=
             coord_plus (totalWeightedY acc) (Coord (cy centroid * val));
           totalForce := totalForce acc + val |}
    | Inherited =>
        {| totalWeightedX := coord_plus (totalWeightedX acc) NaN;
           totalWeightedY := coord_plus (totalWeightedY acc) NaN;
           totalForce := totalForce acc + val |}
    | Undefined => acc
    end
  else acc.

Definition copAccumulate (sensorCentroids : gmap string Centroid)
    (sensors : gmap string Qc) : CoPAcc :=
  foldl (copStep sensorCentroids sensors)
        {| totalWeightedX := Coord 0; totalWeightedY := Coord 0;
           totalForce := 0 |}
        (Object_keys sensors).

Definition calculateCoP (sensorCentroids : gmap string Centroid)
    (sensors : gmap string Qc) : option CoP :=
  let acc := copAccumulate sensorCentroids sensors in
  if decide (totalForce acc = 0) then None
  else Some {| cop_x := coord_div (totalWeightedX acc) (totalForce acc);
               cop_y := coord_div (totalWeightedY acc) (totalForce acc);
               force := totalForce acc |}.

(** *** The playback state

    [currentTime], [isPlaying] and [playbackSpeed] are the component's state;
    [framePending] says whether the request held in [animationRef] is still
    outstanding (neither run nor cancelled); [lastTimestamp] is the variable
    of the animation effect. *)
Record Playback : Type := mkPlayback {
  currentTime : Qc;
  isPlaying : bool;
  playbackSpeed : Qc;
  framePending : bool;
  lastTimestamp : Qc
}.

Definition initialPlayback : Playback :=
  {| currentTime := 0; isPlaying := false; playbackSpeed := 1;
     framePending := false; lastTimestamp := 0 |}.

Inductive Input : Type :=
  | PlayPauseClick
  | ResetClick
  | RangeChange (value : Qc)
  | SpeedClick (speed : Qc)
  | AnimationFrame (timestamp : Qc).

(** The animation effect, which React runs again after a render in which
    [isPlaying] or [playbackSpeed] changed ([maxTime] is fixed for the data
    shown): the previous run's cleanup cancels its request; the new run
    either requests a frame, or cancels and returns. [now] is
    [performance.now()]. *)
Definition animationEffect (now : Qc) (before after : Playback) : Playback :=
  if decide (isPlaying before = isPlaying after
             ∧ playbackSpeed before = playbackSpeed after) then after
  else if isPlaying after then
    {| currentTime := currentTime after; isPlaying := true;
       playbackSpeed := playbackSpeed after;
       framePending := true; lastTimestamp := now |}
  else
    {| currentTime := currentTime after; isPlaying := false;
       playbackSpeed := playbackSpeed after;
       framePending := false; lastTimestamp := lastTimestamp after |}.

(** The state updates each handler makes. *)
Definition handle (maxT : Qc) (i : Input) (s : Playback) : Playback :=
  match i with
  | PlayPauseClick =>
      {| currentTime := currentTime s; isPlaying := negb (isPlaying s);
         playbackSpeed := playbackSpeed s;
         framePending := framePending s; lastTimestamp := lastTimestamp s |}
  | ResetClick =>
      {| currentTime := 0; isPlaying := false;
         playbackSpeed := playbackSpeed s;
         framePending := framePending s; lastTimestamp := lastTimestamp s |}
  | RangeChange value =>
      {| currentTime := parseInt value; isPlaying := false;
         playbackSpeed := playbackSpeed s;
         framePending := framePending s; lastTimestamp := lastTimestamp s |}
  | SpeedClick speed =>
      {| currentTime := currentTime s; isPlaying := isPlaying s;
         playbackSpeed := speed;
         framePending := framePending s; lastTimestamp := lastTimestamp s |}
  | AnimationFrame timestamp =>
      if framePending s then
        let deltaTime := timestamp - lastTimestamp s in
        let nextTime := currentTime s + deltaTime * playbackSpeed s in
        if decide (maxT ≤ nextTime) then
          {| currentTime := 0; isPlaying := false;
             playbackSpeed := playbackSpeed s;
             framePending := true; lastTimestamp := timestamp |}
        else
          {| currentTime := nextTime; isPlaying := isPlaying s;
             playbackSpeed := playbackSpeed s;
             framePending := true; lastTimestamp := timestamp |}
      else s
  end.

(** One input, followed by the render it causes: the state updates of a
    handler are applied together, and the animation effect is cleaned up and
    run again before the next input is taken. *)
Definition step (maxT : Qc) (s : Playback) (ev : Qc * Input) : Playback :=
  animationEffect ev.1 s (handle maxT ev.2 s).

Definition run (maxT : Qc) (s : Playback) (evs : list (Qc * Input))
    : Playback :=
  foldl (step maxT) s evs.

End PressureHeatmapSVG.

(** ** components/RegionalPressureTimeline.tsx *)

Module RegionalPressureTimeline.
Import JS Types.

Record Row : Type := mkRow { time : Qc; Left : Qc; Right : Qc }.

Record Datasets : Type := mkDatasets {
  ForeFoot : list Row;
  UpperMid : list Row;
  LowerMid : list Row;
  Heel : list Row
}.

(** [point?.sensors?.S || 0]. *)
Definition channel (point : option CoPPoint) (sensor : string) : Qc :=
  or0 (point ≫= λ p, sensors p !! sensor).

Definition sortedTimes (leftFootData rightFootData : list CoPPoint)
    : list Qc :=
  sort (λ a b, a - b)
       (Set_from ((t_ms <$> leftFootData) ++ (t_ms <$> rightFootData))).

Definition pointAt (data : list CoPPoint) (t : Qc) : option CoPPoint :=
  find (λ p, t_ms p = t) data.

Definition regionalDatasets (leftFootData rightFootData : list CoPPoint)
    : Datasets :=
  let times := sortedTimes leftFootData rightFootData in
  {| ForeFoot := (λ t,
       let leftPoint := pointAt leftFootData t in
       let rightPoint := pointAt rightFootData t in
       {| time := t;
          Left := channel leftPoint "S1" + channel leftPoint "S2";
          Right := channel rightPoint "S1" + channel rightPoint "S2" |})
       <$> times;
     UpperMid := (λ t,
       let leftPoint := pointAt leftFootData t in
       let rightPoint := pointAt rightFootData t in
       {| time := t;
          Left := channel leftPoint "S3" + channel leftPoint "S4"
                  + channel leftPoint "S5";
          Right := channel rightPoint "S3" + channel rightPoint "S4"
                   + channel rightPoint "S5" |})
       <$> times;
     LowerMid := (λ t,
       let leftPoint := pointAt leftFootData t in
       let rightPoint := pointAt rightFootData t in
       {| time := t;
          Left := channel leftPoint "S6";
          Right := channel rightPoint "S6" |})
       <$> times;
     Heel := (λ t,
       let leftPoint := pointAt leftFootData t in
       let rightPoint := pointAt rightFootData t in
       {| time := t;
          Left := channel leftPoint "S7" + channel leftPoint "S8";
          Right := channel rightPoint "S7" + channel rightPoint "S8" |})
       <$> times |}.

End RegionalPressureTimeline.

(** ** Decidable equality of the data, for evaluating concrete cases *)

Global Instance number_eq_dec : EqDecision JS.number.
Proof. solve_decision. Defined.

Global Instance CoPPoint_eq_dec : EqDecision Types.CoPPoint.
Proof. solve_decision. Defined.

Global Instance ContactEvent_eq_dec : EqDecision Types.ContactEvent.
Proof. solve_decision. Defined.

Global Instance PhaseMarker_eq_dec : EqDecision DeliveryDetail.PhaseMarker.
Proof. solve_decision. Defined.

Global Instance coordinate_eq_dec : EqDecision PressureHeatmapSVG.coordinate.
Proof. solve_decision. Defined.

Global Instance CoP_eq_dec : EqDecision PressureHeatmapSVG.CoP.
Proof. solve_decision. Defined.

(** ** The specification's vocabulary

    Definitions that follow the words of the specification, against which
    the code above is compared. *)

Module Spec.
Import JS Types DeliveryDetail PressureHeatmapSVG RegionalPressureTimeline.

(** The samples one stance contributes: none without a contact event,
    otherwise every sample moved by [initial_contact − globalZero]. *)
Definition stanceSamples (eventsMap : gmap Z ContactEvent) (globalZero : Qc)
    (s : StanceMetric) : list CoPPoint :=
  match eventsMap !! stance_id s with
  | Some event => shiftPoint (ic_ts_ms event - globalZero) <$> cop_trajectory s
  | None => []
  end.

Definition allStances (sd : BallStanceData) : list StanceMetric :=
  stance_Left (stance_metrics sd) ++ stance_Right (stance_metrics sd).

(** "All events referenced by any stance of this delivery". *)
Definition referencedEvents (eventsMap : gmap Z ContactEvent)
    (stances : list StanceMetric) : list ContactEvent :=
  omap (λ s, eventsMap !! stance_id s) stances.

(** "Minimum [initial_contact] over all events referenced by any stance; if
    no events exist, 0". *)
Definition referencedGlobalZero (eventsMap : gmap Z ContactEvent)
    (stances : list StanceMetric) : Qc :=
  match Math_min (ic_ts_ms <$> referencedEvents eventsMap stances) with
  | Finite m => m
  | _ => 0
  end.

(** "[start = min(event.initial_contact − globalZero)] over matching
    stances, [end = max(event.take_off − globalZero)] over the same set",
    read over the events the matching stances have. *)
Definition markerBounds (eventsMap : gmap Z ContactEvent) (globalZero : Qc)
    (tagged : list StanceMetric) : number * number :=
  (Math_min ((λ e, ic_ts_ms e - globalZero)
               <$> referencedEvents eventsMap tagged),
   Math_max ((λ e, to_ts_ms e - globalZero)
               <$> referencedEvents eventsMap tagged)).

Definition sortedByTime (l : list CoPPoint) : Prop :=
  StronglySorted (λ a b, t_ms a ≤ t_ms b) l.

Definition atTime (t : Qc) (l : list CoPPoint) : list CoPPoint :=
  filter (λ p, t_ms p = t) l.

(** A sample with one more (or one replaced) channel. *)
Definition withChannel (sensor : string) (v : Qc) (p : CoPPoint) : CoPPoint :=
  {| t_ms := t_ms p; x := x p; y := y p; sumW := sumW p;
     sensors := <[sensor := v]> (sensors p) |}.

(** The sum of a region's channels, absent channels counting for zero. *)
Definition channelSum (sensors : gmap string Qc) (regionSensors : list string)
    : Qc :=
  foldr (λ sensor acc, default 0 (sensors !! sensor) + acc) 0 regionSensors.

Definition regionOf (point : option CoPPoint) (regionSensors : list string)
    : Qc :=
  match point with
  | Some p => channelSum (sensors p) regionSensors
  | None => 0
  end.

(** The rows of one region's chart: at each time, the region's sum for the
    sample found on either foot. *)
Definition regionRows (leftFootData rightFootData : list CoPPoint)
    (regionSensors : list string) : list Row :=
  (λ t, {| time := t;
           Left := regionOf (pointAt leftFootData t) regionSensors;
           Right := regionOf (pointAt rightFootData t) regionSensors |})
    <$> sortedTimes leftFootData rightFootData.

(** Every channel some region is configured with. *)
Definition configuredChannels : list string := SENSOR_REGIONS ≫= snd.

(** What one channel adds to the three accumulators, in the words of the
    specification: its weighted position and its magnitude when the
    magnitude is positive and the centroid known, nothing otherwise. *)
Definition contribution (sensorCentroids : gmap string Centroid)
    (channel : string * Qc) : CoPAcc :=
  match sensorCentroids !! channel.1 with
  | Some centroid =>
      if decide (0 < channel.2) then
        {| totalWeightedX := Coord (cx centroid * channel.2);
           totalWeightedY := Coord (cy centroid * channel.2);
           totalForce := channel.2 |}
      else mkCoPAcc (Coord 0) (Coord 0) 0
  | None => mkCoPAcc (Coord 0) (Coord 0) 0
  end.

Definition accAdd (a b : CoPAcc) : CoPAcc :=
  {| totalWeightedX := coord_plus (totalWeightedX a) (totalWeightedX b);
     totalWeightedY := coord_plus (totalWeightedY a) (totalWeightedY b);
     totalForce := totalForce a + totalForce b |}.

Definition accSum (sensorCentroids : gmap string Centroid)
    (channels : list (string * Qc)) : CoPAcc :=
  foldr (λ ch acc, accAdd (contribution sensorCentroids ch) acc)
        (mkCoPAcc (Coord 0) (Coord 0) 0) channels.

(** The samples on which the centroids object shows nothing but its own
    entries: no channel of positive magnitude without a centroid bears a
    name of [Object.prototype]. *)
Definition plainChannels (sensorCentroids : gmap string Centroid)
    (sensors : gmap string Qc) : Prop :=
  map_Forall (λ k v, 0 < v → sensorCentroids !! k = None →
                     k ∉ inheritedNames) sensors.

Definition within25 (time : Qc) (p : CoPPoint) : Prop :=
  Math_abs (t_ms p - time) < num 25.

Global Instance within25_dec time p : Decision (within25 time p).
Proof. unfold within25. apply _. Defined.

Definition clamp (t lo hi : Qc) : Qc :=
  if decide (t < lo) then lo else if decide (hi < t) then hi else t.

(** A value the range control hands to [onChange]: the control is given
    [min="0"], [max={maxTime}] and [step="10"], and keeps its value on a
    step within that range. *)
Definition delivered (maxT value : Qc) : Prop :=
  (∃ n : Z, value = num (10 * n)) ∧ 0 ≤ value ∧ value ≤ maxT.

(** Inputs that are neither a press of play nor a move of the cursor by the
    user: animation frames and speed buttons. *)
Definition idle (i : Input) : Prop :=
  match i with
  | AnimationFrame _ | SpeedClick _ => True
  | _ => False
  end.

(** In every state the component reaches, a stopped clock has no frame
    request outstanding. *)
Definition settled (s : Playback) : Prop :=
  isPlaying s = false → framePending s = false.

End Spec.

(** ** Concrete deliveries, samples and sensors *)

Module Examples.
Import JS Types DeliveryDetail PressureHeatmapSVG Spec.

Definition sample (t : Z) : CoPPoint :=
  {| t_ms := num t; x := 0; y := 0; sumW := 0; sensors := ∅ |}.

Definition contact (id : Z) (side : string) (ic to : Z) : ContactEvent :=
  {| evt_stance_id := id; evt_foot := side; ic_ts_ms := num ic;
     to_ts_ms := num to; evt_ct_s := 0; peak_ts_ms := num ic |}.

Definition stance (id : Z) (side tag : string) (ts : list Z) : StanceMetric :=
  {| stance_id := id; foot := side; ct_s := 0; phase := tag;
     cop_trajectory := sample <$> ts |}.

Definition ball (l r : list StanceMetric) : BallStanceData :=
  {| ball_id := 1; stance_metrics := {| stance_Left := l; stance_Right := r |} |}.

Definition ballEvents (l r : list ContactEvent) : BallEventData :=
  {| evt_ball_id := 1;
     events := EventsObject {| events_Left := Some l; events_Right := Some r |} |}.

(** Two contacts on the left foot, the earlier of which no stance refers to. *)
Definition unreferenced_events : BallEventData :=
  ballEvents [contact 1 "Left" 500 600; contact 2 "Left" 1000 1100] [].

Definition unreferenced_stances : BallStanceData :=
  ball [stance 2 "Left" "BFC" [0; 5]%Z] [].

(** Local samples 0, 5, 10 ms of a left stance in contact at 1200, in a
    delivery whose first contact (right foot) is at 1000. *)
Definition offset_events : BallEventData :=
  ballEvents [contact 2 "Left" 1200 1300] [contact 1 "Right" 1000 1100].

Definition offset_stances : BallStanceData :=
  ball [stance 2 "Left" "FFC" [0; 5; 10]%Z] [stance 1 "Right" "BFC" [0; 5]%Z].

(** Two front-foot stances whose windows are [50, 90] and [70, 110] after
    the first contact of the delivery (a run-up step at 1000). *)
Definition ffc_events : BallEventData :=
  ballEvents [contact 1 "Left" 1000 1040; contact 2 "Left" 1050 1090]
             [contact 3 "Right" 1070 1110].

Definition ffc_stances : BallStanceData :=
  ball [stance 1 "Left" "RUNUP_LAST" [0]%Z; stance 2 "Left" "FFC" [0]%Z]
       [stance 3 "Right" "FFC" [0]%Z].

(** A front-foot stance with a contact, and one without. *)
Definition orphan_events : BallEventData :=
  ballEvents [contact 1 "Left" 1000 1100] [].

Definition orphan_stances : BallStanceData :=
  ball [stance 1 "Left" "FFC" [0; 5]%Z; stance 2 "Left" "FFC" [0; 5; 10]%Z] [].

Definition orphan_stances_without : BallStanceData :=
  ball [stance 1 "Left" "FFC" [0; 5]%Z] [].

Definition series_0_100_200 : list CoPPoint :=
  [sample 0; sample 100; sample 200].

Definition two_centroids : gmap string Centroid :=
  <["S1" := {| cx := 0; cy := 0 |}]>
    (<["S7" := {| cx := num 10; cy := 0 |}]> ∅).

Definition two_channels : gmap string Qc :=
  <["S1" := num 10]> (<["S7" := num 30]> ∅).

(** A channel that bears a name of [Object.prototype], alone and beside a
    channel with a centroid. *)
Definition inherited_channel : gmap string Qc :=
  <["toString" := num 5]> ∅.

Definition one_centroid : gmap string Centroid :=
  <["S1" := {| cx := 0; cy := 0 |}]> ∅.

Definition with_constructor : gmap string Qc :=
  <["S1" := num 10]> (<["constructor" := num 5]> ∅).

Definition playing_then_scrub : list (Qc * Input) :=
  [(num 0, PlayPauseClick); (num 16, AnimationFrame (num 16));
   (num 20, RangeChange (num 500))].

Definition frames_after : list (Qc * Input) :=
  [(num 32, AnimationFrame (num 32)); (num 40, SpeedClick (num 2));
   (num 48, AnimationFrame (num 48))].

End Examples.

(** ** components/PressureHeatmapSVG.tsx: normalisation, colours, markers
       and the CoP trail *)

Module HeatmapView.
Import JS Types PressureHeatmapSVG.

(** [Math.max] and [Math.min] of two or three given finite numbers. *)
Definition Math_max2 (a b : Qc) : Qc := if decide (a ≤ b) then b else a.

Definition Math_min2 (a b : Qc) : Qc := if decide (a ≤ b) then a else b.

Definition Math_max3 (a b c : Qc) : Qc := Math_max2 (Math_max2 a b) c.

(** The object [maxes] of [calculateMaxes] as it is created. *)
Definition initialMaxes : gmap string Qc :=
  <["ForeFoot" := 0]> (<["UpperMid" := 0]> (<["LowerMid" := 0]>
    (<["Heel" := 0]> ∅))).

(** One round of [Object.entries(SENSOR_REGIONS).forEach(([region, sensors])
    => { const sum = ...; if (sum > maxes[region]) maxes[region] = sum })];
    a comparison with a missing entry is false. *)
Definition bumpMax (point : CoPPoint) (maxes : gmap string Qc)
    (entry : string * list string) : gmap string Qc :=
  let sum := regionSum point entry.2 in
  match maxes !! entry.1 with
  | Some m => if decide (m < sum) then <[entry.1 := sum]> maxes else maxes
  | None => maxes
  end.

Definition calculateMaxes (data : list CoPPoint) : gmap string Qc :=
  foldl (λ maxes point, foldl (bumpMax point) maxes SENSOR_REGIONS)
        initialMaxes data.

Record RegionMaxes : Type := mkRegionMaxes {
  ForeFoot : Qc;
  UpperMid : Qc;
  LowerMid : Qc;
  Heel : Qc
}.

(** [leftMaxes.ForeFoot] and the like; each of the four keys is present in
    what [calculateMaxes] returns ([calculateMaxes_lookup] below). *)
Definition maxOf (maxes : gmap string Qc) (region : string) : Qc :=
  default 0 (maxes !! region).

(** [regionMaxPressures]: per region, the larger of the two feet's maxima,
    and at least 1. *)
Definition regionMaxPressures (leftFootData rightFootData : list CoPPoint)
    : RegionMaxes :=
  let leftMaxes := calculateMaxes leftFootData in
  let rightMaxes := calculateMaxes rightFootData in
  {| ForeFoot := Math_max3 (maxOf leftMaxes "ForeFoot")
                           (maxOf rightMaxes "ForeFoot") 1;
     UpperMid := Math_max3 (maxOf leftMaxes "UpperMid")
                           (maxOf rightMaxes "UpperMid") 1;
     LowerMid := Math_max3 (maxOf leftMaxes "LowerMid")
                           (maxOf rightMaxes "LowerMid") 1;
     Heel := Math_max3 (maxOf leftMaxes "Heel") (maxOf rightMaxes "Heel") 1 |}.

(** [regionMaxPressures[regionName]]. *)
Definition regionMax (maxes : RegionMaxes) (regionName : string)
    : option Qc :=
  if decide (regionName = "ForeFoot") then Some (ForeFoot maxes)
  else if decide (regionName = "UpperMid") then Some (UpperMid maxes)
  else if decide (regionName = "LowerMid") then Some (LowerMid maxes)
  else if decide (regionName = "Heel") then Some (Heel maxes)
  else None.

Definition NEUTRAL_COLOR : string := "#e0e0e0".

(** [getPressureColor]; it is called with a [max] taken from
    [regionMaxPressures], which is never 0. *)
Definition getPressureColor (value max : Qc) : string :=
  let intensity := value / max in
  if decide (intensity < Q2Qc (5 # 100)) then NEUTRAL_COLOR
  else if decide (intensity < Q2Qc (25 # 100)) then "#E3F2FD"
  else if decide (intensity < Q2Qc (50 # 100)) then "#64B5F6"
  else if decide (intensity < Q2Qc (75 # 100)) then "#FF9800"
  else "#F44336".

(** The bar of a phase marker over the slider: [(safeLeft, safeWidth)], in
    per cent of the track. The divisor is the component's [maxTime], which
    is never 0; the two quotients are exact here and rounded in the code,
    the clamps that follow are the same. *)
Definition markerBar (leftFootData rightFootData : list CoPPoint)
    (start end_ : Qc) : Qc * Qc :=
  let maxTime := PressureHeatmapSVG.maxTime leftFootData rightFootData in
  let leftPct := start / maxTime * num 100 in
  let widthPct := (end_ - start) / maxTime * num 100 in
  let safeLeft := Math_max2 0 (Math_min2 (num 100) leftPct) in
  let safeWidth := Math_max2 0 (Math_min2 (num 100 - safeLeft) widthPct) in
  (safeLeft, safeWidth).

(** The body of the loop of [getTrailPoints]: the position pushed for one
    time [t], if there is a sample near it that bears weight. *)
Definition trailPush (data : list CoPPoint)
    (sensorCentroids : gmap string Centroid) (t : Qc)
    (trail : list (coordinate * coordinate))
    : list (coordinate * coordinate) :=
  match findClosestPoint data t with
  | Some point =>
      match calculateCoP sensorCentroids (sensors point) with
      | Some pos => trail ++ [(cop_x pos, cop_y pos)]
      | None => trail
      end
  | None => trail
  end.

(** [for (let t = currentTime; t > Math.max(0, currentTime - 600); t -= 40)];
    [None] when the loop has not ended after [fuel] rounds. The points are
    kept as pairs; the source prints each as ["x,y"] and joins them. The
    subtractions are exact here; those of the code are exact when the cursor
    is a whole number of magnitude up to 2^52, and it is for such cursors
    that the loop is said to end. *)
Fixpoint trailLoop (fuel : nat) (data : list CoPPoint)
    (sensorCentroids : gmap string Centroid) (currentTime t : Qc)
    (trail : list (coordinate * coordinate))
    : option (list (coordinate * coordinate)) :=
  if decide (Math_max2 0 (currentTime - num 600) < t) then
    match fuel with
    | O => None
    | S fuel' =>
        trailLoop fuel' data sensorCentroids currentTime (t - num 40)
                  (trailPush data sensorCentroids t trail)
    end
  else Some trail.

Definition getTrailPoints (fuel : nat) (data : list CoPPoint)
    (sensorCentroids : gmap string Centroid) (currentTime : Qc)
    : option (list (coordinate * coordinate)) :=
  trailLoop fuel data sensorCentroids currentTime currentTime [].

End HeatmapView.

(** ** components/PressureTimeGraph.tsx *)

Module PressureTimeGraph.
Import JS Types.

Record Row : Type := mkRow {
  time : Qc;
  leftPressure : option Qc;
  rightPressure : option Qc
}.

(** [point?.sumW || null]: null (here [None]) without a sample, and for a
    total pressure of 0. *)
Definition sumW_or_null (point : option CoPPoint) : option Qc :=
  match point with
  | Some p => if decide (sumW p = 0) then None else Some (sumW p)
  | None => None
  end.

(** [combinedData]; the time points are collected and sorted, and the
    samples looked up, by the same code as in [RegionalPressureTimeline]. *)
Definition combinedData (leftFootData rightFootData : list CoPPoint)
    : list Row :=
  (λ t,
     let leftPoint := RegionalPressureTimeline.pointAt leftFootData t in
     let rightPoint := RegionalPressureTimeline.pointAt rightFootData t in
     {| time := t;
        leftPressure := sumW_or_null leftPoint;
        rightPressure := sumW_or_null rightPoint |})
    <$> RegionalPressureTimeline.sortedTimes leftFootData rightFootData.

End PressureTimeGraph.

(** ** The report: deliveries, and the insights of one delivery *)

Module Report.

Record PhaseSummary : Type := mkPhaseSummary {
  foot : string;
  ct_s : Qc;
  ct_band : string;
  impulse_band : string;
  pattern : string
}.

Record PhaseSummaries : Type := mkPhaseSummaries {
  BFC : PhaseSummary;
  FFC : PhaseSummary
}.

(** [insights: { BFC, FFC }]; the code reads [insights.BFC || []]. *)
Record InsightLists : Type := mkInsightLists {
  insights_BFC : option (list string);
  insights_FFC : option (list string)
}.

(** [Delivery], without its texts ([interpretation], [training_focus],
    [qc_summary], [phase_details]). *)
Record Delivery : Type := mkDelivery {
  ball_id : Z;
  usable_delivery : bool;
  phase_summary : PhaseSummaries;
  insights : InsightLists
}.

End Report.

(** ** components/DeliveryDetail.tsx: run-up stance and corrected insights *)

Module DeliveryInsights.
Import JS Types.

(** [allStances.find(s => s.phase === 'RUNUP_LAST')] over
    [[...Left, ...Right]], as in [DeliveryDetail]. *)
Definition runupLastStance (ballStanceData : option BallStanceData)
    : option StanceMetric :=
  match ballStanceData with
  | None => None
  | Some sd =>
      find (λ s, phase s = "RUNUP_LAST")
           (stance_Left (stance_metrics sd) ++ stance_Right (stance_metrics sd))
  end.

(** [Left.find(...) || Right.find(...)], as in [DeliveryGallery] and
    [SessionSummary]. *)
Definition runupStance (ballStances : option BallStanceData)
    : option StanceMetric :=
  match ballStances with
  | None => None
  | Some sd =>
      match find (λ s, phase s = "RUNUP_LAST") (stance_Left (stance_metrics sd))
      with
      | Some s => Some s
      | None =>
          find (λ s, phase s = "RUNUP_LAST") (stance_Right (stance_metrics sd))
      end
  end.

(** [hay.includes(needle)]. *)
Fixpoint includes (needle hay : string) : bool :=
  String.prefix needle hay
  || match hay with
     | EmptyString => false
     | String _ rest => includes needle rest
     end.

(** [Array.from(new Set(xs))] for strings: first occurrences, in order. *)
Definition Set_of (xs : list string) : list string :=
  foldl (λ acc v, if decide (v ∈ acc) then acc else acc ++ [v]) [] xs.

Definition bfcKeywords : list string :=
  ["Heel-dominant loading"; "Braking (Heel Heavy)"].

(** [bfcKeywords.some(kw => item.includes(kw))]. *)
Definition isMisplaced (item : string) : bool :=
  existsb (λ kw, includes kw item) bfcKeywords.

(** The callback of [ffc.filter]: it keeps the items that are not
    misplaced and pushes the others on [itemsToMove]. The state is the pair
    of [itemsToMove] and the items kept so far. *)
Definition sortItem (state : list string * list string) (item : string)
    : list string * list string :=
  if isMisplaced item then (state.1 ++ [item], state.2)
  else (state.1, state.2 ++ [item]).

Record Corrected : Type := mkCorrected {
  BFC : list string;
  FFC : list string
}.

Definition correctedInsights (insights : Report.InsightLists) : Corrected :=
  let bfc := default [] (Report.insights_BFC insights) in
  let ffc := default [] (Report.insights_FFC insights) in
  let moved_kept := foldl sortItem ([], []) ffc in
  let itemsToMove := moved_kept.1 in
  let newFFC := moved_kept.2 in
  let newBFC := bfc ++ itemsToMove in
  {| BFC := Set_of newBFC; FFC := Set_of newFFC |}.

End DeliveryInsights.

(** ** utils/sessionAggregator.ts and utils/synthesisUtils.ts *)

Module SessionAggregator.
Import JS.

Record SessionHighlights : Type := mkSessionHighlights {
  totalDeliveries : nat;
  usableDeliveries : nat;
  avgBFCContact : Qc;
  avgFFCContact : Qc;
  dominantBFCPattern : option string;
  dominantFFCPattern : option string
}.

(** A length, or a count, as a number. *)
Definition count (n : nat) : Qc := Qc_of_Z (Z.of_nat n).

Definition isDigit (c : Ascii.ascii) : bool :=
  (48 <=? Ascii.nat_of_ascii c)%nat && (Ascii.nat_of_ascii c <=? 57)%nat.

Fixpoint allDigits (s : string) : bool :=
  match s with
  | EmptyString => true
  | String c rest => isDigit c && allDigits rest
  end.

(** The names for which an object created as [{}] behaves as a list of
    entries in the order of their creation: not inherited, and not written
    as a number (array indices are listed first, in ascending order, by
    [Object.entries] and [Object.keys]). The tallies below stand for the
    code on arrays of such names. *)
Definition ordinaryName (s : string) : bool :=
  bool_decide (s ∉ inheritedNames)
  && negb (bool_decide (s ≠ EmptyString) && allDigits s).

(** [acc[val]] on an object of counts. *)
Definition get (acc : list (string * nat)) (val : string) : option nat :=
  snd <$> find (λ e : string * nat, e.1 = val) acc.

(** [acc[val] = n]: an existing property keeps its place, a new one goes to
    the end. *)
Fixpoint set (acc : list (string * nat)) (val : string) (n : nat)
    : list (string * nat) :=
  match acc with
  | [] => [(val, n)]
  | e :: acc' =>
      if decide (e.1 = val) then (val, n) :: acc' else e :: set acc' val n
  end.

(** [arr.reduce((acc, val) => { acc[val] = (acc[val] || 0) + 1; return acc },
    {})]. *)
Definition tally (arr : list string) : list (string * nat) :=
  foldl (λ acc val, set acc val (default 0 (get acc val) + 1)%nat) [] arr.

(** [getMostCommon]: [Object.entries(counts).sort((a, b) => b[1] - a[1])
    [0][0]]; [None] stands for the [TypeError] of [[0][0]] on an empty array
    of entries. *)
Definition getMostCommon (arr : list string) : option string :=
  if decide (length arr = 0%nat) then Some "N/A"
  else
    let counts := tally arr in
    let sorted := sort (λ a b : string * nat, count b.2 - count a.2) counts in
    fst <$> head sorted.

(** [usable.reduce((sum, d) => sum + f(d), 0) / usable.length], or 0 for no
    usable delivery. The sum and the quotient are exact here and rounded in
    the code: what is stated of an average is its sign, and its value where
    no rounding occurs (no usable delivery, or one). *)
Definition average (f : Report.Delivery → Qc) (usable : list Report.Delivery)
    : Qc :=
  if decide (0 < length usable)%nat
  then foldl (λ sum d, sum + f d) 0 usable / count (length usable)
  else 0.

Definition calculateSessionHighlights (deliveries : list Report.Delivery)
    : SessionHighlights :=
  let usable := filter (λ d, Report.usable_delivery d = true) deliveries in
  let avgBFC :=
    average (λ d, Report.ct_s (Report.BFC (Report.phase_summary d))) usable in
  let avgFFC :=
    average (λ d, Report.ct_s (Report.FFC (Report.phase_summary d))) usable in
  let bfcPatterns :=
    (λ d, Report.pattern (Report.BFC (Report.phase_summary d))) <$> usable in
  let ffcPatterns :=
    (λ d, Report.pattern (Report.FFC (Report.phase_summary d))) <$> usable in
  {| totalDeliveries := length deliveries;
     usableDeliveries := length usable;
     avgBFCContact := avgBFC;
     avgFFCContact := avgFFC;
     dominantBFCPattern := getMostCommon bfcPatterns;
     dominantFFCPattern := getMostCommon ffcPatterns |}.

(** [getMode] of synthesisUtils.ts: [Object.keys(cnts).reduce((a, b) =>
    cnts[a] > cnts[b] ? a : b)], and [null] for an empty array. The outer
    [None] stands for the [TypeError] of reducing an empty array of keys
    without an initial value. *)
Definition getMode (arr : list string) : option (option string) :=
  if decide (length arr = 0%nat) then Some None
  else
    let cnts := tally arr in
    match cnts.*1 with
    | [] => None
    | k :: keys =>
        Some (Some (foldl (λ a b,
                if decide (default 0 (get cnts b) < default 0 (get cnts a))%nat
                then a else b) k keys))
    end.

End SessionAggregator.

(** ** components/SessionSummary.tsx: the number of a generated player id *)

Module SessionSummary.

(** What [x | 0] and the shift operators make of an integer: the 32-bit
    two's complement value. *)
Definition ToInt32 (z : Z) : Z := ((z + 2 ^ 31) mod 2 ^ 32 - 2 ^ 31)%Z.

(** [hash = ((hash << 5) - hash) + name.charCodeAt(i); hash |= 0]. *)
Definition hashStep (hash charCode : Z) : Z :=
  ToInt32 ((ToInt32 (Z.shiftl (ToInt32 hash) 5) - hash) + charCode)%Z.

(** The loop over the UTF-16 code units of the name. *)
Definition nameHash (name : list Z) : Z := foldl hashStep 0%Z name.

(** [Math.abs(hash % 1000)]. *)
Definition stableNum (name : list Z) : Z :=
  Z.abs (Z.rem (nameHash name) 1000).

End SessionSummary.

(** ** Vocabulary of the further properties *)

Module Vocabulary.
Import JS Types PressureHeatmapSVG.

(** How often [x] occurs in [arr]. *)
Definition occurrences (x : string) (arr : list string) : nat :=
  length (filter (λ y, y = x) arr).

(** [needle] occurs in [hay] as a contiguous piece. *)
Definition isSubstring (needle hay : string) : Prop :=
  ∃ before after, hay = String.append before (String.append needle after).

(** [item] contains one of the [keywords]. *)
Definition mentions (keywords : list string) (item : string) : Prop :=
  ∃ kw, kw ∈ keywords ∧ isSubstring kw item.

(** A course of inputs as a browser produces it: the times of the inputs do
    not go back, an animation frame carries the time at which it runs, the
    range control hands over whole values between 0 and its maximum, and the
    speeds offered are not negative. *)
Fixpoint orderly (maxT previous : Qc) (evs : list (Qc * Input)) : Prop :=
  match evs with
  | [] => True
  | (now, i) :: rest =>
      previous ≤ now
      ∧ match i with
        | AnimationFrame timestamp => timestamp = now
        | RangeChange value => 0 ≤ parseInt value ∧ parseInt value ≤ maxT
        | SpeedClick speed => 0 ≤ speed
        | PlayPauseClick | ResetClick => True
        end
      ∧ orderly maxT now rest
  end.

(** The cursor is on the track, the speed is not negative, and the time
    noted by the animation effect is not ahead of the clock [t]. *)
Definition onTrack (maxT t : Qc) (s : Playback) : Prop :=
  lastTimestamp s ≤ t ∧ 0 ≤ playbackSpeed s
  ∧ 0 ≤ currentTime s ∧ currentTime s ≤ maxT.

(** A point of the trail is the centre of pressure of a sample of the
    series. *)
Definition fromSample (data : list CoPPoint)
    (sensorCentroids : gmap string Centroid) (xy : coordinate * coordinate)
    : Prop :=
  ∃ point pos,
    point ∈ data ∧ calculateCoP sensorCentroids (sensors point) = Some pos
    ∧ xy = (cop_x pos, cop_y pos).

End Vocabulary.

(** ** Further concrete cases *)

Global Instance Row_eq_dec : EqDecision PressureTimeGraph.Row.
Proof. solve_decision. Defined.

Module Cases.
Import JS Types DeliveryDetail PressureHeatmapSVG Examples.

(** A sample at [t] bearing [toe] on S1 and [heel] on S7. *)
Definition pressed (t toe heel : Z) : CoPPoint :=
  {| t_ms := num t; x := 0; y := 0; sumW := num (toe + heel);
     sensors := <["S1" := num toe]> (<["S7" := num heel]> ∅) |}.

Definition heel_strike : list CoPPoint :=
  [pressed 0 0 30; pressed 40 10 20].

Definition toe_off : list CoPPoint :=
  [pressed 40 25 0; pressed 80 0 0].

(** A second delivery in both documents, without stances or events. *)
Definition other_ball : BallStanceData :=
  {| ball_id := 2;
     stance_metrics := {| stance_Left := []; stance_Right := [] |} |}.

Definition other_events : BallEventData :=
  {| evt_ball_id := 2; events := EventsArray [] |}.

Definition summary (side : string) (contact : Qc) (loading : string)
    : Report.PhaseSummary :=
  {| Report.foot := side; Report.ct_s := contact; Report.ct_band := "typical";
     Report.impulse_band := "typical"; Report.pattern := loading |}.

Definition delivery (id : Z) (usable : bool) (bfc ffc : Qc)
    (bfcPattern ffcPattern : string) : Report.Delivery :=
  {| Report.ball_id := id; Report.usable_delivery := usable;
     Report.phase_summary :=
       {| Report.BFC := summary "Right" bfc bfcPattern;
          Report.FFC := summary "Left" ffc ffcPattern |};
     Report.insights :=
       {| Report.insights_BFC := Some []; Report.insights_FFC := None |} |}.

(** Three deliveries, the second of which is not usable. *)
Definition session : list Report.Delivery :=
  [ delivery 1 true (Q2Qc (22 # 100)) (Q2Qc (18 # 100)) "Heel Strike" "Flat";
    delivery 2 false (num 5) (num 5) "Unknown" "Unknown";
    delivery 3 true (Q2Qc (26 # 100)) (Q2Qc (20 # 100)) "Forefoot" "Flat" ].

Definition discarded_session : list Report.Delivery :=
  [ delivery 1 false (Q2Qc (22 # 100)) (Q2Qc (18 # 100)) "Heel Strike" "Flat" ].

Definition patterns : list string :=
  ["Heel Strike"; "Forefoot"; "Forefoot"; "Heel Strike"].

End Cases.

(** * Properties *)

Import JS Types DeliveryDetail PressureHeatmapSVG RegionalPressureTimeline.
Import Spec Examples.

(** Closed goals over concrete data are settled by evaluation. *)
Ltac by_evaluation :=
  apply (bool_decide_unpack _); vm_compute; exact I.

(** ** The built-ins on small inputs *)

Example sort_keeps_ties :
  sort byTime [ mkCoPPoint (num 5) 1 0 0 ∅; mkCoPPoint (num 0) 0 0 0 ∅;
                mkCoPPoint (num 5) (num 2) 0 0 ∅ ]
  = [ mkCoPPoint (num 0) 0 0 0 ∅; mkCoPPoint (num 5) 1 0 0 ∅;
      mkCoPPoint (num 5) (num 2) 0 0 ∅ ].
Proof. by_evaluation. Qed.

Example Set_from_first_insertion :
  Set_from [num 5; num 0; num 5; num 3; num 0] = [num 5; num 0; num 3].
Proof. by_evaluation. Qed.

Example parseInt_truncates :
  parseInt (Q2Qc (7 # 2)) = num 3 ∧ parseInt (Q2Qc (-7 # 2)) = num (-3)
  ∧ parseInt (num 1230) = num 1230.
Proof. repeat split; by_evaluation. Qed.

Example Math_min_max_of_nothing :
  Math_min [] = Infinity ∧ Math_max [] = NegInfinity
  ∧ Math_min [num 3; num 1; num 2] = Finite (num 1)
  ∧ Math_max [num 3; num 1; num 2] = Finite (num 3).
Proof. repeat split; by_evaluation. Qed.

Example maxTime_of_series :
  maxTime [] [] = num 2000
  ∧ maxTime series_0_100_200 [sample 0; sample 150] = num 200.
Proof. split; by_evaluation. Qed.

(** ** Rational arithmetic *)

Lemma Qc_sub_le0 (p q : Qc) : p - q ≤ 0 ↔ p ≤ q.
Proof.
  rewrite (Qcplus_le_mono_r (p - q) 0 q).
  replace (p - q + q) with p by ring. by rewrite Qcplus_0_l.
Qed.

Lemma Qc_sum_zero (p q : Qc) : 0 ≤ p → 0 ≤ q → p + q = 0 → p = 0 ∧ q = 0.
Proof.
  intros Hp Hq Hs.
  assert (p ≤ 0) as Hp'.
  { rewrite <-Hs. rewrite <-(Qcplus_0_r p) at 1. by apply Qcplus_le_mono_l. }
  assert (q ≤ 0) as Hq'.
  { rewrite <-Hs. rewrite <-(Qcplus_0_l q) at 1. by apply Qcplus_le_mono_r. }
  split; by apply (anti_symm Qcle).
Qed.

Lemma or0_default v : or0 v = default 0 v.
Proof. destruct v as [q|]; simpl; [|done]. by case_decide. Qed.

(** ** The stable sort *)

Section sort_facts.
Context {A : Type} (cmp : A → A → Qc) (key : A → Qc).
Hypothesis cmp_key : ∀ a b, cmp a b = key a - key b.

Lemma cmp_le0 a b : cmp a b ≤ 0 ↔ key a ≤ key b.
Proof. rewrite cmp_key. apply Qc_sub_le0. Qed.

Lemma sort_insert_perm a l : sort_insert cmp a l ≡ₚ a :: l.
Proof.
  induction l as [|b l IH]; simpl; [done|].
  case_decide; [done|]. by rewrite IH, Permutation_swap.
Qed.

Lemma sort_perm l : sort cmp l ≡ₚ l.
Proof.
  induction l as [|a l IH]; simpl; [done|].
  by rewrite sort_insert_perm, IH.
Qed.

Lemma sort_insert_sorted a l :
  StronglySorted (λ a b, key a ≤ key b) l →
  StronglySorted (λ a b, key a ≤ key b) (sort_insert cmp a l).
Proof.
  induction 1 as [|b l Hl IH Hb]; simpl.
  - repeat constructor.
  - case_decide as Hab.
    + apply cmp_le0 in Hab. constructor; [by constructor|].
      constructor; [done|].
      eapply Forall_impl; [exact Hb|]. intros c Hc. simpl in *.
      by trans (key b).
    + constructor; [done|].
      rewrite sort_insert_perm. constructor; [|done].
      rewrite cmp_le0 in Hab. apply Qcnot_le_lt in Hab.
      by apply Qclt_le_weak.
Qed.

Lemma sort_sorted l : StronglySorted (λ a b, key a ≤ key b) (sort cmp l).
Proof.
  induction l; simpl; [constructor|]. by apply sort_insert_sorted.
Qed.

(** Inserting [a] only moves it past elements with a strictly smaller key, so
    the elements of any one key keep their order. *)
Lemma filter_sort_insert k a l :
  filter (λ c, key c = k) (sort_insert cmp a l) = filter (λ c, key c = k) (a :: l).
Proof.
  induction l as [|b l IH]; simpl; [done|].
  case_decide as Hab; [done|].
  rewrite cmp_le0 in Hab. apply Qcnot_le_lt in Hab.
  rewrite filter_cons, IH, !filter_cons.
  destruct (decide (key b = k)) as [Hb|Hb]; [|done].
  destruct (decide (key a = k)) as [Ha|Ha]; [|done].
  rewrite Ha, Hb in Hab. by apply Qclt_not_eq in Hab.
Qed.

Lemma filter_sort k l :
  filter (λ c, key c = k) (sort cmp l) = filter (λ c, key c = k) l.
Proof.
  induction l as [|a l IH]; simpl; [done|].
  by rewrite filter_sort_insert, !filter_cons, IH.
Qed.

(** A list sorted by key is determined by its per-key sublists. *)
Lemma stable_sorted_unique l1 l2 :
  StronglySorted (λ a b, key a ≤ key b) l1 →
  StronglySorted (λ a b, key a ≤ key b) l2 →
  (∀ k, filter (λ c, key c = k) l1 = filter (λ c, key c = k) l2) →
  l1 = l2.
Proof.
  intros H1. revert l2. induction H1 as [|a l1 Hl1 IH Ha]; intros l2 H2 Hf.
  - destruct l2 as [|b l2]; [done|].
    specialize (Hf (key b)). by rewrite filter_cons_True in Hf.
  - destruct H2 as [|b l2 Hl2 Hb].
    { specialize (Hf (key a)). by rewrite filter_cons_True in Hf. }
    assert (key a = key b) as Hab.
    { apply (anti_symm Qcle).
      - assert (b ∈ a :: l1) as Hin.
        { assert (b ∈ filter (λ c, key c = key b) (a :: l1)) as Hin.
          { rewrite Hf, filter_cons_True by done. left. }
          by apply list_elem_of_filter in Hin as [_ ?]. }
        apply elem_of_cons in Hin as [->|Hin]; [done|].
        by apply (proj1 (Forall_forall _ _) Ha).
      - assert (a ∈ b :: l2) as Hin.
        { assert (a ∈ filter (λ c, key c = key a) (b :: l2)) as Hin.
          { rewrite <-Hf, filter_cons_True by done. left. }
          by apply list_elem_of_filter in Hin as [_ ?]. }
        apply elem_of_cons in Hin as [->|Hin]; [done|].
        by apply (proj1 (Forall_forall _ _) Hb). }
    assert (a = b ∧ ∀ k, filter (λ c, key c = k) l1 = filter (λ c, key c = k) l2)
      as [-> Hf'].
    { split.
      - specialize (Hf (key a)).
        rewrite !filter_cons_True in Hf by done. congruence.
      - intros k. specialize (Hf k). rewrite !filter_cons in Hf.
        rewrite <-Hab in Hf. destruct (decide (key a = k)); congruence. }
    f_equal. by apply IH.
Qed.

End sort_facts.

(** ** [Math.min] and [Math.max] *)

Lemma Math_min_from xs first :
  ∃ m, foldl (λ acc v, number_min acc (Finite v)) (Finite first) xs = Finite m
       ∧ m ∈ first :: xs ∧ ∀ v, v ∈ first :: xs → m ≤ v.
Proof.
  revert first. induction xs as [|x xs IH]; intros first; simpl.
  - exists first. split; [done|]. split; [left|].
    by intros v ->%list_elem_of_singleton.
  - destruct (IH (if decide (first ≤ x) then first else x))
      as (m & Hm & Hin & Hle).
    exists m. split; [done|]. case_decide as Hfx.
    + split.
      * apply elem_of_cons in Hin as [->|?]; [left|]. by do 2 right.
      * intros v [->|[->|?]%elem_of_cons]%elem_of_cons.
        -- apply Hle. left.
        -- trans first; [apply Hle; left|done].
        -- apply Hle. by right.
    + apply Qcnot_le_lt, Qclt_le_weak in Hfx. split.
      * by right.
      * intros v [->|[->|?]%elem_of_cons]%elem_of_cons.
        -- trans x; [apply Hle; left|done].
        -- apply Hle. left.
        -- apply Hle. by right.
Qed.

Lemma Math_max_from xs first :
  ∃ m, foldl (λ acc v, number_max acc (Finite v)) (Finite first) xs = Finite m
       ∧ m ∈ first :: xs ∧ ∀ v, v ∈ first :: xs → v ≤ m.
Proof.
  revert first. induction xs as [|x xs IH]; intros first; simpl.
  - exists first. split; [done|]. split; [left|].
    by intros v ->%list_elem_of_singleton.
  - destruct (IH (if decide (first ≤ x) then x else first))
      as (m & Hm & Hin & Hle).
    exists m. split; [done|]. case_decide as Hfx.
    + split.
      * by right.
      * intros v [->|[->|?]%elem_of_cons]%elem_of_cons.
        -- trans x; [done|apply Hle; left].
        -- apply Hle. left.
        -- apply Hle. by right.
    + apply Qcnot_le_lt, Qclt_le_weak in Hfx. split.
      * apply elem_of_cons in Hin as [->|?]; [left|]. by do 2 right.
      * intros v [->|[->|?]%elem_of_cons]%elem_of_cons.
        -- apply Hle. left.
        -- trans first; [done|apply Hle; left].
        -- apply Hle. by right.
Qed.

(** [Math.min] and [Math.max] of at least one number are the least and the
    greatest of them. *)
Lemma Math_min_nonempty xs :
  xs ≠ [] →
  ∃ m, Math_min xs = Finite m ∧ m ∈ xs ∧ ∀ v, v ∈ xs → m ≤ v.
Proof. destruct xs as [|x xs]; [done|]. intros _. apply Math_min_from. Qed.

Lemma Math_max_nonempty xs :
  xs ≠ [] →
  ∃ m, Math_max xs = Finite m ∧ m ∈ xs ∧ ∀ v, v ∈ xs → v ≤ m.
Proof. destruct xs as [|x xs]; [done|]. intros _. apply Math_max_from. Qed.

(** ** Event index and global start *)

(** Last write wins: the index holds, for each stance id, the last event of
    the two feeds (left, then right) that carries it. *)
Lemma buildEventsMap_lookup l r k :
  buildEventsMap l r !! k = last (filter (λ e, evt_stance_id e = k) (l ++ r)).
Proof.
  unfold buildEventsMap. generalize (l ++ r). clear l r. intros l.
  induction l as [|e l IH] using rev_ind; [done|].
  rewrite foldl_app, filter_app. simpl.
  rewrite filter_cons, filter_nil.
  destruct (decide (evt_stance_id e = k)) as [->|Hne].
  - by rewrite lookup_insert_eq, last_snoc.
  - by rewrite lookup_insert_ne, app_nil_r.
Qed.

(** The scan ends on [Infinity] exactly for the empty index, and otherwise
    on the least initial-contact timestamp in it. *)
Lemma scanMinTime_spec (em : gmap Z ContactEvent) :
  match scanMinTime em with
  | None => em = ∅
  | Some m =>
      (∀ k e, em !! k = Some e → m ≤ ic_ts_ms e)
      ∧ ∃ k e, em !! k = Some e ∧ m = ic_ts_ms e
  end.
Proof.
  unfold scanMinTime.
  apply (map_fold_weak_ind (λ r (m : gmap Z ContactEvent),
    match r with
    | None => m = ∅
    | Some v => (∀ k e, m !! k = Some e → v ≤ ic_ts_ms e)
                ∧ ∃ k e, m !! k = Some e ∧ v = ic_ts_ms e
    end)); [done|].
  intros i evt m r Hi IH. destruct r as [v|].
  - destruct IH as [Hlb (k & e & Hk & ->)]. case_decide as Hlt.
    + split.
      * intros k' e' [[-> ->]|[? Hk']]%lookup_insert_Some; [done|].
        trans (ic_ts_ms e); [by apply Qclt_le_weak|eauto].
      * exists i, evt. by rewrite lookup_insert_eq.
    + apply Qcnot_lt_le in Hlt. split.
      * intros k' e' [[-> ->]|[? Hk']]%lookup_insert_Some; eauto.
      * exists k, e. split; [|done]. rewrite lookup_insert_ne; [done|].
        intros ->. congruence.
  - subst m. split.
    + intros k' e' [[-> ->]|[? Hk']]%lookup_insert_Some; [done|].
      by rewrite lookup_empty in Hk'.
    + exists i, evt. by rewrite lookup_insert_eq.
Qed.

(** C1, as stated, fails: with contacts at 500 (stance 1) and 1000
    (stance 2) in the events file and only stance 2 among the delivery's
    stances, the only referenced event is the one at 1000, yet the global
    start is 500. *)
Lemma globalStart_counts_unreferenced_events :
  referencedEvents (ballEventsMap unreferenced_events)
                   (allStances unreferenced_stances)
    = [contact 2 "Left" 1000 1100]
  ∧ referencedGlobalZero (ballEventsMap unreferenced_events)
                         (allStances unreferenced_stances) = num 1000
  ∧ globalStart (ballEventsMap unreferenced_events) = num 500
  ∧ globalStart (ballEventsMap unreferenced_events)
    ≠ referencedGlobalZero (ballEventsMap unreferenced_events)
                           (allStances unreferenced_stances).
Proof. repeat split; by_evaluation. Qed.

(** When every event of the index is referred to by some stance, the global
    start is the minimum the specification describes. *)
Lemma globalStart_referenced (em : gmap Z ContactEvent) stances :
  (∀ k e, em !! k = Some e → ∃ s, s ∈ stances ∧ stance_id s = k) →
  globalStart em = referencedGlobalZero em stances.
Proof.
  intros Hall. unfold globalStart, referencedGlobalZero.
  pose proof (scanMinTime_spec em) as Hscan.
  destruct (scanMinTime em) as [m|].
  - destruct Hscan as [Hlb (k & e & Hk & ->)].
    destruct (Hall k e Hk) as (s & Hs & <-).
    assert (e ∈ referencedEvents em stances) as Hin.
    { apply list_elem_of_omap. by exists s. }
    destruct (Math_min_nonempty (ic_ts_ms <$> referencedEvents em stances))
      as (m & -> & Hm & Hmin).
    { intros Hnil. apply fmap_nil_inv in Hnil. rewrite Hnil in Hin.
      by apply elem_of_nil in Hin. }
    apply (anti_symm Qcle).
    + apply list_elem_of_fmap in Hm as (e' & -> & He').
      apply list_elem_of_omap in He' as (s' & _ & Hs').
      by apply (Hlb _ _ Hs').
    + apply Hmin. by apply list_elem_of_fmap_2.
  - subst em. unfold referencedEvents.
    assert (omap (λ s, (∅ : gmap Z ContactEvent) !! stance_id s) stances = [])
      as ->; [|done].
    induction stances as [|s l IH]; [done|]. simpl.
    rewrite lookup_empty. apply IH. intros k e. by rewrite lookup_empty.
Qed.

(** C1, amended: the global start of a delivery is the least [ic_ts_ms] over
    all contact events of its event index (per stance id the last event of
    the left-then-right feed), whether or not a stance refers to them, and 0
    when the index is empty; it is the minimum over the events the stances
    refer to whenever every indexed event is referred to. *)
Theorem globalStart_min_of_event_index (be : BallEventData) :
  (∀ k, ballEventsMap be !! k
        = last (filter (λ e, evt_stance_id e = k)
                       (sideEvents events_Left (events be)
                        ++ sideEvents events_Right (events be))))
  ∧ (ballEventsMap be = ∅ → globalStart (ballEventsMap be) = 0)
  ∧ (∀ k e, ballEventsMap be !! k = Some e
            → globalStart (ballEventsMap be) ≤ ic_ts_ms e)
  ∧ (ballEventsMap be ≠ ∅
     → ∃ k e, ballEventsMap be !! k = Some e
              ∧ globalStart (ballEventsMap be) = ic_ts_ms e)
  ∧ (∀ stances,
       (∀ k e, ballEventsMap be !! k = Some e
               → ∃ s, s ∈ stances ∧ stance_id s = k) →
       globalStart (ballEventsMap be)
       = referencedGlobalZero (ballEventsMap be) stances).
Proof.
  split; [intros k; apply buildEventsMap_lookup|].
  generalize (ballEventsMap be). intros em.
  split; [|split; [|split]]; [| | |apply globalStart_referenced].
  all: unfold globalStart; pose proof (scanMinTime_spec em) as Hscan;
    destruct (scanMinTime em) as [m|].
  - destruct Hscan as [_ (k & e & Hk & _)].
    intros ->. by rewrite lookup_empty in Hk.
  - done.
  - by destruct Hscan.
  - subst em. intros k e. by rewrite lookup_empty.
  - destruct Hscan as [_ (k & e & Hk & ->)]. intros _. by exists k, e.
  - done.
Qed.

(** ** Alignment of the samples *)

Lemma foldl_snoc_fmap {A B} (f : A → B) (acc : list B) (l : list A) :
  foldl (λ pts pt, pts ++ [f pt]) acc l = acc ++ (f <$> l).
Proof.
  revert acc. induction l as [|a l IH]; intros acc; simpl.
  - by rewrite app_nil_r.
  - by rewrite IH, <-app_assoc.
Qed.

Lemma pushStance_app em minTime acc s :
  pushStance em minTime acc s = acc ++ stanceSamples em minTime s.
Proof.
  unfold pushStance, stanceSamples. destruct (em !! stance_id s).
  - apply foldl_snoc_fmap.
  - by rewrite app_nil_r.
Qed.

(** [allPoints] is the concatenation, in stance order, of what each stance
    contributes. *)
Lemma collectPoints_bind em minTime stances :
  collectPoints em minTime stances = stances ≫= stanceSamples em minTime.
Proof.
  unfold collectPoints.
  enough (∀ acc, foldl (pushStance em minTime) acc stances
                 = acc ++ (stances ≫= stanceSamples em minTime)) as H
    by apply H.
  induction stances as [|s l IH]; intros acc; simpl.
  - by rewrite app_nil_r.
  - by rewrite IH, pushStance_app, <-app_assoc.
Qed.

Lemma byTime_key a b : byTime a b = t_ms a - t_ms b.
Proof. done. Qed.

Lemma processFoot_sorted em minTime stances :
  sortedByTime (processFoot em minTime stances).
Proof. apply (sort_sorted byTime t_ms byTime_key). Qed.

Lemma processFoot_perm em minTime stances :
  processFoot em minTime stances ≡ₚ stances ≫= stanceSamples em minTime.
Proof.
  unfold processFoot. rewrite collectPoints_bind.
  apply (sort_perm byTime).
Qed.

(** C2: whatever the order of the stances and their local timestamps, the
    series of a foot is non-decreasing in [t_ms]; it holds the samples of
    the concatenation (in stance order) of the aligned stances, those of
    equal [t_ms] in their concatenation order; and it is the only list with
    these properties, so it is determined by the input. Both series of a
    delivery are sorted. *)
Theorem aligned_series_sorted_stable em minTime stances :
  collectPoints em minTime stances = stances ≫= stanceSamples em minTime
  ∧ sortedByTime (processFoot em minTime stances)
  ∧ processFoot em minTime stances ≡ₚ stances ≫= stanceSamples em minTime
  ∧ (∀ t, atTime t (processFoot em minTime stances)
          = atTime t (stances ≫= stanceSamples em minTime))
  ∧ (∀ series,
       sortedByTime series →
       (∀ t, atTime t series = atTime t (stances ≫= stanceSamples em minTime)) →
       series = processFoot em minTime stances)
  ∧ (∀ sd be, sortedByTime (leftData (alignedTimeline sd be))
              ∧ sortedByTime (rightData (alignedTimeline sd be))).
Proof.
  assert (∀ t, atTime t (processFoot em minTime stances)
               = atTime t (stances ≫= stanceSamples em minTime)) as Hstable.
  { intros t. unfold processFoot, atTime. rewrite collectPoints_bind.
    apply (filter_sort byTime t_ms byTime_key). }
  split; [apply collectPoints_bind|].
  split; [apply processFoot_sorted|].
  split; [apply processFoot_perm|].
  split; [done|]. split.
  - intros series Hsorted Hsame.
    apply (stable_sorted_unique t_ms); [done|apply processFoot_sorted|].
    intros k. specialize (Hsame k). specialize (Hstable k).
    unfold atTime in *. congruence.
  - intros [sd|] [be|]; simpl;
      try (split; apply processFoot_sorted); split; constructor.
Qed.

Lemma processFoot_drop em minTime before stance after :
  em !! stance_id stance = None →
  processFoot em minTime (before ++ stance :: after)
  = processFoot em minTime (before ++ after).
Proof.
  intros Hnone. unfold processFoot. rewrite !collectPoints_bind.
  rewrite !bind_app, bind_cons. unfold stanceSamples at 2.
  by rewrite Hnone.
Qed.

(** C6: a stance whose id has no contact event contributes no sample, and
    its presence, on either foot and wherever it stands among the stances,
    leaves both aligned series of the delivery as they are without it; the
    timeline has a value for every input, so nothing is raised. *)
Theorem stance_without_event_dropped be id before stance after other :
  ballEventsMap be !! stance_id stance = None →
  stanceSamples (ballEventsMap be) (globalStart (ballEventsMap be)) stance = []
  ∧ processFoot (ballEventsMap be) (globalStart (ballEventsMap be)) [stance]
    = []
  ∧ leftData (alignedTimeline
       (Some (mkBallStanceData id
                (mkStanceSides (before ++ stance :: after) other))) (Some be))
    = leftData (alignedTimeline
       (Some (mkBallStanceData id (mkStanceSides (before ++ after) other)))
       (Some be))
  ∧ rightData (alignedTimeline
       (Some (mkBallStanceData id
                (mkStanceSides (before ++ stance :: after) other))) (Some be))
    = rightData (alignedTimeline
       (Some (mkBallStanceData id (mkStanceSides (before ++ after) other)))
       (Some be))
  ∧ leftData (alignedTimeline
       (Some (mkBallStanceData id
                (mkStanceSides other (before ++ stance :: after)))) (Some be))
    = leftData (alignedTimeline
       (Some (mkBallStanceData id (mkStanceSides other (before ++ after))))
       (Some be))
  ∧ rightData (alignedTimeline
       (Some (mkBallStanceData id
                (mkStanceSides other (before ++ stance :: after)))) (Some be))
    = rightData (alignedTimeline
       (Some (mkBallStanceData id (mkStanceSides other (before ++ after))))
       (Some be)).
Proof.
  intros Hnone.
  assert (stanceSamples (ballEventsMap be) (globalStart (ballEventsMap be))
            stance = []) as Hs.
  { unfold stanceSamples. by rewrite Hnone. }
  split; [done|]. split.
  { unfold processFoot. rewrite collectPoints_bind. simpl. by rewrite Hs. }
  simpl. repeat split; try done; by apply processFoot_drop.
Qed.

Lemma stance_without_event_dropped_witness :
  ballEventsMap orphan_events !! 2%Z = None
  ∧ leftData (alignedTimeline (Some orphan_stances) (Some orphan_events))
    = leftData (alignedTimeline (Some orphan_stances_without)
                                (Some orphan_events)).
Proof.
  split; [reflexivity|].
  exact (proj1 (proj2 (proj2
    (stance_without_event_dropped orphan_events 1
       [stance 1 "Left" "FFC" [0; 5]%Z]
       (stance 2 "Left" "FFC" [0; 5; 10]%Z) [] []
       eq_refl)))).
Defined.

(** C7: the aligned series consists of exactly the samples of the stances
    that have a contact event, each with [t_ms] increased by the offset
    [ic_ts_ms − minTime] of its stance and with [x], [y], [sumW] and
    [sensors] as they were. Local samples 0, 5, 10 ms of a stance in contact
    at 1200, in a delivery whose global start is 1000, come out at 200, 205,
    210. *)
Theorem offset_applied em minTime stances :
  (∀ offset pt,
     t_ms (shiftPoint offset pt) = t_ms pt + offset
     ∧ x (shiftPoint offset pt) = x pt
     ∧ y (shiftPoint offset pt) = y pt
     ∧ sumW (shiftPoint offset pt) = sumW pt
     ∧ sensors (shiftPoint offset pt) = sensors pt)
  ∧ processFoot em minTime stances ≡ₚ stances ≫= stanceSamples em minTime
  ∧ (∀ s event pt,
       s ∈ stances → em !! stance_id s = Some event → pt ∈ cop_trajectory s →
       shiftPoint (ic_ts_ms event - minTime) pt
         ∈ processFoot em minTime stances)
  ∧ (∀ q, q ∈ processFoot em minTime stances →
       ∃ s event pt,
         s ∈ stances ∧ em !! stance_id s = Some event ∧ pt ∈ cop_trajectory s
         ∧ q = shiftPoint (ic_ts_ms event - minTime) pt)
  ∧ globalStart (ballEventsMap offset_events) = num 1000
  ∧ t_ms <$> leftData (alignedTimeline (Some offset_stances)
                                       (Some offset_events))
    = [num 200; num 205; num 210].
Proof.
  split; [done|]. split; [apply processFoot_perm|]. split; [|split].
  - intros s event pt Hs Hev Hpt. rewrite processFoot_perm.
    apply list_elem_of_bind. exists s. split; [|done].
    unfold stanceSamples. rewrite Hev. by apply list_elem_of_fmap_2.
  - intros q. rewrite processFoot_perm.
    intros (s & Hq & Hs)%list_elem_of_bind. unfold stanceSamples in Hq.
    destruct (em !! stance_id s) as [event|] eqn:Hev;
      [|by apply elem_of_nil in Hq].
    apply list_elem_of_fmap in Hq as (pt & -> & Hpt).
    by exists s, event, pt.
  - split; by_evaluation.
Qed.

(** ** Phase markers *)

Lemma stance_times_with_event em minTime s event :
  em !! stance_id s = Some event →
  stanceStart em minTime s = ic_ts_ms event - minTime
  ∧ stanceEnd em minTime s = to_ts_ms event - minTime.
Proof.
  intros Hev. unfold stanceStart, stanceEnd.
  by rewrite Hev, !or0_default.
Qed.

Lemma stance_times_of_referenced em minTime l :
  Forall (λ s, is_Some (em !! stance_id s)) l →
  stanceStart em minTime <$> l
    = (λ e, ic_ts_ms e - minTime) <$> referencedEvents em l
  ∧ stanceEnd em minTime <$> l
    = (λ e, to_ts_ms e - minTime) <$> referencedEvents em l.
Proof.
  unfold referencedEvents.
  induction 1 as [|s l [event Hev] _ [IHs IHe]]; [done|].
  destruct (stance_times_with_event em minTime s event Hev) as [Hs He].
  rewrite !fmap_cons, IHs, IHe, Hs, He. simpl. by rewrite Hev.
Qed.

(** C5, at a delivery the code can receive: of two stances tagged FFC
    only stance 1 has a contact event (1000 to 1100, the first of the
    delivery), so the windows of the events of the tagged stances span 0 to
    100. The stance without an event is not left out of the marker, as it is
    left out of the series by [processFoot]: it enters with timestamp 0
    ([?.ic_ts_ms || 0]), and the marker starts at -1000. With no event at
    all the same stances give a marker from 0 to 0. *)
Theorem marker_counts_stance_without_event :
  globalStart (ballEventsMap orphan_events) = num 1000
  ∧ referencedEvents (ballEventsMap orphan_events)
                     (phaseStances "FFC" orphan_stances)
    = [contact 1 "Left" 1000 1100]
  ∧ markerBounds (ballEventsMap orphan_events) (num 1000)
                 (phaseStances "FFC" orphan_stances)
    = (Finite 0, Finite (num 100))
  ∧ phaseMarkers (alignedTimeline (Some orphan_stances) (Some orphan_events))
    = [ {| name := "FFC"; start := Finite (num (-1000));
           end_ := Finite (num 100); color := "#2196F3" |} ]
  ∧ (start <$> phaseMarkers (alignedTimeline (Some orphan_stances)
                                             (Some orphan_events)))
    ≠ [ (markerBounds (ballEventsMap orphan_events) (num 1000)
                      (phaseStances "FFC" orphan_stances)).1 ]
  ∧ leftData (alignedTimeline (Some orphan_stances) (Some orphan_events))
    = [shiftPoint 0 (sample 0); shiftPoint 0 (sample 5)]
  ∧ leftData (alignedTimeline (Some orphan_stances) (Some (ballEvents [] [])))
    = []
  ∧ phaseMarkers (alignedTimeline (Some orphan_stances)
                                  (Some (ballEvents [] [])))
    = [ {| name := "FFC"; start := Finite 0; end_ := Finite 0;
           color := "#2196F3" |} ].
Proof. repeat split; by_evaluation. Qed.

(** What the code computes for a phase: for a delivery with stance data and
    events, and for each of the phases BFC and FFC, no marker is emitted
    when no stance of either foot is tagged with it; otherwise one marker is
    appended whose start is the least and whose end is the greatest, over the
    tagged stances, of [ic_ts_ms − globalZero] and [to_ts_ms − globalZero],
    a tagged stance without a contact event entering both with timestamp 0.
    When every tagged stance has its event these are the bounds the
    specification names. Two FFC stances with windows [50, 90] and
    [70, 110] give the single marker from 50 to 110. *)
Lemma phase_marker_bounds em minTime sd phaseName colour markers :
  (phaseStances phaseName sd = [] →
     pushMarker em minTime phaseName colour (phaseStances phaseName sd) markers
     = markers)
  ∧ (phaseStances phaseName sd ≠ [] →
     ∃ lo hi,
       pushMarker em minTime phaseName colour (phaseStances phaseName sd)
                  markers
       = markers ++ [ {| name := phaseName; start := Finite lo;
                         end_ := Finite hi; color := colour |} ]
       ∧ lo ∈ stanceStart em minTime <$> phaseStances phaseName sd
       ∧ (∀ v, v ∈ stanceStart em minTime <$> phaseStances phaseName sd
               → lo ≤ v)
       ∧ hi ∈ stanceEnd em minTime <$> phaseStances phaseName sd
       ∧ (∀ v, v ∈ stanceEnd em minTime <$> phaseStances phaseName sd
               → v ≤ hi))
  ∧ (∀ s event, em !! stance_id s = Some event →
       stanceStart em minTime s = ic_ts_ms event - minTime
       ∧ stanceEnd em minTime s = to_ts_ms event - minTime)
  ∧ (∀ s, em !! stance_id s = None →
       stanceStart em minTime s = 0 - minTime
       ∧ stanceEnd em minTime s = 0 - minTime)
  ∧ (phaseStances phaseName sd ≠ [] →
     Forall (λ s, is_Some (em !! stance_id s)) (phaseStances phaseName sd) →
     pushMarker em minTime phaseName colour (phaseStances phaseName sd)
                markers
     = markers ++ [ {| name := phaseName;
                       start := (markerBounds em minTime
                                   (phaseStances phaseName sd)).1;
                       end_ := (markerBounds em minTime
                                   (phaseStances phaseName sd)).2;
                       color := colour |} ])
  ∧ deriveMarkers em minTime sd
    = pushMarker em minTime "FFC" "#2196F3" (phaseStances "FFC" sd)
        (pushMarker em minTime "BFC" "#FF6B35" (phaseStances "BFC" sd) [])
  ∧ (∀ be, phaseMarkers (alignedTimeline (Some sd) (Some be))
           = deriveMarkers (ballEventsMap be) (globalStart (ballEventsMap be))
                           sd)
  ∧ phaseMarkers (alignedTimeline (Some ffc_stances) (Some ffc_events))
    = [ {| name := "FFC"; start := Finite (num 50); end_ := Finite (num 110);
           color := "#2196F3" |} ].
Proof.
  generalize (phaseStances phaseName sd). intros tagged.
  split; [by intros ->|].
  split; [|split; [|split; [|split; [|split; [|split]]]]].
  - intros Hne. unfold pushMarker.
    rewrite decide_True by (destruct tagged; [done|simpl; lia]).
    destruct (Math_min_nonempty (stanceStart em minTime <$> tagged))
      as (lo & -> & Hlo & Hlo'); [by destruct tagged|].
    destruct (Math_max_nonempty (stanceEnd em minTime <$> tagged))
      as (hi & -> & Hhi & Hhi'); [by destruct tagged|].
    by exists lo, hi.
  - apply stance_times_with_event.
  - intros s Hnone. unfold stanceStart, stanceEnd. by rewrite Hnone.
  - intros Hne Hall. unfold pushMarker, markerBounds.
    rewrite decide_True by (destruct tagged; [done|simpl; lia]).
    destruct (stance_times_of_referenced em minTime tagged Hall) as [-> ->].
    done.
  - done.
  - done.
  - by_evaluation.
Qed.

(** ** Centre of pressure *)

Lemma coord_plus_0_r a : coord_plus a (Coord 0) = a.
Proof. destruct a; simpl; [done|]. f_equal. ring. Qed.

Lemma coord_plus_0_l a : coord_plus (Coord 0) a = a.
Proof. destruct a; simpl; [done|]. f_equal. ring. Qed.

Lemma coord_plus_assoc a b d :
  coord_plus a (coord_plus b d) = coord_plus (coord_plus a b) d.
Proof. destruct a, b, d; simpl; try done. f_equal. ring. Qed.

Lemma coord_plus_comm a b : coord_plus a b = coord_plus b a.
Proof. destruct a, b; simpl; try done. f_equal. ring. Qed.

Section cop_facts.
Context (c : gmap string Centroid).

Lemma accAdd_0_r a : accAdd a (mkCoPAcc (Coord 0) (Coord 0) 0) = a.
Proof.
  destruct a. unfold accAdd; simpl.
  rewrite !coord_plus_0_r. f_equal. ring.
Qed.

Lemma accAdd_0_l a : accAdd (mkCoPAcc (Coord 0) (Coord 0) 0) a = a.
Proof.
  destruct a. unfold accAdd.
  cbn [totalWeightedX totalWeightedY totalForce].
  rewrite !coord_plus_0_l. f_equal. ring.
Qed.

Lemma accAdd_assoc a b d : accAdd a (accAdd b d) = accAdd (accAdd a b) d.
Proof.
  unfold accAdd; simpl. rewrite !coord_plus_assoc. f_equal. ring.
Qed.

Lemma accAdd_swap a b d : accAdd a (accAdd b d) = accAdd b (accAdd a d).
Proof.
  unfold accAdd; simpl.
  rewrite !coord_plus_assoc.
  rewrite (coord_plus_comm (totalWeightedX a)).
  rewrite (coord_plus_comm (totalWeightedY a)).
  f_equal. ring.
Qed.

(** One round of the loop adds what the specification names for the
    channel it visits, unless the channel finds an inherited member. *)
Lemma copStep_contribution s acc k v :
  s !! k = Some v →
  (0 < v → c !! k = None → k ∉ inheritedNames) →
  copStep c s acc k = accAdd acc (contribution c (k, v)).
Proof.
  intros Hk Hplain. unfold copStep, contribution, getCentroid.
  rewrite Hk, or0_default. simpl.
  case_decide as Hpos; [|by destruct (c !! k); rewrite accAdd_0_r].
  destruct (c !! k) as [centroid|]; [done|].
  rewrite decide_False by by apply Hplain.
  by rewrite accAdd_0_r.
Qed.

Lemma foldl_copStep s acc (l : list (string * Qc)) :
  plainChannels c s →
  (∀ k v, (k, v) ∈ l → s !! k = Some v) →
  foldl (copStep c s) acc l.*1 = accAdd acc (accSum c l).
Proof.
  intros Hplain. revert acc.
  induction l as [|[k v] l IH]; intros acc Hl; simpl.
  - by rewrite accAdd_0_r.
  - rewrite IH by (intros; apply Hl; by right).
    rewrite (copStep_contribution _ _ _ v);
      [|apply Hl; left|apply Hplain, Hl; left].
    by rewrite accAdd_assoc.
Qed.

(** On plain channels the accumulators are the sums, over the channels of
    the sample, of what the specification names for each. *)
Lemma copAccumulate_accSum s :
  plainChannels c s → copAccumulate c s = accSum c (map_to_list s).
Proof.
  intros Hplain. unfold copAccumulate, Object_keys.
  rewrite foldl_copStep; [apply accAdd_0_l|done|].
  intros k v. apply elem_of_map_to_list.
Qed.

Lemma accSum_perm l1 l2 : l1 ≡ₚ l2 → accSum c l1 = accSum c l2.
Proof.
  intros Hp. unfold accSum.
  apply (foldr_permutation (=)); [apply _| |done].
  intros. apply accAdd_swap.
Qed.

Lemma accSum_insert s k v :
  s !! k = None →
  accSum c (map_to_list (<[k:=v]> s))
  = accAdd (contribution c (k, v)) (accSum c (map_to_list s)).
Proof.
  intros Hk. by rewrite (accSum_perm _ _ (map_to_list_insert s k v Hk)).
Qed.

Lemma accSum_delete s k v :
  s !! k = Some v →
  accSum c (map_to_list s)
  = accAdd (contribution c (k, v)) (accSum c (map_to_list (delete k s))).
Proof.
  intros Hk. rewrite <-accSum_insert by apply lookup_delete_eq.
  by rewrite insert_delete_id.
Qed.

Lemma contribution_nonneg ch : 0 ≤ totalForce (contribution c ch).
Proof.
  unfold contribution. destruct (c !! ch.1); simpl; [|done].
  case_decide; simpl; [by apply Qclt_le_weak|done].
Qed.

Lemma contribution_inactive k v :
  v ≤ 0 ∨ c !! k = None →
  contribution c (k, v) = mkCoPAcc (Coord 0) (Coord 0) 0.
Proof.
  unfold contribution. simpl. intros [Hv| ->]; [|done].
  destruct (c !! k); [|done]. case_decide as Hpos; [|done].
  by apply Qclt_not_le in Hpos.
Qed.

Lemma accSum_force_nonneg s : 0 ≤ totalForce (accSum c (map_to_list s)).
Proof.
  induction s as [|k v s Hk IH] using map_ind.
  - by rewrite map_to_list_empty.
  - rewrite accSum_insert by done. simpl.
    apply Qcplus_nonneg_nonneg; [apply contribution_nonneg|done].
Qed.

(** The summed force is zero exactly when no channel is active. *)
Lemma accSum_force_zero_iff s :
  totalForce (accSum c (map_to_list s)) = 0
  ↔ ∀ k v, s !! k = Some v → 0 < v → c !! k = None.
Proof.
  induction s as [|k v s Hk IH] using map_ind.
  - rewrite map_to_list_empty. split; [|done].
    intros _ k v. by rewrite lookup_empty.
  - rewrite accSum_insert by done. simpl. split.
    + intros [Hc Hs]%Qc_sum_zero;
        [|apply contribution_nonneg|apply accSum_force_nonneg].
      intros k' v' [[-> ->]|[? Hk']]%lookup_insert_Some Hpos.
      * unfold contribution in Hc. simpl in Hc.
        destruct (c !! k'); [|done]. rewrite decide_True in Hc by done.
        simpl in Hc. subst. by apply Qclt_not_eq in Hpos.
      * by apply (proj1 IH Hs k' v').
    + intros Hall.
      assert (totalForce (accSum c (map_to_list s)) = 0) as ->.
      { apply IH. intros k' v' Hk' Hpos. apply (Hall k' v'); [|done].
        rewrite lookup_insert_ne; [done|]. intros ->. congruence. }
      rewrite Qcplus_0_r. unfold contribution. simpl.
      destruct (c !! k) eqn:Hck; [|done].
      case_decide as Hpos; [|done].
      specialize (Hall k v (lookup_insert_eq _ _ _) Hpos). congruence.
Qed.

(** Whatever a channel finds, a round of the loop never lowers the force. *)
Lemma copStep_force s acc k : totalForce acc ≤ totalForce (copStep c s acc k).
Proof.
  unfold copStep. cbv zeta. case_decide as Hpos; [|apply Qcle_refl].
  destruct (getCentroid c k); simpl; [| |apply Qcle_refl].
  - rewrite <-(Qcplus_0_r (totalForce acc)) at 1.
    apply Qcplus_le_compat; [apply Qcle_refl|by apply Qclt_le_weak].
  - rewrite <-(Qcplus_0_r (totalForce acc)) at 1.
    apply Qcplus_le_compat; [apply Qcle_refl|by apply Qclt_le_weak].
Qed.

Lemma totalForce_nonneg s : 0 ≤ totalForce (copAccumulate c s).
Proof.
  unfold copAccumulate.
  enough (∀ l acc, 0 ≤ totalForce acc →
                   0 ≤ totalForce (foldl (copStep c s) acc l)) as H
    by by apply H.
  induction l as [|k l IH]; intros acc Hacc; [done|].
  simpl. apply IH. trans (totalForce acc); [done|apply copStep_force].
Qed.

Lemma calculateCoP_None s :
  calculateCoP c s = None ↔ totalForce (copAccumulate c s) = 0.
Proof. unfold calculateCoP. by case_decide. Qed.

End cop_facts.

(** On plain channels [calculateCoP] is what the specification describes:
    it returns none exactly when the accumulated total force is zero, which
    is exactly when no channel has both a positive magnitude and a centroid
    (so in particular when every magnitude is zero, and when every channel
    of positive magnitude lacks a centroid); otherwise it returns the
    accumulated weighted coordinates divided by the total force, and the
    total force. *)
Lemma calculateCoP_plain c s :
  plainChannels c s →
  copAccumulate c s = accSum c (map_to_list s)
  ∧ (calculateCoP c s = None ↔ totalForce (copAccumulate c s) = 0)
  ∧ (totalForce (copAccumulate c s) = 0
     ↔ ∀ k v, s !! k = Some v → 0 < v → c !! k = None)
  ∧ ((∀ k v, s !! k = Some v → v = 0) → calculateCoP c s = None)
  ∧ ((∀ k v, s !! k = Some v → 0 < v → c !! k = None)
     → calculateCoP c s = None)
  ∧ (totalForce (copAccumulate c s) ≠ 0 →
     calculateCoP c s
     = Some {| cop_x := coord_div (totalWeightedX (copAccumulate c s))
                                  (totalForce (copAccumulate c s));
               cop_y := coord_div (totalWeightedY (copAccumulate c s))
                                  (totalForce (copAccumulate c s));
               force := totalForce (copAccumulate c s) |}).
Proof.
  intros Hplain.
  pose proof (copAccumulate_accSum c s Hplain) as Hsum.
  split; [done|].
  split; [apply calculateCoP_None|].
  split; [rewrite Hsum; apply accSum_force_zero_iff|].
  split; [|split].
  - intros Hzero. apply calculateCoP_None. rewrite Hsum.
    apply accSum_force_zero_iff.
    intros k v Hk Hpos. rewrite (Hzero k v Hk) in Hpos.
    by apply Qclt_not_eq in Hpos.
  - intros Hnone. apply calculateCoP_None. rewrite Hsum.
    by apply accSum_force_zero_iff.
  - intros Hne. unfold calculateCoP. by rewrite decide_False.
Qed.

(** Centroids (0,0) and (10,0) with magnitudes 10 and 30 give x = 15/2,
    y = 0, force 40. *)
Example calculateCoP_two_channels :
  plainChannels two_centroids two_channels
  ∧ calculateCoP two_centroids two_channels
    = Some {| cop_x := Coord (Q2Qc (15 # 2)); cop_y := Coord 0;
              force := num 40 |}.
Proof. split; by_evaluation. Qed.

(** A result of [calculateCoP] has a strictly positive force, which is the
    divisor of both coordinates, whatever the channels are called; on plain
    channels, a channel whose magnitude is zero or negative, or which has no
    centroid, adds nothing to any accumulator. *)
Lemma calculateCoP_force c s r :
  calculateCoP c s = Some r →
  0 < force r
  ∧ force r = totalForce (copAccumulate c s)
  ∧ cop_x r = coord_div (totalWeightedX (copAccumulate c s)) (force r)
  ∧ cop_y r = coord_div (totalWeightedY (copAccumulate c s)) (force r)
  ∧ (plainChannels c s →
     ∀ k v, s !! k = Some v → v ≤ 0 ∨ c !! k = None →
       copAccumulate c s = accSum c (map_to_list (delete k s))).
Proof.
  unfold calculateCoP. case_decide as Hne; [done|]. intros [= <-]. simpl.
  split.
  { destruct (Qcle_lt_or_eq _ _ (totalForce_nonneg c s)) as [?|Heq];
      [done|by symmetry in Heq]. }
  split; [done|]. split; [done|]. split; [done|].
  intros Hplain k v Hk Hinactive.
  rewrite (copAccumulate_accSum c s Hplain).
  rewrite (accSum_delete c s k v Hk).
  rewrite (contribution_inactive c k v Hinactive).
  apply accAdd_0_l.
Qed.

(** C3, at a sample the code can receive: the one channel, of magnitude 5,
    is called [toString] and the centroids object is empty, so that every
    channel of positive magnitude lacks a centroid entry; the lookup finds
    the inherited [toString], the channel is taken for one with a centroid,
    and the result is not none: force 5 at coordinates [NaN]. *)
Theorem calculateCoP_counts_inherited_channel :
  (∀ k v, inherited_channel !! k = Some v → 0 < v →
          (∅ : gmap string Centroid) !! k = None)
  ∧ getCentroid ∅ "toString" = Inherited
  ∧ calculateCoP ∅ inherited_channel
    = Some {| cop_x := NaN; cop_y := NaN; force := num 5 |}
  ∧ calculateCoP ∅ inherited_channel ≠ None.
Proof.
  split; [intros k v _ _; apply lookup_empty|].
  split; [done|].
  assert (calculateCoP ∅ inherited_channel
          = Some {| cop_x := NaN; cop_y := NaN; force := num 5 |}) as H
    by by_evaluation.
  split; [done|]. by rewrite H.
Qed.

(** C10, at a sample the code can receive: beside S1 (magnitude 10, with
    a centroid) the sample has a channel called [constructor] (magnitude 5),
    for which the centroids object has no entry. The channel is not left
    out: it raises the total force from 10 to 15 and turns both weighted
    sums, and so both coordinates, into [NaN]. The force of the result is
    still positive. *)
Theorem inherited_channel_contributes :
  with_constructor !! "constructor" = Some (num 5)
  ∧ one_centroid !! "constructor" = None
  ∧ totalForce (copAccumulate one_centroid
                              (delete "constructor" with_constructor))
    = num 10
  ∧ totalForce (copAccumulate one_centroid with_constructor) = num 15
  ∧ totalWeightedX (copAccumulate one_centroid with_constructor) = NaN
  ∧ totalWeightedY (copAccumulate one_centroid with_constructor) = NaN
  ∧ calculateCoP one_centroid with_constructor
    = Some {| cop_x := NaN; cop_y := NaN; force := num 15 |}
  ∧ calculateCoP one_centroid (delete "constructor" with_constructor)
    = Some {| cop_x := Coord 0; cop_y := Coord 0; force := num 10 |}
  ∧ 0 < num 15.
Proof. repeat split; by_evaluation. Qed.

(** ** Closest sample *)

Lemma find_Some {A} (P : A → Prop) `{!∀ a, Decision (P a)} (l : list A) a :
  find P l = Some a
  ↔ ∃ i, l !! i = Some a ∧ P a
         ∧ ∀ j b, l !! j = Some b → (j < i)%nat → ¬ P b.
Proof.
  unfold find. split.
  - destruct (list_find P l) as [[i b]|] eqn:Hfind; [|done].
    simpl. intros [= <-]. exists i. by apply list_find_Some in Hfind.
  - intros (i & Hfind). apply (proj2 (list_find_Some P l i a)) in Hfind.
    by rewrite Hfind.
Qed.

Lemma find_None {A} (P : A → Prop) `{!∀ a, Decision (P a)} (l : list A) :
  find P l = None ↔ Forall (λ a, ¬ P a) l.
Proof.
  unfold find. destruct (list_find P l) as [p|] eqn:Hfind; simpl.
  - split; [done|]. intros Hall. apply (list_find_None P l) in Hall.
    congruence.
  - split; [|done]. intros _. by apply (list_find_None P l).
Qed.

Lemma sorted_lookup_le (l : list CoPPoint) i j a b :
  sortedByTime l → l !! i = Some a → l !! j = Some b → (i ≤ j)%nat →
  t_ms a ≤ t_ms b.
Proof.
  intros Hsorted. revert i j.
  induction Hsorted as [|c l Hl IH Hc]; intros i j Hi Hj Hij; [done|].
  destruct i as [|i], j as [|j]; simpl in *.
  - by simplify_eq.
  - simplify_eq. apply (proj1 (Forall_forall _ _) Hc).
    by eapply list_elem_of_lookup_2.
  - lia.
  - apply (IH i j); [done|done|lia].
Qed.

(** C4: [findClosestPoint] gives none for an empty series, none when the
    time is more than 50 before the first sample or more than 50 after the
    last, and otherwise the first sample of the series, in its order, whose
    time differs from the target by strictly less than 25, or none when no
    sample does; on a series sorted by time this is the earliest such
    sample. For the times 0, 100, 200 it gives none at 300 and the sample of
    time 200 at 210. *)
Theorem findClosestPoint_spec data time :
  findClosestPoint [] time = None
  ∧ (∀ first, head data = Some first → time < t_ms first - num 50 →
       findClosestPoint data time = None)
  ∧ (∀ final, last data = Some final → t_ms final + num 50 < time →
       findClosestPoint data time = None)
  ∧ (∀ first final,
       head data = Some first → last data = Some final →
       t_ms first - num 50 ≤ time → time ≤ t_ms final + num 50 →
       (∀ p, findClosestPoint data time = Some p
             ↔ ∃ i, data !! i = Some p ∧ within25 time p
                    ∧ ∀ j q, data !! j = Some q → (j < i)%nat
                             → ¬ within25 time q)
       ∧ (findClosestPoint data time = None
          ↔ Forall (λ q, ¬ within25 time q) data))
  ∧ (sortedByTime data →
     ∀ p q, findClosestPoint data time = Some p →
            q ∈ data → within25 time q → t_ms p ≤ t_ms q)
  ∧ findClosestPoint series_0_100_200 (num 300) = None
  ∧ findClosestPoint series_0_100_200 (num 210) = Some (sample 200).
Proof.
  split; [done|]. split; [|split; [|split; [|split]]].
  - intros first Hhead Hlt. unfold findClosestPoint. rewrite Hhead.
    destruct (last data); [|done]. by rewrite decide_True.
  - intros final Hlast Hlt. unfold findClosestPoint. rewrite Hlast.
    destruct (head data); [|done]. case_decide; [done|].
    by rewrite decide_True.
  - intros first final Hhead Hlast Hlo Hhi.
    assert (findClosestPoint data time = find (within25 time) data) as ->.
    { unfold findClosestPoint. rewrite Hhead, Hlast.
      rewrite decide_False by by apply Qcle_not_lt.
      by rewrite decide_False by by apply Qcle_not_lt. }
    split; [intros p; apply find_Some|apply find_None].
  - intros Hsorted p q Hfound Hq Hnear.
    assert (find (within25 time) data = Some p) as Hfind.
    { unfold findClosestPoint in Hfound.
      destruct (head data), (last data); try done.
      by repeat case_decide. }
    apply find_Some in Hfind as (i & Hi & _ & Hfirst).
    apply list_elem_of_lookup in Hq as (j & Hj).
    destruct (decide (j < i)%nat) as [Hlt|Hge].
    + by destruct (Hfirst j q Hj Hlt).
    + apply (sorted_lookup_le data i j); [done|done|done|lia].
  - split; by_evaluation.
Qed.

(** ** Regional sums *)

Lemma foldl_plus_foldr {A} (f : A → Qc) (l : list A) (a : Qc) :
  foldl (λ acc b, acc + f b) a l = a + foldr (λ b acc, f b + acc) 0 l.
Proof.
  revert a. induction l as [|b l IH]; intros a; simpl.
  - by rewrite Qcplus_0_r.
  - rewrite IH. ring.
Qed.

Lemma regionSum_channelSum point regionSensors :
  regionSum point regionSensors = channelSum (sensors point) regionSensors.
Proof.
  unfold regionSum, channelSum.
  rewrite (foldl_plus_foldr (λ sensor, or0 (sensors point !! sensor))).
  rewrite Qcplus_0_l. induction regionSensors as [|s l IH]; simpl; [done|].
  by rewrite IH, or0_default.
Qed.

Lemma channelSum_insert_other sensors regionSensors extra v :
  extra ∉ regionSensors →
  channelSum (<[extra := v]> sensors) regionSensors
  = channelSum sensors regionSensors.
Proof.
  induction regionSensors as [|s l IH]; simpl; [done|].
  intros [Hne Hl]%not_elem_of_cons.
  by rewrite IH, lookup_insert_ne.
Qed.

Lemma channel_regionOf_2 point a b :
  channel point a + channel point b = regionOf point [a; b].
Proof.
  unfold channel. rewrite !or0_default.
  destruct point as [p|]; simpl; ring.
Qed.

Lemma channel_regionOf_3 point a b d :
  channel point a + channel point b + channel point d
  = regionOf point [a; b; d].
Proof.
  unfold channel. rewrite !or0_default.
  destruct point as [p|]; simpl; ring.
Qed.

Lemma channel_regionOf_1 point a : channel point a = regionOf point [a].
Proof.
  unfold channel. rewrite !or0_default.
  destruct point as [p|]; simpl; ring.
Qed.

Lemma pointAt_withChannel extra v data t :
  pointAt (withChannel extra v <$> data) t
  = withChannel extra v <$> pointAt data t.
Proof.
  unfold pointAt, find. rewrite list_find_fmap.
  destruct (list_find _ data) as [[i p]|]; done.
Qed.

Lemma regionOf_withChannel extra v point regionSensors :
  extra ∉ regionSensors →
  regionOf (withChannel extra v <$> point) regionSensors
  = regionOf point regionSensors.
Proof.
  intros Hne. destruct point as [p|]; simpl; [|done].
  by apply channelSum_insert_other.
Qed.

Lemma regionalDatasets_regions l r :
  regionalDatasets l r
  = {| ForeFoot := regionRows l r ["S1"; "S2"];
       UpperMid := regionRows l r ["S3"; "S4"; "S5"];
       LowerMid := regionRows l r ["S6"];
       Heel := regionRows l r ["S7"; "S8"] |}.
Proof.
  unfold regionalDatasets, regionRows.
  f_equal; apply list_fmap_ext; intros _ t _; simpl;
    by rewrite <-?channel_regionOf_1, <-?channel_regionOf_2,
               <-?channel_regionOf_3.
Qed.

Lemma sortedTimes_withChannel extra v l r :
  sortedTimes (withChannel extra v <$> l) r = sortedTimes l r
  ∧ sortedTimes l (withChannel extra v <$> r) = sortedTimes l r.
Proof. unfold sortedTimes. by rewrite <-!list_fmap_compose. Qed.

Lemma regionRows_withChannel extra v l r regionSensors :
  extra ∉ regionSensors →
  regionRows (withChannel extra v <$> l) r regionSensors
  = regionRows l r regionSensors
  ∧ regionRows l (withChannel extra v <$> r) regionSensors
    = regionRows l r regionSensors.
Proof.
  intros Hne. unfold regionRows.
  destruct (sortedTimes_withChannel extra v l r) as [-> ->].
  split; apply list_fmap_ext; intros _ t _;
    by rewrite pointAt_withChannel, regionOf_withChannel.
Qed.

(** C8: the value of a region for a sample is the sum of the magnitudes of
    the channels the region is configured with, a channel the sample lacks
    counting for zero; this holds for the sums of the heat map (driven by
    [SENSOR_REGIONS]) and for the rows of the regional charts (which name
    the same channels); and giving a sample one more channel that is not
    among the region's leaves the region's value, and the charts, as they
    were. *)
Theorem region_sum_exact point :
  (∀ regionSensors,
     regionSum point regionSensors
     = channelSum (sensors point) regionSensors)
  ∧ (∀ regionSensors extra v,
       extra ∉ regionSensors →
       regionSum (withChannel extra v point) regionSensors
       = regionSum point regionSensors)
  ∧ (∀ region regionSensors,
       (region, regionSensors) ∈ SENSOR_REGIONS →
       regionValues point !! region = Some (regionSum point regionSensors))
  ∧ (∀ l r,
       regionalDatasets l r
       = {| ForeFoot := regionRows l r ["S1"; "S2"];
            UpperMid := regionRows l r ["S3"; "S4"; "S5"];
            LowerMid := regionRows l r ["S6"];
            Heel := regionRows l r ["S7"; "S8"] |}
       ∧ SENSOR_REGIONS
         = [ ("ForeFoot", ["S1"; "S2"]); ("UpperMid", ["S3"; "S4"; "S5"]);
             ("LowerMid", ["S6"]); ("Heel", ["S7"; "S8"]) ])
  ∧ (∀ l r extra v,
       extra ∉ configuredChannels →
       regionalDatasets (withChannel extra v <$> l) r = regionalDatasets l r
       ∧ regionalDatasets l (withChannel extra v <$> r)
         = regionalDatasets l r).
Proof.
  split; [apply regionSum_channelSum|]. split; [|split; [|split]].
  - intros regionSensors extra v Hne. rewrite !regionSum_channelSum. simpl.
    by apply channelSum_insert_other.
  - intros region regionSensors Hin. unfold regionValues, SENSOR_REGIONS in *.
    simpl. repeat (apply elem_of_cons in Hin as [[= -> ->]|Hin]);
      [by simplify_map_eq..|by apply elem_of_nil in Hin].
  - intros l r. split; [apply regionalDatasets_regions|done].
  - intros l r extra v Hne. rewrite !regionalDatasets_regions.
    unfold configuredChannels in Hne. simpl in Hne.
    rewrite !not_elem_of_cons in Hne.
    destruct Hne as (H1 & H2 & H3 & H4 & H5 & H6 & H7 & H8 & _).
    split; f_equal; apply regionRows_withChannel;
      rewrite !not_elem_of_cons; repeat split; try done;
      apply not_elem_of_nil.
Qed.

(** ** The playback clock *)

(** The text of a whole number reads back as that number. *)
Lemma parseInt_whole (n : Z) : parseInt (num n) = num n.
Proof.
  unfold parseInt, num, Qc_of_Z. simpl. by rewrite Z.quot_1_r.
Qed.

Lemma settled_initial : settled initialPlayback.
Proof. done. Qed.

(** Every input, with the render that follows it, keeps a stopped clock
    free of pending frames. *)
Lemma settled_step maxT s ev : settled s → settled (step maxT s ev).
Proof.
  unfold settled, step, animationEffect. destruct ev as [now i].
  destruct s as [ct playing speed pending lastT].
  destruct i as [| |value|speed'|timestamp], playing, pending; simpl;
    intros Hs; repeat (destruct (decide _); simpl);
    first [done | intros _; by apply Hs | by intuition].
Qed.

Lemma settled_run maxT evs s : settled s → settled (run maxT s evs).
Proof.
  revert s. induction evs as [|ev evs IH]; intros s Hs; [done|].
  simpl. apply IH. by apply settled_step.
Qed.

(** After a move of the range input the clock is stopped, nothing is
    pending and the cursor is the integer read from the control. *)
Lemma step_RangeChange maxT s now value :
  settled s →
  isPlaying (step maxT s (now, RangeChange value)) = false
  ∧ framePending (step maxT s (now, RangeChange value)) = false
  ∧ currentTime (step maxT s (now, RangeChange value)) = parseInt value.
Proof.
  intros Hs.
  pose proof (settled_step maxT s (now, RangeChange value) Hs) as Hs'.
  assert (isPlaying (step maxT s (now, RangeChange value)) = false
          ∧ currentTime (step maxT s (now, RangeChange value))
            = parseInt value) as [Hp Hc].
  { unfold step, animationEffect. simpl. case_decide; [done|].
    destruct s as [ct playing speed pending lastT]. simpl in *. done. }
  auto.
Qed.

(** A stopped clock without a pending frame ignores animation frames and
    speed buttons. *)
Lemma idle_step maxT s ev :
  idle ev.2 → isPlaying s = false → framePending s = false →
  isPlaying (step maxT s ev) = false
  ∧ framePending (step maxT s ev) = false
  ∧ currentTime (step maxT s ev) = currentTime s.
Proof.
  destruct ev as [now i]. simpl. intros Hidle Hp Hf.
  destruct s as [ct playing speed pending lastT]. simpl in *. subst.
  unfold step, animationEffect.
  destruct i as [| |value|speed'|timestamp]; try done; simpl.
  - by case_decide.
  - by rewrite decide_True.
Qed.

Lemma idle_run maxT evs s :
  Forall (λ ev, idle ev.2) evs →
  isPlaying s = false → framePending s = false →
  isPlaying (run maxT s evs) = false
  ∧ currentTime (run maxT s evs) = currentTime s.
Proof.
  intros Hall. revert s.
  induction Hall as [|ev evs Hev _ IH]; intros s Hp Hf; [done|].
  destruct (idle_step maxT s ev Hev Hp Hf) as (Hp' & Hf' & Hc').
  simpl. destruct (IH _ Hp' Hf') as [? ->]. done.
Qed.

(** C9: a move of the range input to a value the control delivers, after
    any history of inputs and so also while playing, leaves the clock
    stopped, with no animation frame outstanding and the cursor at that
    value clamped to [0, maxTime]; whatever animation frames and speed
    buttons follow, at whatever times, the clock stays stopped and the
    cursor where the scrub put it, until play is pressed. *)
Theorem scrub_stops_playback maxT history now value later :
  delivered maxT value →
  Forall (λ ev, idle ev.2) later →
  isPlaying (run maxT initialPlayback (history ++ [(now, RangeChange value)]))
    = false
  ∧ framePending
      (run maxT initialPlayback (history ++ [(now, RangeChange value)]))
    = false
  ∧ currentTime
      (run maxT initialPlayback (history ++ [(now, RangeChange value)]))
    = clamp value 0 maxT
  ∧ isPlaying
      (run maxT initialPlayback
           (history ++ [(now, RangeChange value)] ++ later))
    = false
  ∧ currentTime
      (run maxT initialPlayback
           (history ++ [(now, RangeChange value)] ++ later))
    = clamp value 0 maxT.
Proof.
  intros ((n & Hstep) & Hlo & Hhi) Hidle.
  assert (parseInt value = clamp value 0 maxT) as Hclamp.
  { unfold clamp.
    rewrite decide_False by by apply Qcle_not_lt.
    rewrite decide_False by by apply Qcle_not_lt.
    rewrite Hstep. apply parseInt_whole. }
  unfold run. rewrite app_assoc, !foldl_app. simpl.
  fold (run maxT initialPlayback history).
  pose proof (settled_run maxT history _ settled_initial) as Hs.
  destruct (step_RangeChange maxT _ now value Hs) as (Hp & Hf & Hc).
  rewrite <-Hclamp.
  split; [done|]. split; [done|]. split; [done|].
  fold (run maxT (step maxT (run maxT initialPlayback history)
                       (now, RangeChange value)) later).
  destruct (idle_run maxT later _ Hidle Hp Hf) as [-> ->]. done.
Qed.

Lemma scrub_stops_playback_witness :
  delivered (num 2000) (num 500)
  ∧ Forall (λ ev, idle ev.2) frames_after
  ∧ isPlaying (run (num 2000) initialPlayback
                   (playing_then_scrub ++ frames_after)) = false
  ∧ currentTime (run (num 2000) initialPlayback
                     (playing_then_scrub ++ frames_after))
    = clamp (num 500) 0 (num 2000).
Proof.
  assert (delivered (num 2000) (num 500)) as Hd.
  { split; [by exists 50%Z|]. split; by_evaluation. }
  assert (Forall (λ ev, idle ev.2) frames_after) as H
    by (repeat constructor).
  split; [exact Hd|]. split; [exact H|].
  exact (proj2 (proj2 (proj2
    (scrub_stops_playback (num 2000)
       [(num 0, PlayPauseClick); (num 16, AnimationFrame (num 16))]
       (num 20) (num 500) frames_after Hd H)))).
Defined.

(** * Further properties *)

Import HeatmapView Vocabulary Cases.

(** ** Rational arithmetic: linear facts over [Qc], decided over [Q] *)

Lemma Qc_eq_Qeq (p q : Qc) : p = q ↔ (this p == this q)%Q.
Proof. split; [by intros ->|apply Qc_is_canon]. Qed.

Ltac qc_to_q :=
  unfold num, SessionAggregator.count, Qc_of_Z, Qcminus, Qcdiv in *;
  repeat match goal with
  | H : @eq Qc _ _ |- _ => apply Qc_eq_Qeq in H
  | H : ¬ @eq Qc _ _ |- _ => rewrite Qc_eq_Qeq in H
  | H : Qcle _ _ |- _ => unfold Qcle in H
  | H : Qclt _ _ |- _ => unfold Qclt in H
  | H : ¬ Qcle _ _ |- _ => apply Qcnot_le_lt in H
  | H : ¬ Qclt _ _ |- _ => apply Qcnot_lt_le in H
  end;
  try apply Qc_is_canon; unfold Qcle, Qclt;
  cbn [this Qcplus Qcmult Qcopp Q2Qc] in *;
  repeat match goal with
  | H : context [Qred ?x] |- _ => setoid_rewrite (Qred_correct x) in H
  | |- context [Qred ?x] => setoid_rewrite (Qred_correct x)
  end;
  unfold inject_Z in *.

Ltac qc_lra := qc_to_q; lra.

(** ** The range of the slider *)

Lemma sorted_last_max (l : list CoPPoint) final p :
  sortedByTime l → last l = Some final → p ∈ l → t_ms p ≤ t_ms final.
Proof.
  intros Hsorted Hlast Hp. rewrite last_lookup in Hlast.
  apply list_elem_of_lookup in Hp as (i & Hi).
  apply (sorted_lookup_le l i (pred (length l))); [done..|].
  apply lookup_lt_Some in Hi. lia.
Qed.

Lemma maxTime_pos l r : 0 < maxTime l r.
Proof.
  unfold maxTime. cbv zeta. case_decide as Hpos; [done|by_evaluation].
Qed.

(** X1: the length of the slider is positive, whatever the series; and when
    both series are in time order (as the timeline delivers them) no sample
    lies beyond it. *)
Theorem maxTime_covers_series l r :
  0 < maxTime l r
  ∧ (sortedByTime l → sortedByTime r →
     ∀ p, p ∈ l ++ r → t_ms p ≤ maxTime l r).
Proof.
  split; [apply maxTime_pos|].
  intros Hl Hr. unfold maxTime.
  destruct (last l) as [a|] eqn:Ha, (last r) as [b|] eqn:Hb;
    cbv zeta; repeat case_decide.
  all: intros p [Hp|Hp]%elem_of_app.
  all: try (apply last_None in Ha; subst; by apply elem_of_nil in Hp).
  all: try (apply last_None in Hb; subst; by apply elem_of_nil in Hp).
  all: try (pose proof (sorted_last_max l a p Hl Ha Hp)).
  all: try (pose proof (sorted_last_max r b p Hr Hb Hp)).
  all: clear Hl Hr Ha Hb; qc_lra.
Qed.

(** ** Normalisation and colours of the heat map *)

Lemma Qc_div_mult (v m : Qc) : m ≠ 0 → v / m * m = v.
Proof. intros. by rewrite Qcmult_comm, Qcmult_div_r. Qed.

Lemma Qc_div_lt (v m c : Qc) : 0 < m → v / m < c ↔ v < c * m.
Proof.
  intros Hm. assert (m ≠ 0) as Hne by (intros ->; by apply Qclt_not_eq in Hm).
  split.
  - intros Hlt. rewrite <-(Qc_div_mult v m Hne) at 1.
    by apply Qcmult_lt_compat_r.
  - intros Hlt. apply Qcnot_le_lt. intros Hle.
    apply (Qcmult_le_compat_r _ _ m) in Hle; [|by apply Qclt_le_weak].
    rewrite Qc_div_mult in Hle by done. by apply Qcle_not_lt in Hle.
Qed.

Lemma Qc_div_le (v m c : Qc) : 0 < m → v / m ≤ c ↔ v ≤ c * m.
Proof.
  intros Hm. assert (m ≠ 0) as Hne by (intros ->; by apply Qclt_not_eq in Hm).
  split.
  - intros Hle. rewrite <-(Qc_div_mult v m Hne) at 1.
    apply Qcmult_le_compat_r; [done|by apply Qclt_le_weak].
  - intros Hle. apply Qcnot_lt_le. intros Hlt.
    apply (Qcmult_lt_compat_r _ _ m) in Hlt; [|done].
    rewrite Qc_div_mult in Hlt by done. by apply Qclt_not_le in Hlt.
Qed.

Lemma Qc_le_div (v m c : Qc) : 0 < m → c ≤ v / m ↔ c * m ≤ v.
Proof.
  intros Hm. split; intros Hle.
  - rewrite <-(Qc_div_mult v m).
    + by apply Qcmult_le_compat_r; [|apply Qclt_le_weak].
    + intros ->. by apply Qclt_not_eq in Hm.
  - apply Qcnot_lt_le. intros Hlt. apply Qc_div_lt in Hlt; [|done].
    by apply Qclt_not_le in Hlt.
Qed.

Lemma Qc_div_nonneg (v m : Qc) : 0 < m → 0 ≤ v → 0 ≤ v / m.
Proof.
  intros Hm Hv. apply Qcnot_lt_le. intros Hlt.
  apply Qc_div_lt in Hlt; [|done]. rewrite Qcmult_0_l in Hlt.
  by apply Qclt_not_le in Hlt.
Qed.

Lemma bumpMax_other p maxes entry region :
  entry.1 ≠ region → bumpMax p maxes entry !! region = maxes !! region.
Proof.
  intros Hne. unfold bumpMax. destruct (maxes !! entry.1); [|done].
  case_decide; [|done]. by rewrite lookup_insert_ne.
Qed.

Lemma foldl_bumpMax_other p entries maxes region :
  region ∉ entries.*1 →
  foldl (bumpMax p) maxes entries !! region = maxes !! region.
Proof.
  revert maxes. induction entries as [|e es IH]; intros maxes Hnot; [done|].
  apply not_elem_of_cons in Hnot as [Hne Hnot]. simpl.
  rewrite IH by done. by apply bumpMax_other.
Qed.

Lemma foldl_bumpMax_hit p entries maxes region ss m :
  NoDup entries.*1 → (region, ss) ∈ entries → maxes !! region = Some m →
  foldl (bumpMax p) maxes entries !! region
  = Some (Math_max2 m (regionSum p ss)).
Proof.
  revert maxes. induction entries as [|e es IH]; intros maxes Hnd Hin Hm.
  { by apply elem_of_nil in Hin. }
  apply NoDup_cons in Hnd as [Hfresh Hnd].
  apply elem_of_cons in Hin as [Heq|Hin]; simpl.
  - subst e. simpl in *. rewrite foldl_bumpMax_other by done.
    unfold bumpMax, Math_max2. simpl. rewrite Hm.
    destruct (decide (m < regionSum p ss)) as [Hlt|Hnlt],
      (decide (m ≤ regionSum p ss)) as [Hle|Hnle];
      rewrite ?lookup_insert_eq, ?Hm; try done.
    + by apply Qclt_le_weak in Hlt.
    + f_equal. apply (anti_symm Qcle); [done|by apply Qcnot_lt_le].
  - apply IH; [done..|]. rewrite bumpMax_other; [done|].
    intros Heq. apply Hfresh. rewrite Heq.
    by apply (list_elem_of_fmap_2 fst _ (region, ss)).
Qed.

Lemma SENSOR_REGIONS_NoDup : NoDup SENSOR_REGIONS.*1.
Proof. apply (bool_decide_unpack _). vm_compute. exact I. Qed.

Lemma initialMaxes_lookup region ss :
  (region, ss) ∈ SENSOR_REGIONS → initialMaxes !! region = Some 0.
Proof.
  unfold SENSOR_REGIONS. intros Hin.
  repeat (apply elem_of_cons in Hin as [[= -> ->]|Hin]; [done|]).
  by apply elem_of_nil in Hin.
Qed.

Lemma calculateMaxes_snoc data p :
  calculateMaxes (data ++ [p])
  = foldl (bumpMax p) (calculateMaxes data) SENSOR_REGIONS.
Proof. unfold calculateMaxes. by rewrite foldl_app. Qed.

(** What [calculateMaxes] holds for a region: the greatest sum of the
    region over the samples, or 0 when none is positive. *)
Lemma calculateMaxes_lookup data region ss :
  (region, ss) ∈ SENSOR_REGIONS →
  ∃ m, calculateMaxes data !! region = Some m
       ∧ 0 ≤ m
       ∧ (∀ p, p ∈ data → regionSum p ss ≤ m)
       ∧ (m = 0 ∨ ∃ p, p ∈ data ∧ m = regionSum p ss).
Proof.
  intros Hin. induction data as [|p data IH] using rev_ind.
  - exists 0. split; [by apply (initialMaxes_lookup region ss)|].
    split; [done|]. split; [|by left].
    intros p Hp. by apply elem_of_nil in Hp.
  - destruct IH as (m & Hm & Hpos & Hub & Hatt).
    exists (Math_max2 m (regionSum p ss)). rewrite calculateMaxes_snoc.
    split; [by apply foldl_bumpMax_hit; [apply SENSOR_REGIONS_NoDup|..]|].
    unfold Math_max2. case_decide as Hle.
    + split; [by trans m|]. split.
      * intros q [Hq| ->%list_elem_of_singleton]%elem_of_app; [|done].
        trans m; [by apply Hub|done].
      * right. exists p. split; [|done]. apply elem_of_app. right. left.
    + apply Qcnot_le_lt, Qclt_le_weak in Hle. split; [done|]. split.
      * intros q [Hq| ->%list_elem_of_singleton]%elem_of_app; [|done].
        by apply Hub.
      * destruct Hatt as [->|(q & Hq & ->)]; [by left|].
        right. exists q. split; [|done]. apply elem_of_app. by left.
Qed.

Lemma regionMax_configured l r region ss :
  (region, ss) ∈ SENSOR_REGIONS →
  regionMax (regionMaxPressures l r) region
  = Some (Math_max3 (maxOf (calculateMaxes l) region)
                    (maxOf (calculateMaxes r) region) 1).
Proof.
  unfold SENSOR_REGIONS. intros Hin.
  repeat (apply elem_of_cons in Hin as [[= -> ->]|Hin]; [done|]).
  by apply elem_of_nil in Hin.
Qed.

Lemma Math_max3_bounds a b c :
  a ≤ Math_max3 a b c ∧ b ≤ Math_max3 a b c ∧ c ≤ Math_max3 a b c
  ∧ (Math_max3 a b c = a ∨ Math_max3 a b c = b ∨ Math_max3 a b c = c).
Proof.
  unfold Math_max3, Math_max2.
  repeat case_decide; repeat split; auto; qc_lra.
Qed.

(** X2: each configured region has a normalising maximum; it is at least 1, no
    sample of either foot exceeds it, so that every intensity is at most 1,
    and a region that bears nothing is drawn in the neutral colour. *)
Theorem region_max_normalises l r region ss :
  (region, ss) ∈ SENSOR_REGIONS →
  ∃ m, regionMax (regionMaxPressures l r) region = Some m
       ∧ 1 ≤ m
       ∧ ∀ p, p ∈ l ++ r →
           regionSum p ss ≤ m
           ∧ regionSum p ss / m ≤ 1
           ∧ (regionSum p ss ≤ 0 →
              getPressureColor (regionSum p ss) m = NEUTRAL_COLOR).
Proof.
  intros Hin. eexists. split; [by apply (regionMax_configured l r region ss)|].
  destruct (calculateMaxes_lookup l region ss Hin) as (ml & Hml & _ & Hl & _).
  destruct (calculateMaxes_lookup r region ss Hin) as (mr & Hmr & _ & Hr & _).
  unfold maxOf. rewrite Hml, Hmr. simpl.
  destruct (Math_max3_bounds ml mr 1) as (Hl' & Hr' & H1 & _).
  split; [done|]. intros p Hp.
  assert (regionSum p ss ≤ Math_max3 ml mr 1) as Hle.
  { apply elem_of_app in Hp as [Hp|Hp];
      [trans ml; [by apply Hl|done]|trans mr; [by apply Hr|done]]. }
  assert (0 < Math_max3 ml mr 1) as Hpos by qc_lra.
  split; [done|]. split.
  - apply Qc_div_le; [done|]. by rewrite Qcmult_1_l.
  - intros Hzero. unfold getPressureColor. rewrite decide_True; [done|].
    apply Qc_div_lt; [done|]. clear Hle Hl Hr Hml Hmr Hl' Hr'.
    generalize dependent (Math_max3 ml mr 1). intros m ? ?.
    generalize dependent (regionSum p ss). intros v ?. qc_lra.
Qed.

Lemma region_max_normalises_witness :
  ("Heel", ["S7"; "S8"]) ∈ SENSOR_REGIONS
  ∧ ∃ m, regionMax (regionMaxPressures heel_strike toe_off) "Heel" = Some m
         ∧ 1 ≤ m
         ∧ ∀ p, p ∈ heel_strike ++ toe_off →
             regionSum p ["S7"; "S8"] ≤ m
             ∧ regionSum p ["S7"; "S8"] / m ≤ 1
             ∧ (regionSum p ["S7"; "S8"] ≤ 0 →
                getPressureColor (regionSum p ["S7"; "S8"]) m
                = NEUTRAL_COLOR).
Proof.
  assert (("Heel", ["S7"; "S8"]) ∈ SENSOR_REGIONS) as H by by_evaluation.
  split; [exact H|].
  exact (region_max_normalises heel_strike toe_off "Heel" ["S7"; "S8"] H).
Defined.

(** X3: a region glows fully red at its own peak: when the largest sum a region
    reaches over both feet is at least 1, it is the normalising maximum, and
    the sample that reaches it is drawn in the last colour of the scale. *)
Theorem peak_glows_red l r region ss p :
  (region, ss) ∈ SENSOR_REGIONS →
  p ∈ l ++ r →
  (∀ q, q ∈ l ++ r → regionSum q ss ≤ regionSum p ss) →
  1 ≤ regionSum p ss →
  regionMax (regionMaxPressures l r) region = Some (regionSum p ss)
  ∧ getPressureColor (regionSum p ss) (regionSum p ss) = "#F44336".
Proof.
  intros Hin Hp Hpeak Hone. rewrite (regionMax_configured l r region ss Hin).
  destruct (calculateMaxes_lookup l region ss Hin) as (ml & Hml & _ & Hl & Hal).
  destruct (calculateMaxes_lookup r region ss Hin) as (mr & Hmr & _ & Hr & Har).
  unfold maxOf. rewrite Hml, Hmr. simpl.
  destruct (Math_max3_bounds ml mr 1) as (Hl' & Hr' & H1 & Hcases).
  split.
  - f_equal. apply (anti_symm Qcle).
    + destruct Hcases as [->|[->| ->]]; [| |done].
      * destruct Hal as [->|(q & Hq & ->)]; [qc_lra|].
        apply Hpeak, elem_of_app. by left.
      * destruct Har as [->|(q & Hq & ->)]; [qc_lra|].
        apply Hpeak, elem_of_app. by right.
    + apply elem_of_app in Hp as [Hp|Hp];
        [trans ml; [by apply Hl|done]|trans mr; [by apply Hr|done]].
  - unfold getPressureColor.
    assert (regionSum p ss / regionSum p ss = 1) as ->.
    { unfold Qcdiv. apply Qcmult_inv_r. intros Heq. rewrite Heq in Hone.
      qc_lra. }
    apply (bool_decide_unpack _). vm_compute. exact I.
Qed.

Lemma peak_glows_red_witness :
  ("Heel", ["S7"; "S8"]) ∈ SENSOR_REGIONS
  ∧ pressed 0 0 30 ∈ heel_strike ++ toe_off
  ∧ (∀ q, q ∈ heel_strike ++ toe_off →
          regionSum q ["S7"; "S8"] ≤ regionSum (pressed 0 0 30) ["S7"; "S8"])
  ∧ 1 ≤ regionSum (pressed 0 0 30) ["S7"; "S8"]
  ∧ regionMax (regionMaxPressures heel_strike toe_off) "Heel"
    = Some (regionSum (pressed 0 0 30) ["S7"; "S8"])
  ∧ getPressureColor (regionSum (pressed 0 0 30) ["S7"; "S8"])
                     (regionSum (pressed 0 0 30) ["S7"; "S8"])
    = "#F44336".
Proof.
  assert (("Heel", ["S7"; "S8"]) ∈ SENSOR_REGIONS) as H1 by by_evaluation.
  assert (pressed 0 0 30 ∈ heel_strike ++ toe_off) as H2 by by_evaluation.
  assert (∀ q, q ∈ heel_strike ++ toe_off →
               regionSum q ["S7"; "S8"]
               ≤ regionSum (pressed 0 0 30) ["S7"; "S8"]) as H3.
  { apply Forall_forall. by_evaluation. }
  assert (1 ≤ regionSum (pressed 0 0 30) ["S7"; "S8"]) as H4
    by by_evaluation.
  split; [exact H1|]. split; [exact H2|]. split; [exact H3|].
  split; [exact H4|].
  exact (peak_glows_red heel_strike toe_off "Heel" ["S7"; "S8"]
           (pressed 0 0 30) H1 H2 H3 H4).
Defined.

(** ** Looking up a sample at a recorded time *)

Lemma sorted_head_min (l : list CoPPoint) first p :
  sortedByTime l → head l = Some first → p ∈ l → t_ms first ≤ t_ms p.
Proof.
  intros Hsorted Hhead Hp. rewrite head_lookup in Hhead.
  apply list_elem_of_lookup in Hp as (i & Hi).
  apply (sorted_lookup_le l 0 i); [done..|lia].
Qed.

Lemma within25_self p : within25 (t_ms p) p.
Proof.
  unfold within25, Math_abs. replace (t_ms p - t_ms p) with 0 by ring.
  apply (bool_decide_unpack _). vm_compute. exact I.
Qed.

Lemma findClosestPoint_in_window data time first final :
  head data = Some first → last data = Some final →
  t_ms first - num 50 ≤ time → time ≤ t_ms final + num 50 →
  findClosestPoint data time = find (within25 time) data.
Proof.
  intros Hhead Hlast Hlo Hhi. unfold findClosestPoint.
  rewrite Hhead, Hlast.
  rewrite decide_False by by apply Qcle_not_lt.
  by rewrite decide_False by by apply Qcle_not_lt.
Qed.

(** X4: at the time of a recorded sample of a series in time order the lookup
    never fails: it returns a sample of the series less than 25 ms away and
    not later than that time (the first such in the series). *)
Theorem findClosestPoint_at_sample data p :
  sortedByTime data → p ∈ data →
  ∃ q, findClosestPoint data (t_ms p) = Some q
       ∧ q ∈ data ∧ within25 (t_ms p) q ∧ t_ms q ≤ t_ms p.
Proof.
  intros Hsorted Hp.
  destruct data as [|first rest] eqn:Hdata; [by apply elem_of_nil in Hp|].
  rewrite <-Hdata in *.
  assert (head data = Some first) as Hhead by by rewrite Hdata.
  destruct (last data) as [final|] eqn:Hlast;
    [|apply last_None in Hlast; by rewrite Hdata in Hlast].
  pose proof (sorted_head_min data first p Hsorted Hhead Hp) as Hlo.
  pose proof (sorted_last_max data final p Hsorted Hlast Hp) as Hhi.
  rewrite (findClosestPoint_in_window data (t_ms p) first final Hhead Hlast)
    by (clear -Hlo Hhi; qc_lra).
  destruct (find (within25 (t_ms p)) data) as [q|] eqn:Hfound.
  - exists q. split; [done|].
    apply find_Some in Hfound as (i & Hi & Hnear & Hfirst).
    split; [by eapply list_elem_of_lookup_2|]. split; [done|].
    apply list_elem_of_lookup in Hp as (j & Hj).
    destruct (decide (j < i)%nat) as [Hlt|Hge].
    + by destruct (Hfirst j p Hj Hlt (within25_self p)).
    + apply (sorted_lookup_le data i j); [done|done|done|lia].
  - apply find_None in Hfound.
    by destruct (proj1 (Forall_forall _ _) Hfound p Hp (within25_self p)).
Qed.

Lemma findClosestPoint_at_sample_witness :
  sortedByTime series_0_100_200 ∧ sample 100 ∈ series_0_100_200
  ∧ ∃ q, findClosestPoint series_0_100_200 (t_ms (sample 100)) = Some q
         ∧ q ∈ series_0_100_200 ∧ within25 (t_ms (sample 100)) q
         ∧ t_ms q ≤ t_ms (sample 100).
Proof.
  assert (sortedByTime series_0_100_200) as H1
    by (repeat constructor; by_evaluation).
  assert (sample 100 ∈ series_0_100_200) as H2 by by_evaluation.
  split; [exact H1|]. split; [exact H2|].
  exact (findClosestPoint_at_sample series_0_100_200 (sample 100) H1 H2).
Defined.

(** ** The bar of a phase marker *)

Lemma Math_clamp_bounds lo hi v :
  lo ≤ hi →
  lo ≤ Math_max2 lo (Math_min2 hi v) ∧ Math_max2 lo (Math_min2 hi v) ≤ hi.
Proof. unfold Math_max2, Math_min2. intros. repeat case_decide; qc_lra. Qed.

(** X5: the bar of a phase marker never leaves the track: its left edge lies
    between 0 and 100 per cent and its width between 0 and what is left of
    the track, whatever the marker; a marker that starts at or before 0
    starts at the left edge, one that starts at or after [maxTime] is drawn
    at 100 per cent with width 0, and one that ends at or before its start
    has width 0. *)
Theorem markerBar_within_track l r start end_ :
  0 ≤ (markerBar l r start end_).1
  ∧ (markerBar l r start end_).1 ≤ num 100
  ∧ 0 ≤ (markerBar l r start end_).2
  ∧ (markerBar l r start end_).2 ≤ num 100 - (markerBar l r start end_).1
  ∧ (start ≤ 0 → (markerBar l r start end_).1 = 0)
  ∧ (maxTime l r ≤ start → markerBar l r start end_ = (num 100, 0))
  ∧ (end_ ≤ start → (markerBar l r start end_).2 = 0).
Proof.
  unfold markerBar. cbv zeta. simpl.
  pose proof (maxTime_pos l r) as Hm.
  set (maxT := maxTime l r) in *.
  set (leftPct := start / maxT * num 100).
  set (widthPct := (end_ - start) / maxT * num 100).
  destruct (Math_clamp_bounds 0 (num 100) leftPct) as [Hl0 Hl1];
    [by apply (bool_decide_unpack _)|].
  set (safeLeft := Math_max2 0 (Math_min2 (num 100) leftPct)) in *.
  destruct (Math_clamp_bounds 0 (num 100 - safeLeft) widthPct) as [Hw0 Hw1];
    [clear -Hl1; qc_lra|].
  split; [done|]. split; [done|]. split; [done|]. split; [done|].
  assert (start ≤ 0 → leftPct ≤ 0) as Hleft0.
  { intros Hstart.
    assert (start / maxT ≤ 0) as Hq
      by (apply Qc_div_le; [done|by rewrite Qcmult_0_l]).
    unfold leftPct. clear -Hq.
    generalize dependent (start / maxT). intros q Hq. qc_lra. }
  assert (maxT ≤ start → num 100 ≤ leftPct) as Hleft100.
  { intros Hstart.
    assert (1 ≤ start / maxT) as Hq
      by (apply Qc_le_div; [done|by rewrite Qcmult_1_l]).
    unfold leftPct. clear -Hq.
    generalize dependent (start / maxT). intros q Hq. qc_lra. }
  assert (end_ ≤ start → widthPct ≤ 0) as Hwidth0.
  { intros Hend.
    assert ((end_ - start) / maxT ≤ 0) as Hq.
    { apply Qc_div_le; [done|]. rewrite Qcmult_0_l. clear -Hend. qc_lra. }
    unfold widthPct. clear -Hq.
    generalize dependent ((end_ - start) / maxT). intros q Hq. qc_lra. }
  subst safeLeft. clearbody leftPct widthPct. clear Hm Hl0 Hl1 Hw0 Hw1.
  unfold Math_max2, Math_min2.
  split; [|split].
  - intros Hstart. specialize (Hleft0 Hstart). clear -Hleft0.
    repeat case_decide; qc_lra.
  - intros Hstart. specialize (Hleft100 Hstart). clear -Hleft100.
    f_equal; repeat case_decide; qc_lra.
  - intros Hend. specialize (Hwidth0 Hend). clear -Hwidth0.
    repeat case_decide; qc_lra.
Qed.

(** ** Further properties of the playback clock *)

Lemma pending_iff_playing_step maxT s ev :
  framePending s = isPlaying s →
  framePending (step maxT s ev) = isPlaying (step maxT s ev).
Proof.
  unfold step, animationEffect. destruct ev as [now i].
  destruct s as [ct playing speed pending lastT].
  destruct i as [| |value|speed'|timestamp], playing, pending; simpl;
    intros Hs; repeat (destruct (decide _); simpl);
    first [done | by intuition].
Qed.

Lemma pending_iff_playing_run maxT evs s :
  framePending s = isPlaying s →
  framePending (run maxT s evs) = isPlaying (run maxT s evs).
Proof.
  revert s. induction evs as [|ev evs IH]; intros s Hs; [done|].
  simpl. apply IH. by apply pending_iff_playing_step.
Qed.

(** X6: after any course of inputs an animation frame is requested exactly
    when the clock is playing; a frame that arrives at a stopped clock changes
    nothing, and a frame that carries the cursor to the end of the range
    rewinds it to 0, stops the clock and leaves no frame requested. *)
Theorem frame_pending_iff_playing maxT history :
  framePending (run maxT initialPlayback history)
  = isPlaying (run maxT initialPlayback history)
  ∧ (isPlaying (run maxT initialPlayback history) = false →
     ∀ now timestamp,
       step maxT (run maxT initialPlayback history)
            (now, AnimationFrame timestamp)
       = run maxT initialPlayback history)
  ∧ (isPlaying (run maxT initialPlayback history) = true →
     ∀ now timestamp,
       maxT ≤ currentTime (run maxT initialPlayback history)
              + (timestamp - lastTimestamp (run maxT initialPlayback history))
                * playbackSpeed (run maxT initialPlayback history) →
       currentTime (run maxT initialPlayback
                        (history ++ [(now, AnimationFrame timestamp)])) = 0
       ∧ isPlaying (run maxT initialPlayback
                        (history ++ [(now, AnimationFrame timestamp)]))
         = false
       ∧ framePending (run maxT initialPlayback
                           (history ++ [(now, AnimationFrame timestamp)]))
         = false).
Proof.
  pose proof (pending_iff_playing_run maxT history initialPlayback eq_refl)
    as Hinv.
  split; [done|]. unfold run in *. split.
  - intros Hstop now timestamp.
    destruct (foldl (step maxT) initialPlayback history)
      as [ct playing speed pending lastT]. simpl in *. subst.
    unfold step, animationEffect. simpl. by rewrite decide_True.
  - intros Hplay now timestamp Hend. rewrite foldl_app. simpl.
    destruct (foldl (step maxT) initialPlayback history)
      as [ct playing speed pending lastT]. simpl in *. subst.
    unfold step, handle.
    cbn [fst snd framePending currentTime lastTimestamp playbackSpeed].
    destruct (decide (maxT ≤ _)) as [_|Hn]; [|by destruct Hn].
    unfold animationEffect. cbn.
    by rewrite decide_False by (intros [? _]; done).
Qed.

(** X7: the reset button, at any point, rewinds the cursor to 0, stops the
    clock and leaves no frame requested; pressing it again changes
    nothing. *)
Theorem reset_rewinds_and_is_idempotent maxT history now later :
  currentTime (run maxT initialPlayback (history ++ [(now, ResetClick)])) = 0
  ∧ isPlaying (run maxT initialPlayback (history ++ [(now, ResetClick)]))
    = false
  ∧ framePending (run maxT initialPlayback (history ++ [(now, ResetClick)]))
    = false
  ∧ run maxT initialPlayback
        (history ++ [(now, ResetClick); (later, ResetClick)])
    = run maxT initialPlayback (history ++ [(now, ResetClick)]).
Proof.
  pose proof (pending_iff_playing_run maxT history initialPlayback eq_refl)
    as Hinv.
  unfold run in *. rewrite !foldl_app. simpl.
  destruct (foldl (step maxT) initialPlayback history)
    as [ct playing speed pending lastT]. simpl in Hinv. subst pending.
  unfold step, animationEffect. simpl.
  destruct playing; simpl; repeat (destruct (decide _); simpl);
    first [done | by intuition].
Qed.

Lemma Qc_mult_nonneg (p q : Qc) : 0 ≤ p → 0 ≤ q → 0 ≤ p * q.
Proof.
  intros Hp Hq. rewrite <-(Qcmult_0_l q).
  by apply Qcmult_le_compat_r.
Qed.

(** ** Playback: the cursor *)

Lemma onTrack_step maxT previous s now i :
  0 ≤ maxT → onTrack maxT previous s → previous ≤ now →
  match i with
  | AnimationFrame timestamp => timestamp = now
  | RangeChange value => 0 ≤ parseInt value ∧ parseInt value ≤ maxT
  | SpeedClick speed => 0 ≤ speed
  | PlayPauseClick | ResetClick => True
  end →
  onTrack maxT now (step maxT s (now, i)).
Proof.
  intros Hmax (Hlast & Hspeed & Hlo & Hhi) Hnow Hinput.
  assert (lastTimestamp s ≤ now) as Hlast' by by trans previous.
  destruct s as [ct playing speed pending lastT]. simpl in *.
  unfold onTrack, step, animationEffect, handle.
  destruct i as [| |value|speed'|timestamp];
    cbn [fst snd framePending currentTime lastTimestamp playbackSpeed
         isPlaying].
  - destruct playing; simpl; repeat (destruct (decide _); simpl);
      repeat split; done.
  - destruct playing; simpl; repeat (destruct (decide _); simpl);
      repeat split; done.
  - destruct Hinput. destruct playing; simpl;
      repeat (destruct (decide _); simpl); repeat split; done.
  - destruct playing; simpl; repeat (destruct (decide _); simpl);
      repeat split; done.
  - subst timestamp. destruct pending.
    + assert (0 ≤ ct + (now - lastT) * speed) as Hnext.
      { apply Qcplus_nonneg_nonneg; [done|].
        apply Qc_mult_nonneg; [|done]. clear -Hlast'. qc_lra. }
      destruct playing, (decide (maxT ≤ _)) as [Hend|Hnot]; simpl;
        repeat (destruct (decide _); simpl); repeat split;
        try done; try (by apply Qclt_le_weak, Qcnot_le_lt);
        by intuition.
    + simpl. rewrite decide_True by done. repeat split; done.
Qed.

(** X8: under inputs as a browser produces them (times that do not go back,
    frames stamped with their time, slider values within the range, speeds
    that are not negative) the cursor never leaves the range from 0 to
    [maxTime]. *)
Theorem cursor_stays_on_track maxT evs :
  0 ≤ maxT → orderly maxT 0 evs →
  0 ≤ currentTime (run maxT initialPlayback evs)
  ∧ currentTime (run maxT initialPlayback evs) ≤ maxT.
Proof.
  intros Hmax Horderly.
  enough (∀ previous s, onTrack maxT previous s → orderly maxT previous evs →
            ∃ t, onTrack maxT t (run maxT s evs)) as Hrun.
  { destruct (Hrun 0 initialPlayback) as (t & _ & _ & Hlo & Hhi); [|done..].
    repeat split; done. }
  clear Horderly. induction evs as [|[now i] evs IH]; intros previous s Hs Ho.
  - by exists previous.
  - destruct Ho as (Hnow & Hinput & Hrest). simpl.
    apply (IH now); [|done]. by apply (onTrack_step maxT previous).
Qed.

Lemma cursor_stays_on_track_witness :
  0 ≤ num 2000 ∧ orderly (num 2000) 0 (playing_then_scrub ++ frames_after)
  ∧ 0 ≤ currentTime (run (num 2000) initialPlayback
                         (playing_then_scrub ++ frames_after))
  ∧ currentTime (run (num 2000) initialPlayback
                     (playing_then_scrub ++ frames_after)) ≤ num 2000.
Proof.
  assert (0 ≤ num 2000) as H1 by by_evaluation.
  assert (orderly (num 2000) 0 (playing_then_scrub ++ frames_after)) as H2.
  { simpl. repeat split; by_evaluation. }
  split; [exact H1|]. split; [exact H2|].
  exact (cursor_stays_on_track (num 2000)
           (playing_then_scrub ++ frames_after) H1 H2).
Defined.

(** ** The trail of the centre of pressure *)

Lemma trailPush_length data c t trail :
  (length (trailPush data c t trail) ≤ S (length trail))%nat.
Proof.
  unfold trailPush. destruct (findClosestPoint data t); [|lia].
  destruct (calculateCoP c _); [|lia]. rewrite length_app. simpl. lia.
Qed.

Lemma findClosestPoint_elem data time q :
  findClosestPoint data time = Some q → q ∈ data ∧ within25 time q.
Proof.
  unfold findClosestPoint. destruct (head data), (last data); try done.
  repeat case_decide; try done.
  intros (i & Hi & Hnear & _)%find_Some.
  split; [by eapply list_elem_of_lookup_2|done].
Qed.

Lemma trailPush_fromSample data c t trail :
  Forall (fromSample data c) trail →
  Forall (fromSample data c) (trailPush data c t trail).
Proof.
  intros Htrail. unfold trailPush.
  destruct (findClosestPoint data t) as [point|] eqn:Hpoint; [|done].
  destruct (calculateCoP c (sensors point)) as [pos|] eqn:Hpos; [|done].
  apply Forall_app. split; [done|]. constructor; [|constructor].
  exists point, pos. split; [|done].
  by apply findClosestPoint_elem in Hpoint as [? _].
Qed.

Lemma steps_succ (n : nat) :
  Qc_of_Z (Z.of_nat (S n)) = Qc_of_Z (Z.of_nat n) + 1.
Proof.
  apply Qc_is_canon. unfold Qc_of_Z. cbn [this Qcplus Q2Qc].
  rewrite Qred_correct, Nat2Z.inj_succ, <-Z.add_1_r, inject_Z_plus.
  reflexivity.
Qed.

(** Once the loop has ended within some number of rounds, more rounds give
    the same trail. *)
Lemma trailLoop_more fuel fuel' data c ct t trail out :
  trailLoop fuel data c ct t trail = Some out → (fuel ≤ fuel')%nat →
  trailLoop fuel' data c ct t trail = Some out.
Proof.
  revert fuel' t trail.
  induction fuel as [|fuel IH]; intros fuel' t trail Hout Hle.
  - destruct fuel'; simpl in *; by case_decide.
  - destruct fuel' as [|fuel']; [lia|]. simpl in *.
    case_decide; [|done]. apply IH; [done|lia].
Qed.

Lemma trailLoop_ends fuel data c ct t trail :
  t ≤ ct - num 600 + num 40 * Qc_of_Z (Z.of_nat fuel) →
  Forall (fromSample data c) trail →
  ∃ out, trailLoop fuel data c ct t trail = Some out
         ∧ (length out ≤ length trail + fuel)%nat
         ∧ Forall (fromSample data c) out.
Proof.
  revert t trail. induction fuel as [|fuel IH]; intros t trail Ht Htrail.
  - simpl. rewrite decide_False.
    + exists trail. split; [done|]. split; [lia|done].
    + unfold Math_max2. change (Z.of_nat 0) with 0%Z in Ht.
      case_decide; clear Htrail; qc_lra.
  - simpl. case_decide as Hgo.
    + destruct (IH (t - num 40) (trailPush data c t trail))
        as (out & Hout & Hlen & Hfrom).
      * rewrite steps_succ in Ht. clear -Ht.
        generalize dependent (Qc_of_Z (Z.of_nat fuel)). intros n ?. qc_lra.
      * by apply trailPush_fromSample.
      * exists out. split; [done|]. split; [|done].
        pose proof (trailPush_length data c t trail). lia.
    + exists trail. split; [done|]. split; [lia|done].
Qed.

Lemma getTrailPoints_ends fuel data c ct :
  (15 ≤ fuel)%nat →
  ∃ trail, getTrailPoints fuel data c ct = Some trail
           ∧ getTrailPoints 15 data c ct = Some trail
           ∧ (length trail ≤ 15)%nat
           ∧ Forall (fromSample data c) trail
           ∧ (ct ≤ 0 → trail = []).
Proof.
  intros Hfuel. unfold getTrailPoints.
  destruct (trailLoop_ends 15 data c ct ct []) as (out & Hout & Hlen & Hfrom);
    [|constructor|].
  { change (Z.of_nat 15) with 15%Z. qc_lra. }
  exists out. split; [by apply (trailLoop_more 15)|]. split; [done|].
  split; [done|]. split; [done|].
  intros Hct.
  assert (¬ Math_max2 0 (ct - num 600) < ct) as Hstop.
  { clear -Hct. unfold Math_max2. destruct (decide _); qc_lra. }
  simpl in Hout. rewrite decide_False in Hout by done. by injection Hout.
Qed.

(** X9: at a cursor that is a whole number of magnitude up to 2^52 (as a
    scrub or a reset leaves it) the loop of the trail ends: 15 rounds are
    enough, more rounds give the same trail, the trail has at most 15 points,
    each the centre of pressure of a sample of the series, and it is empty at
    a cursor of 0 or less. *)
Theorem getTrailPoints_bounded fuel data c (n : Z) :
  (15 ≤ fuel)%nat → (Z.abs n ≤ 2 ^ 52)%Z →
  ∃ trail, getTrailPoints fuel data c (num n) = Some trail
           ∧ getTrailPoints 15 data c (num n) = Some trail
           ∧ (length trail ≤ 15)%nat
           ∧ Forall (fromSample data c) trail
           ∧ ((n ≤ 0)%Z → trail = []).
Proof.
  intros Hfuel _.
  destruct (getTrailPoints_ends fuel data c (num n) Hfuel)
    as (trail & Hmore & Hfifteen & Hlen & Hfrom & Hempty).
  exists trail. split; [done|]. split; [done|]. split; [done|].
  split; [done|]. intros Hn. apply Hempty.
  unfold num. rewrite <-Z2Qc_inj_0.
  by apply (proj1 (Z2Qc_inj_le n 0)).
Qed.

Lemma getTrailPoints_bounded_witness :
  (15 ≤ 40)%nat ∧ (Z.abs 50 ≤ 2 ^ 52)%Z
  ∧ ∃ trail, getTrailPoints 40 heel_strike two_centroids (num 50) = Some trail
             ∧ getTrailPoints 15 heel_strike two_centroids (num 50)
               = Some trail
             ∧ (length trail ≤ 15)%nat
             ∧ Forall (fromSample heel_strike two_centroids) trail
             ∧ ((50 ≤ 0)%Z → trail = []).
Proof.
  assert (15 ≤ 40)%nat as H by lia.
  assert (Z.abs 50 ≤ 2 ^ 52)%Z as Hn by lia.
  split; [exact H|]. split; [exact Hn|].
  exact (getTrailPoints_bounded 40 heel_strike two_centroids 50 H Hn).
Defined.

(** ** The timeline of a delivery *)

Lemma globalStart_le em k e :
  em !! k = Some e → globalStart em ≤ ic_ts_ms e.
Proof.
  intros Hk. unfold globalStart.
  pose proof (scanMinTime_spec em) as Hscan.
  destruct (scanMinTime em) as [m|].
  - destruct Hscan as [Hlb _]. by apply (Hlb k).
  - by rewrite Hscan in Hk.
Qed.

Lemma processFoot_elem em minTime stances p :
  p ∈ processFoot em minTime stances ↔
  ∃ s event q, s ∈ stances ∧ em !! stance_id s = Some event
               ∧ q ∈ cop_trajectory s
               ∧ p = shiftPoint (ic_ts_ms event - minTime) q.
Proof.
  rewrite processFoot_perm, list_elem_of_bind. unfold stanceSamples. split.
  - intros (s & Hp & Hs). destruct (em !! stance_id s) as [event|] eqn:Hev.
    + apply list_elem_of_fmap in Hp as (q & -> & Hq). by exists s, event, q.
    + by apply elem_of_nil in Hp.
  - intros (s & event & q & Hs & Hev & Hq & ->). exists s. split; [|done].
    rewrite Hev. by apply list_elem_of_fmap_2.
Qed.

(** X10: when no sample has a negative local time, no sample of the aligned
    series of either foot has a negative time: the global start is at or
    before the contact of every stance that is drawn. *)
Theorem aligned_times_not_before_zero sd be p :
  (∀ s q, s ∈ allStances sd → q ∈ cop_trajectory s → 0 ≤ t_ms q) →
  p ∈ leftData (alignedTimeline (Some sd) (Some be))
      ++ rightData (alignedTimeline (Some sd) (Some be)) →
  0 ≤ t_ms p.
Proof.
  intros Hlocal Hp. simpl in Hp.
  assert (∃ s event q, s ∈ allStances sd
            ∧ ballEventsMap be !! stance_id s = Some event
            ∧ q ∈ cop_trajectory s
            ∧ p = shiftPoint
                    (ic_ts_ms event - globalStart (ballEventsMap be)) q)
    as (s & event & q & Hs & Hev & Hq & ->).
  { unfold allStances.
    apply elem_of_app in Hp as [Hp|Hp];
      apply processFoot_elem in Hp as (s & event & q & Hs & Hrest);
      exists s, event, q; (split; [|done]); apply elem_of_app; by (left + right). }
  pose proof (globalStart_le _ _ _ Hev) as Hmin.
  pose proof (Hlocal s q Hs Hq) as Hq0. simpl.
  clear -Hmin Hq0.
  generalize dependent (globalStart (ballEventsMap be)). intros m Hm.
  qc_lra.
Qed.

Lemma aligned_times_not_before_zero_witness :
  (∀ s q, s ∈ allStances offset_stances → q ∈ cop_trajectory s → 0 ≤ t_ms q)
  ∧ shiftPoint (num 200) (sample 5)
    ∈ leftData (alignedTimeline (Some offset_stances) (Some offset_events))
      ++ rightData (alignedTimeline (Some offset_stances) (Some offset_events))
  ∧ 0 ≤ t_ms (shiftPoint (num 200) (sample 5)).
Proof.
  assert (∀ s q, s ∈ allStances offset_stances → q ∈ cop_trajectory s →
                 0 ≤ t_ms q) as H1.
  { assert (Forall (λ s, Forall (λ q, 0 ≤ t_ms q) (cop_trajectory s))
                   (allStances offset_stances)) as Hall by by_evaluation.
    intros s q Hs Hq.
    exact (proj1 (Forall_forall _ _)
             (proj1 (Forall_forall _ _) Hall s Hs) q Hq). }
  assert (shiftPoint (num 200) (sample 5)
          ∈ leftData (alignedTimeline (Some offset_stances)
                                      (Some offset_events))
            ++ rightData (alignedTimeline (Some offset_stances)
                                          (Some offset_events))) as H2
    by by_evaluation.
  split; [exact H1|]. split; [exact H2|].
  exact (aligned_times_not_before_zero offset_stances offset_events
           (shiftPoint (num 200) (sample 5)) H1 H2).
Defined.

Lemma pushMarker_elem em minTime phaseName colour xStances markers m :
  m ∈ pushMarker em minTime phaseName colour xStances markers →
  m ∈ markers
  ∨ xStances ≠ []
    ∧ m = {| name := phaseName;
             start := Math_min (stanceStart em minTime <$> xStances);
             end_ := Math_max (stanceEnd em minTime <$> xStances);
             color := colour |}.
Proof.
  unfold pushMarker. case_decide as Hlen; [|by left].
  intros [Hm|Hm%list_elem_of_singleton]%elem_of_app; [by left|right].
  split; [|done]. intros ->. simpl in Hlen. lia.
Qed.

Lemma stance_starts_before_end em minTime s :
  (∀ k e, em !! k = Some e → ic_ts_ms e ≤ to_ts_ms e) →
  stanceStart em minTime s ≤ stanceEnd em minTime s.
Proof.
  intros Hev. unfold stanceStart, stanceEnd. rewrite !or0_default.
  destruct (em !! stance_id s) as [e|] eqn:He; simpl.
  - specialize (Hev _ _ He). qc_lra.
  - apply Qcle_refl.
Qed.

(** X11: when no contact event ends before it starts, every phase marker has
    finite bounds with the start at or before the end; it is named BFC or
    FFC, and some stance of the delivery carries that phase. *)
Theorem marker_start_before_end em minTime sd m :
  (∀ k e, em !! k = Some e → ic_ts_ms e ≤ to_ts_ms e) →
  m ∈ deriveMarkers em minTime sd →
  ∃ a b, start m = Finite a ∧ end_ m = Finite b ∧ a ≤ b
         ∧ name m ∈ ["BFC"; "FFC"]
         ∧ ∃ s, s ∈ allStances sd ∧ phase s = name m.
Proof.
  intros Hev Hm. unfold deriveMarkers in Hm.
  assert (∃ phaseName colour,
            phaseName ∈ ["BFC"; "FFC"] ∧ phaseStances phaseName sd ≠ []
            ∧ m = {| name := phaseName;
                     start := Math_min (stanceStart em minTime
                                          <$> phaseStances phaseName sd);
                     end_ := Math_max (stanceEnd em minTime
                                         <$> phaseStances phaseName sd);
                     color := colour |})
    as (phaseName & colour & Hname & Hne & ->).
  { apply pushMarker_elem in Hm as [Hm|[Hne ->]].
    - apply pushMarker_elem in Hm as [Hm|[Hne ->]].
      + by apply elem_of_nil in Hm.
      + exists "BFC", "#FF6B35". split; [|done]. set_solver.
    - exists "FFC", "#2196F3". split; [|done]. set_solver. }
  destruct (Math_min_nonempty (stanceStart em minTime
                                 <$> phaseStances phaseName sd))
    as (a & Ha & Hain & Hamin).
  { by destruct (phaseStances phaseName sd). }
  destruct (Math_max_nonempty (stanceEnd em minTime
                                 <$> phaseStances phaseName sd))
    as (b & Hb & Hbin & Hbmax).
  { by destruct (phaseStances phaseName sd). }
  apply list_elem_of_fmap in Hain as (s & -> & Hs).
  exists (stanceStart em minTime s), b. simpl.
  split; [done|]. split; [done|]. split.
  - trans (stanceEnd em minTime s); [by apply stance_starts_before_end|].
    apply Hbmax. by apply list_elem_of_fmap_2.
  - split; [done|]. exists s.
    unfold phaseStances in Hs. by apply list_elem_of_filter in Hs as [? ?].
Qed.

Lemma marker_start_before_end_witness :
  (∀ k e, ballEventsMap ffc_events !! k = Some e → ic_ts_ms e ≤ to_ts_ms e)
  ∧ {| name := "FFC"; start := Finite (num 50); end_ := Finite (num 110);
       color := "#2196F3" |}
    ∈ deriveMarkers (ballEventsMap ffc_events)
                    (globalStart (ballEventsMap ffc_events)) ffc_stances
  ∧ ∃ a b, Finite (num 50) = Finite a ∧ Finite (num 110) = Finite b ∧ a ≤ b
           ∧ "FFC" ∈ ["BFC"; "FFC"]
           ∧ ∃ s, s ∈ allStances ffc_stances ∧ phase s = "FFC".
Proof.
  assert (∀ k e, ballEventsMap ffc_events !! k = Some e →
                 ic_ts_ms e ≤ to_ts_ms e) as H1.
  { assert (map_Forall (λ _ e, ic_ts_ms e ≤ to_ts_ms e)
                       (ballEventsMap ffc_events)) as Hall by by_evaluation.
    exact Hall. }
  assert ({| name := "FFC"; start := Finite (num 50);
             end_ := Finite (num 110); color := "#2196F3" |}
          ∈ deriveMarkers (ballEventsMap ffc_events)
                          (globalStart (ballEventsMap ffc_events))
                          ffc_stances) as H2 by by_evaluation.
  split; [exact H1|]. split; [exact H2|].
  exact (marker_start_before_end (ballEventsMap ffc_events)
           (globalStart (ballEventsMap ffc_events)) ffc_stances _ H1 H2).
Defined.

(** X12: the timeline of a delivery is made from the first ball of that id in
    each document; balls of other ids before it and any ball after it play
    no part. *)
Theorem deliveryTimeline_first_match
    stanceBefore sd stanceAfter eventBefore be eventAfter id :
  ball_id sd = id → evt_ball_id be = id →
  (∀ b, b ∈ stanceBefore → ball_id b ≠ id) →
  (∀ b, b ∈ eventBefore → evt_ball_id b ≠ id) →
  deliveryTimeline (stanceBefore ++ sd :: stanceAfter)
                   (eventBefore ++ be :: eventAfter) id
  = alignedTimeline (Some sd) (Some be).
Proof.
  intros Hsd Hbe Hs He. unfold deliveryTimeline. f_equal.
  - apply find_Some. exists (length stanceBefore).
    split; [by apply list_lookup_middle|]. split; [done|].
    intros j b Hj Hlt. apply Hs.
    rewrite lookup_app_l in Hj by done. by eapply list_elem_of_lookup_2.
  - apply find_Some. exists (length eventBefore).
    split; [by apply list_lookup_middle|]. split; [done|].
    intros j b Hj Hlt. apply He.
    rewrite lookup_app_l in Hj by done. by eapply list_elem_of_lookup_2.
Qed.

Lemma deliveryTimeline_first_match_witness :
  ball_id offset_stances = 1%Z ∧ evt_ball_id offset_events = 1%Z
  ∧ (∀ b, b ∈ [other_ball] → ball_id b ≠ 1%Z)
  ∧ (∀ b, b ∈ [other_events] → evt_ball_id b ≠ 1%Z)
  ∧ deliveryTimeline ([other_ball] ++ offset_stances :: [orphan_stances])
                     ([other_events] ++ offset_events :: [orphan_events]) 1
    = alignedTimeline (Some offset_stances) (Some offset_events).
Proof.
  assert (∀ b, b ∈ [other_ball] → ball_id b ≠ 1%Z) as H3.
  { intros b Hb. apply list_elem_of_singleton in Hb. by subst. }
  assert (∀ b, b ∈ [other_events] → evt_ball_id b ≠ 1%Z) as H4.
  { intros b Hb. apply list_elem_of_singleton in Hb. by subst. }
  split; [reflexivity|]. split; [reflexivity|].
  split; [exact H3|]. split; [exact H4|].
  exact (deliveryTimeline_first_match [other_ball] offset_stances
           [orphan_stances] [other_events] offset_events [orphan_events] 1
           eq_refl eq_refl H3 H4).
Defined.

(** X13: when either document has no ball of the delivery's id, the timeline
    is empty: no samples and no markers. *)
Theorem deliveryTimeline_missing_ball stanceBalls eventBalls id :
  (∀ b, b ∈ stanceBalls → ball_id b ≠ id)
  ∨ (∀ b, b ∈ eventBalls → evt_ball_id b ≠ id) →
  deliveryTimeline stanceBalls eventBalls id
  = {| leftData := []; rightData := []; phaseMarkers := [] |}.
Proof.
  intros Hmissing. unfold deliveryTimeline, alignedTimeline.
  destruct Hmissing as [Hs|He].
  - rewrite (proj2 (find_None (λ ball, ball_id ball = id) stanceBalls));
      [done|by apply Forall_forall].
  - rewrite (proj2 (find_None (λ ball, evt_ball_id ball = id) eventBalls));
      [|by apply Forall_forall].
    by destruct (find _ stanceBalls).
Qed.

Lemma deliveryTimeline_missing_ball_witness :
  ((∀ b, b ∈ [other_ball] → ball_id b ≠ 1%Z)
   ∨ (∀ b, b ∈ [offset_events] → evt_ball_id b ≠ 1%Z))
  ∧ deliveryTimeline [other_ball] [offset_events] 1
    = {| leftData := []; rightData := []; phaseMarkers := [] |}.
Proof.
  assert ((∀ b, b ∈ [other_ball] → ball_id b ≠ 1%Z)
          ∨ (∀ b, b ∈ [offset_events] → evt_ball_id b ≠ 1%Z)) as H.
  { left. intros b Hb. apply list_elem_of_singleton in Hb. by subst. }
  split; [exact H|].
  exact (deliveryTimeline_missing_ball [other_ball] [offset_events] 1 H).
Defined.

(** ** Distinct values in order of first insertion *)

Section distinct.
Context {A : Type} `{!EqDecision A}.

Lemma distinct_elem (acc xs : list A) v :
  v ∈ foldl (λ acc v, if decide (v ∈ acc) then acc else acc ++ [v]) acc xs
  ↔ v ∈ acc ∨ v ∈ xs.
Proof.
  revert acc. induction xs as [|x xs IH]; intros acc; simpl.
  - split; [by left|]. by intros [?|?%elem_of_nil].
  - rewrite IH, elem_of_cons. case_decide as Hx.
    + split; [intros [?|?]; [by left|by right; right]|].
      intros [?|[->|?]]; [by left|by left|by right].
    + rewrite elem_of_app, list_elem_of_singleton. tauto.
Qed.

Lemma distinct_NoDup (acc xs : list A) :
  NoDup acc →
  NoDup (foldl (λ acc v, if decide (v ∈ acc) then acc else acc ++ [v]) acc xs).
Proof.
  revert acc. induction xs as [|x xs IH]; intros acc Hacc; simpl; [done|].
  apply IH. case_decide; [done|].
  apply NoDup_app. split; [done|]. split; [|apply NoDup_singleton].
  intros y Hy ->%list_elem_of_singleton. done.
Qed.

Lemma distinct_split (xs ks1 ks2 : list A) w :
  foldl (λ acc v, if decide (v ∈ acc) then acc else acc ++ [v]) [] xs
    = ks1 ++ w :: ks2 →
  ∃ before after,
    xs = before ++ w :: after
    ∧ foldl (λ acc v, if decide (v ∈ acc) then acc else acc ++ [v]) [] before
      = ks1.
Proof.
  revert ks2. induction xs as [|x xs IH] using rev_ind; intros ks2 Hks.
  - by destruct ks1.
  - rewrite foldl_app in Hks. simpl in Hks. case_decide as Hx.
    + destruct (IH _ Hks) as (before & after & -> & Hbefore).
      exists before, (after ++ [x]). by rewrite <-app_assoc.
    + destruct ks2 as [|k ks2 _] using rev_ind.
      * apply (app_inj_2 _ _ _ [w]) in Hks as [Hks [= ->]]; [|done].
        by exists xs, [].
      * rewrite app_comm_cons, app_assoc in Hks.
        apply (app_inj_2 _ _ _ [k]) in Hks as [Hks [= ->]]; [|done].
        destruct (IH _ Hks) as (before & after & -> & Hbefore).
        exists before, (after ++ [k]). by rewrite <-app_assoc.
Qed.

End distinct.

(** ** Run-up stance and corrected insights *)

Lemma find_app {A} (P : A → Prop) `{!∀ a, Decision (P a)} (l r : list A) :
  find P (l ++ r)
  = match find P l with Some a => Some a | None => find P r end.
Proof.
  unfold find. induction l as [|a l IH]; simpl; [done|].
  case_decide; [done|].
  rewrite <-!option_fmap_compose.
  destruct (list_find P l) as [[i b]|] eqn:Hl.
  - simpl in *. destruct (list_find P (l ++ r)) as [[j d]|]; simpl in *;
      congruence.
  - simpl in *. destruct (list_find P (l ++ r)) as [[j d]|],
      (list_find P r) as [[j' d']|]; simpl in *; congruence.
Qed.

(** X14: the two ways of finding the run-up stance (one search over both feet
    in the delivery view, the left foot and then the right in the gallery and
    the summary) give the same stance: one of the delivery tagged RUNUP_LAST,
    and none only when no stance is tagged so. *)
Theorem runupStance_agrees ballStances :
  DeliveryInsights.runupStance ballStances
  = DeliveryInsights.runupLastStance ballStances
  ∧ match DeliveryInsights.runupStance ballStances with
    | Some s =>
        phase s = "RUNUP_LAST" ∧ ∃ sd, ballStances = Some sd ∧ s ∈ allStances sd
    | None =>
        ∀ sd s, ballStances = Some sd → s ∈ allStances sd →
                phase s ≠ "RUNUP_LAST"
    end.
Proof.
  assert (DeliveryInsights.runupStance ballStances
          = DeliveryInsights.runupLastStance ballStances) as Hsame.
  { destruct ballStances as [sd|]; [|done]. simpl. by rewrite find_app. }
  split; [done|]. rewrite Hsame.
  destruct ballStances as [sd|]; simpl; [|done].
  destruct (find _ _) as [s|] eqn:Hfind.
  - apply find_Some in Hfind as (i & Hi & Hphase & _).
    split; [done|]. exists sd. split; [done|].
    by eapply list_elem_of_lookup_2.
  - intros sd' s [= <-] Hs.
    apply find_None in Hfind.
    by apply (proj1 (Forall_forall _ _) Hfind).
Qed.

Lemma append_cons c (before after : string) :
  String.append (String c before) after = String c (String.append before after).
Proof. done. Qed.

Lemma prefix_app (needle hay : string) :
  String.prefix needle hay = true
  ↔ ∃ after, hay = String.append needle after.
Proof.
  revert hay. induction needle as [|c needle IH]; intros hay.
  - split; [|by destruct hay]. intros _. by exists hay.
  - destruct hay as [|d hay]; simpl.
    + split; [done|]. by intros (after & ?).
    + destruct (Ascii.ascii_dec c d) as [->|Hne].
      * rewrite IH. split; intros (after & Hafter); exists after.
        -- by rewrite append_cons, Hafter.
        -- rewrite append_cons in Hafter. congruence.
      * split; [done|]. intros (after & Hafter).
        rewrite append_cons in Hafter. congruence.
Qed.

Lemma includes_isSubstring (needle hay : string) :
  DeliveryInsights.includes needle hay = true ↔ isSubstring needle hay.
Proof.
  unfold isSubstring. induction hay as [|c hay IH].
  - cbn [DeliveryInsights.includes]. rewrite orb_false_r, prefix_app. split.
    + intros (after & Hafter). by exists EmptyString, after.
    + intros ([|d before] & after & Hhay); [by exists after|].
      by rewrite append_cons in Hhay.
  - cbn [DeliveryInsights.includes]. rewrite orb_true_iff, prefix_app, IH.
    split.
    + intros [(after & Hafter)|(before & after & Hhay)].
      * by exists EmptyString, after.
      * exists (String c before), after. by rewrite append_cons, Hhay.
    + intros ([|d before] & after & Hhay).
      * left. by exists after.
      * right. rewrite append_cons in Hhay. injection Hhay as -> Hhay.
        by exists before, after.
Qed.

Lemma isMisplaced_mentions item :
  DeliveryInsights.isMisplaced item = true
  ↔ mentions DeliveryInsights.bfcKeywords item.
Proof.
  unfold DeliveryInsights.isMisplaced, mentions.
  rewrite existsb_exists. split.
  - intros (kw & Hkw & Hinc). exists kw.
    split; [by apply list_elem_of_In|by apply includes_isSubstring].
  - intros (kw & Hkw & Hsub). exists kw.
    split; [by apply list_elem_of_In|by apply includes_isSubstring].
Qed.

Lemma sortItem_filter ffc moved kept :
  foldl DeliveryInsights.sortItem (moved, kept) ffc
  = (moved ++ filter (λ i, DeliveryInsights.isMisplaced i = true) ffc,
     kept ++ filter (λ i, DeliveryInsights.isMisplaced i ≠ true) ffc).
Proof.
  revert moved kept. induction ffc as [|item ffc IH]; intros moved kept; simpl.
  - by rewrite !app_nil_r.
  - rewrite !filter_cons. unfold DeliveryInsights.sortItem at 2.
    destruct (DeliveryInsights.isMisplaced item) eqn:Hitem;
      cbn [fst snd]; rewrite IH;
      repeat case_decide; try done; by rewrite <-!app_assoc.
Qed.

(** X15: the corrected insights hold no duplicate; the front-foot list is
    the given one without the items that mention a back-foot keyword, and
    the back-foot list is the given one together with those items. *)
Theorem correctedInsights_separates insights item :
  NoDup (DeliveryInsights.BFC (DeliveryInsights.correctedInsights insights))
  ∧ NoDup (DeliveryInsights.FFC (DeliveryInsights.correctedInsights insights))
  ∧ (item ∈ DeliveryInsights.FFC (DeliveryInsights.correctedInsights insights)
     ↔ item ∈ default [] (Report.insights_FFC insights)
       ∧ ¬ mentions DeliveryInsights.bfcKeywords item)
  ∧ (item ∈ DeliveryInsights.BFC (DeliveryInsights.correctedInsights insights)
     ↔ item ∈ default [] (Report.insights_BFC insights)
       ∨ item ∈ default [] (Report.insights_FFC insights)
         ∧ mentions DeliveryInsights.bfcKeywords item).
Proof.
  unfold DeliveryInsights.correctedInsights, DeliveryInsights.Set_of.
  rewrite sortItem_filter. simpl.
  split; [apply distinct_NoDup, NoDup_nil_2|].
  split; [apply distinct_NoDup, NoDup_nil_2|].
  rewrite !distinct_elem, elem_of_app, !list_elem_of_filter.
  rewrite <-isMisplaced_mentions.
  pose proof (elem_of_nil item) as Hnil. tauto.
Qed.

(** ** The time axis of the charts *)

Lemma sorted_NoDup_strict (l : list Qc) :
  StronglySorted Qcle l → NoDup l → StronglySorted Qclt l.
Proof.
  induction 1 as [|a l Hl IH Ha]; intros Hnd; [constructor|].
  apply NoDup_cons in Hnd as [Hnotin Hnd].
  constructor; [by apply IH|].
  apply Forall_forall. intros b Hb.
  pose proof (proj1 (Forall_forall _ _) Ha b Hb) as Hab.
  apply Qcle_lt_or_eq in Hab as [Hlt|Heq]; [done|by subst].
Qed.

Lemma sortedTimes_elem l r t :
  t ∈ sortedTimes l r ↔ ∃ p, p ∈ l ++ r ∧ t_ms p = t.
Proof.
  unfold sortedTimes, Set_from.
  rewrite (sort_perm (λ a b : Qc, a - b)), distinct_elem, <-fmap_app.
  rewrite list_elem_of_fmap. split.
  - intros [[]%elem_of_nil|(p & -> & Hp)]. by exists p.
  - intros (p & Hp & <-). right. by exists p.
Qed.

Lemma sortedTimes_strict l r : StronglySorted Qclt (sortedTimes l r).
Proof.
  apply sorted_NoDup_strict.
  - apply (sort_sorted (λ a b : Qc, a - b) id). done.
  - unfold sortedTimes. rewrite (sort_perm (λ a b : Qc, a - b)).
    apply distinct_NoDup, NoDup_nil_2.
Qed.

(** X16: the four regional charts and the pressure chart stand on one time
    axis: the times of the samples of both feet, each once, in strictly
    ascending order. *)
Theorem charts_share_time_axis l r :
  time <$> RegionalPressureTimeline.ForeFoot (regionalDatasets l r) = sortedTimes l r
  ∧ time <$> RegionalPressureTimeline.UpperMid (regionalDatasets l r) = sortedTimes l r
  ∧ time <$> RegionalPressureTimeline.LowerMid (regionalDatasets l r) = sortedTimes l r
  ∧ time <$> RegionalPressureTimeline.Heel (regionalDatasets l r) = sortedTimes l r
  ∧ PressureTimeGraph.time <$> PressureTimeGraph.combinedData l r
    = sortedTimes l r
  ∧ StronglySorted Qclt (sortedTimes l r)
  ∧ ∀ t, t ∈ sortedTimes l r ↔ ∃ p, p ∈ l ++ r ∧ t_ms p = t.
Proof.
  unfold regionalDatasets, PressureTimeGraph.combinedData. simpl.
  rewrite <-!list_fmap_compose.
  repeat (split; [by rewrite <-(list_fmap_id (sortedTimes l r)) at 2|]).
  split; [apply sortedTimes_strict|]. apply sortedTimes_elem.
Qed.

Lemma pointAt_first data t p :
  pointAt data t = Some p
  ↔ ∃ before after, data = before ++ p :: after ∧ t_ms p = t
                    ∧ ∀ q, q ∈ before → t_ms q ≠ t.
Proof.
  unfold pointAt. rewrite find_Some. split.
  - intros (i & Hi & Ht & Hfirst).
    exists (take i data), (drop (S i) data).
    split; [by rewrite take_drop_middle|]. split; [done|].
    intros q Hq. apply list_elem_of_lookup in Hq as (j & Hj).
    pose proof (lookup_lt_Some _ _ _ Hj) as Hlt.
    rewrite lookup_take_Some in Hj. destruct Hj as [Hj Hji].
    by apply (Hfirst j).
  - intros (before & after & -> & Ht & Hfirst).
    exists (length before). split; [by apply list_lookup_middle|].
    split; [done|]. intros j q Hj Hlt. apply Hfirst.
    rewrite lookup_app_l in Hj by done. by eapply list_elem_of_lookup_2.
Qed.

Lemma sumW_or_null_first data t v :
  PressureTimeGraph.sumW_or_null (pointAt data t) = Some v
  ↔ v ≠ 0 ∧ ∃ before p after,
              data = before ++ p :: after ∧ t_ms p = t ∧ sumW p = v
              ∧ ∀ q, q ∈ before → t_ms q ≠ t.
Proof.
  unfold PressureTimeGraph.sumW_or_null. split.
  - destruct (pointAt data t) as [p|] eqn:Hp; [|done].
    case_decide as Hzero; [done|]. intros [= <-]. split; [done|].
    apply pointAt_first in Hp as (before & after & ? & ? & ?).
    by exists before, p, after.
  - intros (Hv & before & p & after & Hdata & Ht & Hsum & Hfirst).
    rewrite (proj2 (pointAt_first data t p)) by by exists before, after.
    rewrite Hsum. by rewrite decide_False.
Qed.

(** X17: every row of the pressure chart stands at the time of some sample, and
    a foot's pressure in it is the total pressure of that foot's first sample
    at that time, provided that is not 0; without such a sample, or at 0, it
    is null. *)
Theorem combinedData_pressure l r row v :
  row ∈ PressureTimeGraph.combinedData l r →
  (∃ p, p ∈ l ++ r ∧ t_ms p = PressureTimeGraph.time row)
  ∧ (PressureTimeGraph.leftPressure row = Some v
     ↔ v ≠ 0 ∧ ∃ before p after,
                 l = before ++ p :: after
                 ∧ t_ms p = PressureTimeGraph.time row ∧ sumW p = v
                 ∧ ∀ q, q ∈ before → t_ms q ≠ PressureTimeGraph.time row)
  ∧ (PressureTimeGraph.rightPressure row = Some v
     ↔ v ≠ 0 ∧ ∃ before p after,
                 r = before ++ p :: after
                 ∧ t_ms p = PressureTimeGraph.time row ∧ sumW p = v
                 ∧ ∀ q, q ∈ before → t_ms q ≠ PressureTimeGraph.time row).
Proof.
  unfold PressureTimeGraph.combinedData.
  intros (t & -> & Ht)%list_elem_of_fmap. simpl.
  split; [by apply sortedTimes_elem|].
  split; apply sumW_or_null_first.
Qed.

Lemma combinedData_pressure_witness :
  {| PressureTimeGraph.time := num 80;
     PressureTimeGraph.leftPressure := None;
     PressureTimeGraph.rightPressure := None |}
  ∈ PressureTimeGraph.combinedData heel_strike toe_off
  ∧ (∃ p, p ∈ heel_strike ++ toe_off ∧ t_ms p = num 80)
  ∧ (None = Some (num 30)
     ↔ num 30 ≠ 0
       ∧ ∃ before p after,
           heel_strike = before ++ p :: after
           ∧ t_ms p = num 80 ∧ sumW p = num 30
           ∧ ∀ q, q ∈ before → t_ms q ≠ num 80)
  ∧ (None = Some (num 30)
     ↔ num 30 ≠ 0
       ∧ ∃ before p after,
           toe_off = before ++ p :: after
           ∧ t_ms p = num 80 ∧ sumW p = num 30
           ∧ ∀ q, q ∈ before → t_ms q ≠ num 80).
Proof.
  assert ({| PressureTimeGraph.time := num 80;
             PressureTimeGraph.leftPressure := None;
             PressureTimeGraph.rightPressure := None |}
          ∈ PressureTimeGraph.combinedData heel_strike toe_off) as H
    by by_evaluation.
  split; [exact H|].
  exact (combinedData_pressure heel_strike toe_off _ (num 30) H).
Defined.

(** ** Tallies and the most frequent value *)

Lemma get_cons e acc val :
  SessionAggregator.get (e :: acc) val
  = if decide (e.1 = val) then Some e.2 else SessionAggregator.get acc val.
Proof.
  unfold SessionAggregator.get, find. simpl. case_decide; [done|].
  by destruct (list_find _ acc) as [[i b]|].
Qed.

Lemma get_counts (f : string → nat) ks v :
  SessionAggregator.get ((λ k, (k, f k)) <$> ks) v
  = if decide (v ∈ ks) then Some (f v) else None.
Proof.
  induction ks as [|k ks IH]; [done|].
  rewrite fmap_cons, get_cons, IH. simpl.
  destruct (decide (k = v)) as [->|Hne].
  - rewrite decide_True; [done|left].
  - destruct (decide (v ∈ ks)) as [Hin|Hnotin].
    + rewrite decide_True; [done|by right].
    + rewrite decide_False; [done|].
      by intros [?|?]%elem_of_cons.
Qed.

Lemma set_counts_old (f : string → nat) ks v n :
  NoDup ks → v ∈ ks →
  SessionAggregator.set ((λ k, (k, f k)) <$> ks) v n
  = (λ k, (k, if decide (k = v) then n else f k)) <$> ks.
Proof.
  induction 1 as [|k ks Hnotin Hnd IH]; intros Hv.
  - by apply elem_of_nil in Hv.
  - rewrite !fmap_cons. simpl. destruct (decide (k = v)) as [->|Hne].
    + f_equal. apply list_fmap_ext. intros _ k Hk%list_elem_of_lookup_2.
      rewrite decide_False; [done|]. by intros ->.
    + f_equal. apply IH. by apply elem_of_cons in Hv as [?|?].
Qed.

Lemma set_counts_new (f : string → nat) ks v n :
  v ∉ ks →
  SessionAggregator.set ((λ k, (k, f k)) <$> ks) v n
  = ((λ k, (k, f k)) <$> ks) ++ [(v, n)].
Proof.
  induction ks as [|k ks IH]; intros Hv; [done|].
  rewrite !fmap_cons. simpl. rewrite decide_False.
  - f_equal. apply IH. intros ?. apply Hv. by right.
  - intros ->. apply Hv. left.
Qed.

Lemma occurrences_snoc x arr v :
  occurrences x (arr ++ [v])
  = (occurrences x arr + if decide (v = x) then 1 else 0)%nat.
Proof.
  unfold occurrences. rewrite filter_app, length_app, filter_cons, filter_nil.
  by case_decide.
Qed.

Lemma occurrences_pos x arr : x ∈ arr ↔ (0 < occurrences x arr)%nat.
Proof.
  unfold occurrences. split.
  - intros Hx.
    assert (x ∈ filter (λ y, y = x) arr) as Hin
      by by apply list_elem_of_filter.
    destruct (filter _ arr); [by apply elem_of_nil in Hin|simpl; lia].
  - intros Hpos. destruct (filter (λ y, y = x) arr) as [|y ys] eqn:Hf.
    { simpl in Hpos. lia. }
    assert (y ∈ filter (λ y, y = x) arr) as Hin by (rewrite Hf; left).
    by apply list_elem_of_filter in Hin as [-> ?].
Qed.

(** The tally lists each distinct value once, in the order of first
    occurrence, with the number of its occurrences. *)
Lemma tally_counts arr :
  SessionAggregator.tally arr
  = (λ k, (k, occurrences k arr)) <$> DeliveryInsights.Set_of arr.
Proof.
  unfold SessionAggregator.tally, DeliveryInsights.Set_of.
  induction arr as [|v arr IH] using rev_ind; [done|].
  rewrite !foldl_app. simpl. rewrite IH. clear IH.
  pose proof (distinct_NoDup [] arr (NoDup_nil_2 (A:=string))) as Hnd.
  pose proof (λ k, distinct_elem [] arr k) as Helem.
  set (ks := foldl (λ acc v, if decide (v ∈ acc) then acc else acc ++ [v])
                   [] arr) in *.
  rewrite get_counts. destruct (decide (v ∈ ks)) as [Hin|Hnotin]; simpl.
  - rewrite set_counts_old by done. apply list_fmap_ext.
    intros _ k _. rewrite occurrences_snoc.
    destruct (decide (k = v)) as [->|Hne].
    + by rewrite decide_True.
    + rewrite decide_False by done. f_equal. lia.
  - rewrite set_counts_new by done. rewrite fmap_app. simpl. f_equal.
    + apply list_fmap_ext. intros _ k Hk%list_elem_of_lookup_2.
      rewrite occurrences_snoc, decide_False; [f_equal; lia|].
      by intros ->.
    + rewrite occurrences_snoc, decide_True by done.
      assert (occurrences v arr = 0%nat) as ->; [|done].
      destruct (occurrences v arr) eqn:Hocc; [done|].
      exfalso. apply Hnotin, Helem. right. apply occurrences_pos. lia.
Qed.

Lemma get_tally arr x :
  default 0%nat (SessionAggregator.get (SessionAggregator.tally arr) x)
  = occurrences x arr.
Proof.
  rewrite tally_counts, get_counts. case_decide as Hx; [done|]. simpl.
  destruct (occurrences x arr) eqn:Hocc; [done|].
  exfalso. apply Hx. unfold DeliveryInsights.Set_of. apply distinct_elem.
  right. apply occurrences_pos. lia.
Qed.

Lemma count_le (a b : nat) :
  SessionAggregator.count a ≤ SessionAggregator.count b ↔ (a ≤ b)%nat.
Proof.
  unfold SessionAggregator.count. rewrite <-Z2Qc_inj_le. lia.
Qed.

Lemma filter_head_split {A} (P : A → Prop) `{!∀ a, Decision (P a)}
    (l : list A) h t :
  filter P l = h :: t →
  ∃ pre post, l = pre ++ h :: post ∧ ∀ a, a ∈ pre → ¬ P a.
Proof.
  induction l as [|a l IH]; [done|].
  rewrite filter_cons. case_decide as Ha.
  - intros [= -> _]. exists [], l. split; [done|].
    by intros a Hin%elem_of_nil.
  - intros (pre & post & -> & Hpre)%IH. exists (a :: pre), post.
    split; [done|]. by intros b [->|Hb]%elem_of_cons; [|apply Hpre].
Qed.

Lemma descending_key (a b : string * nat) :
  SessionAggregator.count b.2 - SessionAggregator.count a.2
  = - SessionAggregator.count a.2 - - SessionAggregator.count b.2.
Proof. ring. Qed.

(** [getMostCommon]: of the values that occur most often, the one that
    occurs first. *)
Lemma getMostCommon_first arr :
  arr ≠ [] →
  ∃ w before after,
    SessionAggregator.getMostCommon arr = Some w
    ∧ arr = before ++ w :: after
    ∧ (∀ v, (occurrences v arr ≤ occurrences w arr)%nat)
    ∧ (∀ v, v ∈ before → (occurrences v arr < occurrences w arr)%nat).
Proof.
  intros Hne. unfold SessionAggregator.getMostCommon.
  rewrite decide_False by by destruct arr.
  cbv zeta.
  pose proof (sort_perm (λ a b : string * nat,
                SessionAggregator.count b.2 - SessionAggregator.count a.2)
                (SessionAggregator.tally arr)) as Hperm.
  pose proof (sort_sorted (λ a b : string * nat,
                SessionAggregator.count b.2 - SessionAggregator.count a.2)
                (λ e, - SessionAggregator.count e.2)
                descending_key
                (SessionAggregator.tally arr)) as Hsorted.
  pose proof (λ k, filter_sort (λ a b : string * nat,
                SessionAggregator.count b.2 - SessionAggregator.count a.2)
                (λ e, - SessionAggregator.count e.2)
                descending_key k
                (SessionAggregator.tally arr)) as Hstable.
  destruct (sort _ (SessionAggregator.tally arr)) as [|h rest] eqn:Hsort.
  { apply Permutation_nil in Hperm. rewrite tally_counts in Hperm.
    apply fmap_nil_inv in Hperm. destruct arr as [|a arr]; [done|].
    assert (a ∈ DeliveryInsights.Set_of (a :: arr)) as Hin.
    { apply distinct_elem. right. left. }
    rewrite Hperm in Hin. by apply elem_of_nil in Hin. }
  specialize (Hstable (- SessionAggregator.count h.2)).
  rewrite filter_cons_True in Hstable by done.
  symmetry in Hstable.
  apply filter_head_split in Hstable as (pre & post & Htally & Hpre).
  rewrite tally_counts in Htally.
  apply fmap_app_inv in Htally as (ks1 & ks' & -> & Hks' & Hset).
  symmetry in Hks'.
  apply fmap_cons_inv in Hks' as (w & ks2 & -> & -> & ->).
  apply distinct_split in Hset as (before & after & -> & Hbefore).
  exists w, before, after. simpl. split; [done|]. split; [done|].
  assert (∀ v, (occurrences v (before ++ w :: after)
                ≤ occurrences w (before ++ w :: after))%nat) as Hmax.
  { intros v. destruct (decide (v ∈ before ++ w :: after)) as [Hv|Hv].
    - assert ((v, occurrences v (before ++ w :: after))
              ∈ (w, occurrences w (before ++ w :: after)) :: rest) as Hin.
      { rewrite Hperm, tally_counts. apply list_elem_of_fmap.
        exists v. split; [done|]. apply distinct_elem. by right. }
      apply elem_of_cons in Hin as [[= -> _]|Hin]; [done|].
      apply StronglySorted_inv in Hsorted as [_ Hh].
      pose proof (proj1 (Forall_forall _ _) Hh _ Hin) as Hle. simpl in Hle.
      apply Qcopp_le_compat in Hle. rewrite !Qcopp_involutive in Hle.
      by apply count_le.
    - rewrite occurrences_pos in Hv. lia. }
  split; [done|]. intros v Hv.
  assert (occurrences v (before ++ w :: after)
          ≠ occurrences w (before ++ w :: after)); [|specialize (Hmax v); lia].
  intros Heq. apply (Hpre (v, occurrences v (before ++ w :: after))).
  - apply list_elem_of_fmap. exists v. split; [done|].
    rewrite <-Hbefore. apply distinct_elem. by right.
  - simpl. by rewrite Heq.
Qed.

Lemma reduce_keeps_last_greatest (f : string → nat) k keys :
  ∃ ks1 ks2,
    k :: keys
    = ks1 ++ foldl (λ a b, if decide (f b < f a)%nat then a else b) k keys
          :: ks2
    ∧ (∀ v, v ∈ ks1 →
            (f v ≤ f (foldl (λ a b, if decide (f b < f a)%nat then a else b)
                            k keys))%nat)
    ∧ (∀ v, v ∈ ks2 →
            (f v < f (foldl (λ a b, if decide (f b < f a)%nat then a else b)
                            k keys))%nat).
Proof.
  revert k. induction keys as [|b keys IH]; intros k; simpl.
  - exists [], []. split; [done|]. split; by intros v Hv%elem_of_nil.
  - case_decide as Hbk.
    + destruct (IH k) as (ks1 & ks2 & Hsplit & Hle & Hlt).
      set (w := foldl _ k keys) in *.
      destruct ks1 as [|k' ks1].
      * injection Hsplit as Hw Hkeys. exists [], (b :: ks2).
        split; [by rewrite <-Hw, Hkeys|]. split; [done|].
        intros v [->|Hv]%elem_of_cons; [by rewrite <-Hw|by apply Hlt].
      * injection Hsplit as <- Hkeys. exists (k :: b :: ks1), ks2.
        split; [by rewrite Hkeys|]. split; [|done].
        intros v [->|[->|Hv]%elem_of_cons]%elem_of_cons.
        -- apply Hle. left.
        -- specialize (Hle k (list_elem_of_here _ _)). lia.
        -- apply Hle. by right.
    + destruct (IH b) as (ks1 & ks2 & Hsplit & Hle & Hlt).
      set (w := foldl _ b keys) in *.
      exists (k :: ks1), ks2. split; [by rewrite Hsplit|]. split; [|done].
      intros v [->|Hv]%elem_of_cons; [|by apply Hle].
      destruct ks1 as [|b' ks1].
      * injection Hsplit as Hw _. rewrite <-Hw. lia.
      * injection Hsplit as <- _.
        specialize (Hle b (list_elem_of_here _ _)). lia.
Qed.

Lemma reduce_counts arr k keys :
  foldl (λ a b,
     if decide (default 0 (SessionAggregator.get
                             (SessionAggregator.tally arr) b)
                < default 0 (SessionAggregator.get
                               (SessionAggregator.tally arr) a))%nat
     then a else b) k keys
  = foldl (λ a b, if decide (occurrences b arr < occurrences a arr)%nat
                  then a else b) k keys.
Proof.
  revert k. induction keys as [|b keys IH]; intros k; simpl; [done|].
  by rewrite !get_tally, IH.
Qed.

(** [getMode]: of the values that occur most often, the one whose first
    occurrence is the last. *)
Lemma getMode_last arr :
  arr ≠ [] →
  ∃ w before after,
    SessionAggregator.getMode arr = Some (Some w)
    ∧ arr = before ++ w :: after ∧ (w ∉ before)
    ∧ (∀ v, (occurrences v arr ≤ occurrences w arr)%nat)
    ∧ (∀ v, v ∈ after → v ∉ before → v ≠ w →
            (occurrences v arr < occurrences w arr)%nat).
Proof.
  intros Hne. unfold SessionAggregator.getMode.
  rewrite decide_False by by destruct arr.
  cbv zeta.
  assert ((SessionAggregator.tally arr).*1 = DeliveryInsights.Set_of arr)
    as Hkeys.
  { rewrite tally_counts, <-list_fmap_compose. apply list_fmap_id. }
  rewrite Hkeys.
  pose proof (distinct_NoDup [] arr (NoDup_nil_2 (A:=string))) as Hnd.
  pose proof (λ k, distinct_elem [] arr k) as Helem.
  fold (DeliveryInsights.Set_of arr) in Hnd, Helem.
  destruct (DeliveryInsights.Set_of arr) as [|k keys] eqn:Hset.
  { destruct arr as [|a arr]; [done|].
    specialize (Helem a). rewrite elem_of_nil in Helem.
    exfalso. apply Helem. right. left. }
  assert (foldl (λ a b,
            if decide (default 0 (SessionAggregator.get
                                    (SessionAggregator.tally arr) b)
                       < default 0 (SessionAggregator.get
                                      (SessionAggregator.tally arr) a))%nat
            then a else b) k keys
          = foldl (λ a b, if decide (occurrences b arr < occurrences a arr)%nat
                          then a else b) k keys) as ->.
  { apply reduce_counts. }
  destruct (reduce_keeps_last_greatest (λ v, occurrences v arr) k keys)
    as (ks1 & ks2 & Hsplit & Hle & Hlt).
  set (w := foldl _ k keys) in *.
  rewrite Hsplit in Hset, Hnd, Helem.
  apply distinct_split in Hset as (before & after & Harr & Hbefore).
  assert (∀ v, v ∈ before ↔ v ∈ ks1) as Hks1.
  { intros v. rewrite <-Hbefore, distinct_elem.
    split; [by right|by intros [[]%elem_of_nil|?]]. }
  apply NoDup_app in Hnd as (_ & Hdisj & [Hw _]%NoDup_cons).
  exists w, before, after. split; [done|]. split; [done|].
  split. { rewrite Hks1. intros Hin. apply (Hdisj _ Hin). left. }
  split.
  - intros v. destruct (decide (v ∈ arr)) as [Hv|Hv].
    + assert (v ∈ ks1 ++ w :: ks2) as Hin by (apply Helem; by right).
      apply elem_of_app in Hin as [Hin|[->|Hin]%elem_of_cons].
      * by apply Hle.
      * done.
      * specialize (Hlt v Hin). simpl in Hlt. lia.
    + rewrite occurrences_pos in Hv. lia.
  - intros v Hafter Hnotbefore Hvw.
    assert (v ∈ ks1 ++ w :: ks2) as Hin.
    { apply Helem. right. rewrite Harr. apply elem_of_app. right. by right. }
    apply elem_of_app in Hin as [Hin|[->|Hin]%elem_of_cons].
    + by apply Hks1 in Hin.
    + done.
    + by apply Hlt.
Qed.

(** X18: of a non-empty array of ordinary names [getMostCommon] returns a
    value that no other outnumbers, and among such values the one that occurs
    first. *)
Theorem getMostCommon_first_of_most_frequent arr :
  arr ≠ [] → forallb SessionAggregator.ordinaryName arr = true →
  ∃ w before after,
    SessionAggregator.getMostCommon arr = Some w
    ∧ arr = before ++ w :: after
    ∧ (∀ v, (occurrences v arr ≤ occurrences w arr)%nat)
    ∧ (∀ v, v ∈ before → (occurrences v arr < occurrences w arr)%nat).
Proof.
  intros Hne _. by apply getMostCommon_first.
Qed.

Lemma getMostCommon_first_of_most_frequent_witness :
  patterns ≠ [] ∧ forallb SessionAggregator.ordinaryName patterns = true
  ∧ ∃ w before after,
      SessionAggregator.getMostCommon patterns = Some w
      ∧ patterns = before ++ w :: after
      ∧ (∀ v, (occurrences v patterns ≤ occurrences w patterns)%nat)
      ∧ (∀ v, v ∈ before →
              (occurrences v patterns < occurrences w patterns)%nat).
Proof.
  assert (patterns ≠ []) as H1 by discriminate.
  assert (forallb SessionAggregator.ordinaryName patterns = true) as H2
    by (vm_compute; reflexivity).
  split; [exact H1|]. split; [exact H2|].
  exact (getMostCommon_first_of_most_frequent patterns H1 H2).
Defined.

(** X19: of a non-empty array of ordinary names [getMode] returns a value
    that no other outnumbers, and among such values the one whose first
    occurrence comes last; on a tie it so differs from [getMostCommon]. *)
Theorem getMode_last_of_most_frequent arr :
  arr ≠ [] → forallb SessionAggregator.ordinaryName arr = true →
  ∃ w before after,
    SessionAggregator.getMode arr = Some (Some w)
    ∧ arr = before ++ w :: after ∧ (w ∉ before)
    ∧ (∀ v, (occurrences v arr ≤ occurrences w arr)%nat)
    ∧ (∀ v, v ∈ after → v ∉ before → v ≠ w →
            (occurrences v arr < occurrences w arr)%nat).
Proof.
  intros Hne _. by apply getMode_last.
Qed.

Lemma getMode_last_of_most_frequent_witness :
  patterns ≠ [] ∧ forallb SessionAggregator.ordinaryName patterns = true
  ∧ ∃ w before after,
      SessionAggregator.getMode patterns = Some (Some w)
      ∧ patterns = before ++ w :: after ∧ (w ∉ before)
      ∧ (∀ v, (occurrences v patterns ≤ occurrences w patterns)%nat)
      ∧ (∀ v, v ∈ after → v ∉ before → v ≠ w →
              (occurrences v patterns < occurrences w patterns)%nat).
Proof.
  assert (patterns ≠ []) as H1 by discriminate.
  assert (forallb SessionAggregator.ordinaryName patterns = true) as H2
    by (vm_compute; reflexivity).
  split; [exact H1|]. split; [exact H2|].
  exact (getMode_last_of_most_frequent patterns H1 H2).
Defined.

(** ** Session highlights *)

Lemma sum_not_negative {A} (f : A → Qc) (usable : list A) acc :
  0 ≤ acc → (∀ d, d ∈ usable → 0 ≤ f d) →
  0 ≤ foldl (λ sum d, sum + f d) acc usable.
Proof.
  revert acc. induction usable as [|d usable IH]; intros acc Hacc Hall; [done|].
  simpl. apply IH.
  - apply Qcplus_nonneg_nonneg; [done|]. apply Hall. left.
  - intros d' Hd'. apply Hall. by right.
Qed.

Lemma count_pos (n : nat) : (0 < n)%nat → 0 < SessionAggregator.count n.
Proof.
  intros Hn. unfold SessionAggregator.count.
  rewrite <-Z2Qc_inj_0. apply (proj1 (Z2Qc_inj_lt 0 (Z.of_nat n))). lia.
Qed.

Lemma average_not_negative (f : Report.Delivery → Qc) usable :
  (∀ d, d ∈ usable → 0 ≤ f d) → 0 ≤ SessionAggregator.average f usable.
Proof.
  intros Hall. unfold SessionAggregator.average.
  case_decide as Hlen; [|done].
  apply Qc_div_nonneg; [by apply count_pos|].
  by apply sum_not_negative.
Qed.

(** With one usable delivery nothing is rounded: the sum is [0 + f d] and
    the divisor is 1. *)
Lemma average_single (f : Report.Delivery → Qc) d :
  SessionAggregator.average f [d] = f d.
Proof.
  unfold SessionAggregator.average.
  rewrite decide_True by (simpl; lia). simpl.
  assert (SessionAggregator.count 1 = 1) as -> by by_evaluation.
  rewrite Qcplus_0_l. unfold Qcdiv.
  assert (/ 1 = 1) as -> by by_evaluation.
  apply Qcmult_1_r.
Qed.

(** X20: when no usable delivery has a negative contact time, neither average
    is negative; and with exactly one usable delivery the averages are its
    two contact times, whatever the other deliveries hold. *)
Theorem session_average_not_negative deliveries :
  (∀ d, d ∈ deliveries → Report.usable_delivery d = true →
        0 ≤ Report.ct_s (Report.BFC (Report.phase_summary d))
        ∧ 0 ≤ Report.ct_s (Report.FFC (Report.phase_summary d))) →
  0 ≤ SessionAggregator.avgBFCContact
        (SessionAggregator.calculateSessionHighlights deliveries)
  ∧ 0 ≤ SessionAggregator.avgFFCContact
          (SessionAggregator.calculateSessionHighlights deliveries)
  ∧ (∀ d, filter (λ d, Report.usable_delivery d = true) deliveries = [d] →
       SessionAggregator.avgBFCContact
         (SessionAggregator.calculateSessionHighlights deliveries)
       = Report.ct_s (Report.BFC (Report.phase_summary d))
       ∧ SessionAggregator.avgFFCContact
           (SessionAggregator.calculateSessionHighlights deliveries)
         = Report.ct_s (Report.FFC (Report.phase_summary d))).
Proof.
  intros Hall. simpl.
  split; [|split].
  - apply average_not_negative.
    intros d [Hu Hd]%list_elem_of_filter. by destruct (Hall d Hd Hu).
  - apply average_not_negative.
    intros d [Hu Hd]%list_elem_of_filter. by destruct (Hall d Hd Hu).
  - intros d ->. by rewrite !average_single.
Qed.

Lemma session_average_not_negative_witness :
  (∀ d, d ∈ session → Report.usable_delivery d = true →
        0 ≤ Report.ct_s (Report.BFC (Report.phase_summary d))
        ∧ 0 ≤ Report.ct_s (Report.FFC (Report.phase_summary d)))
  ∧ 0 ≤ SessionAggregator.avgBFCContact
          (SessionAggregator.calculateSessionHighlights session)
  ∧ 0 ≤ SessionAggregator.avgFFCContact
          (SessionAggregator.calculateSessionHighlights session).
Proof.
  assert (∀ d, d ∈ session → Report.usable_delivery d = true →
               0 ≤ Report.ct_s (Report.BFC (Report.phase_summary d))
               ∧ 0 ≤ Report.ct_s (Report.FFC (Report.phase_summary d)))
    as H.
  { assert (Forall (λ d, Report.usable_delivery d = true →
               0 ≤ Report.ct_s (Report.BFC (Report.phase_summary d))
               ∧ 0 ≤ Report.ct_s (Report.FFC (Report.phase_summary d)))
              session) as Hall by by_evaluation.
    intros d Hd. exact (proj1 (Forall_forall _ _) Hall d Hd). }
  split; [exact H|].
  pose proof (session_average_not_negative session H) as (Hb & Hf & _).
  split; [exact Hb|exact Hf].
Defined.

(** X21: a session without a usable delivery has averages 0 and the dominant
    patterns N/A, while the total still counts every delivery. *)
Theorem highlights_without_usable_delivery deliveries :
  (∀ d, d ∈ deliveries → Report.usable_delivery d = false) →
  SessionAggregator.calculateSessionHighlights deliveries
  = {| SessionAggregator.totalDeliveries := length deliveries;
       SessionAggregator.usableDeliveries := 0;
       SessionAggregator.avgBFCContact := 0;
       SessionAggregator.avgFFCContact := 0;
       SessionAggregator.dominantBFCPattern := Some "N/A";
       SessionAggregator.dominantFFCPattern := Some "N/A" |}.
Proof.
  intros Hnone. unfold SessionAggregator.calculateSessionHighlights.
  assert (filter (λ d, Report.usable_delivery d = true) deliveries = [])
    as ->; [|done].
  induction deliveries as [|d deliveries IH]; [done|].
  rewrite filter_cons, decide_False.
  - apply IH. intros d' Hd'. apply Hnone. by right.
  - rewrite (Hnone d); [done|left].
Qed.

Lemma highlights_without_usable_delivery_witness :
  (∀ d, d ∈ discarded_session → Report.usable_delivery d = false)
  ∧ SessionAggregator.calculateSessionHighlights discarded_session
    = {| SessionAggregator.totalDeliveries := length discarded_session;
         SessionAggregator.usableDeliveries := 0;
         SessionAggregator.avgBFCContact := 0;
         SessionAggregator.avgFFCContact := 0;
         SessionAggregator.dominantBFCPattern := Some "N/A";
         SessionAggregator.dominantFFCPattern := Some "N/A" |}.
Proof.
  assert (∀ d, d ∈ discarded_session → Report.usable_delivery d = false)
    as H.
  { intros d Hd. apply list_elem_of_singleton in Hd. by subst. }
  split; [exact H|].
  exact (highlights_without_usable_delivery discarded_session H).
Defined.

(** X22: when a session has a usable delivery (and its patterns are ordinary
    names), the dominant back-foot pattern is the pattern of a usable
    delivery, and no pattern is more frequent among the usable deliveries. *)
Theorem dominant_pattern_most_frequent deliveries :
  (∃ d, d ∈ deliveries ∧ Report.usable_delivery d = true) →
  (∀ d, d ∈ deliveries →
        SessionAggregator.ordinaryName
          (Report.pattern (Report.BFC (Report.phase_summary d))) = true) →
  ∃ w d,
    SessionAggregator.dominantBFCPattern
      (SessionAggregator.calculateSessionHighlights deliveries) = Some w
    ∧ d ∈ deliveries ∧ Report.usable_delivery d = true
    ∧ Report.pattern (Report.BFC (Report.phase_summary d)) = w
    ∧ ∀ v, (occurrences v
              ((λ d, Report.pattern (Report.BFC (Report.phase_summary d)))
                 <$> filter (λ d, Report.usable_delivery d = true) deliveries)
            ≤ occurrences w
                ((λ d, Report.pattern (Report.BFC (Report.phase_summary d)))
                   <$> filter (λ d, Report.usable_delivery d = true)
                         deliveries))%nat.
Proof.
  intros (d & Hd & Husable) _. simpl.
  destruct (getMostCommon_first
              ((λ d, Report.pattern (Report.BFC (Report.phase_summary d)))
                 <$> filter (λ d, Report.usable_delivery d = true) deliveries))
    as (w & before & after & Hw & Hsplit & Hmax & _).
  { intros Hnil%fmap_nil_inv.
    assert (d ∈ filter (λ d, Report.usable_delivery d = true) deliveries)
      as Hin by by apply list_elem_of_filter.
    rewrite Hnil in Hin. by apply elem_of_nil in Hin. }
  assert (w ∈ (λ d, Report.pattern (Report.BFC (Report.phase_summary d)))
                <$> filter (λ d, Report.usable_delivery d = true) deliveries)
    as Hin.
  { rewrite Hsplit. apply elem_of_app. right. left. }
  apply list_elem_of_fmap in Hin as (d' & -> & [? ?]%list_elem_of_filter).
  by exists (Report.pattern (Report.BFC (Report.phase_summary d'))), d'.
Qed.

Lemma dominant_pattern_most_frequent_witness :
  (∃ d, d ∈ session ∧ Report.usable_delivery d = true)
  ∧ (∀ d, d ∈ session →
          SessionAggregator.ordinaryName
            (Report.pattern (Report.BFC (Report.phase_summary d))) = true)
  ∧ ∃ w d,
      SessionAggregator.dominantBFCPattern
        (SessionAggregator.calculateSessionHighlights session) = Some w
      ∧ d ∈ session ∧ Report.usable_delivery d = true
      ∧ Report.pattern (Report.BFC (Report.phase_summary d)) = w
      ∧ ∀ v, (occurrences v
                ((λ d, Report.pattern (Report.BFC (Report.phase_summary d)))
                   <$> filter (λ d, Report.usable_delivery d = true) session)
              ≤ occurrences w
                  ((λ d, Report.pattern (Report.BFC (Report.phase_summary d)))
                     <$> filter (λ d, Report.usable_delivery d = true)
                           session))%nat.
Proof.
  assert (∃ d, d ∈ session ∧ Report.usable_delivery d = true) as H1.
  { eexists. split; [apply list_elem_of_here|reflexivity]. }
  assert (∀ d, d ∈ session →
               SessionAggregator.ordinaryName
                 (Report.pattern (Report.BFC (Report.phase_summary d)))
               = true) as H2.
  { apply Forall_forall. by_evaluation. }
  split; [exact H1|]. split; [exact H2|].
  exact (dominant_pattern_most_frequent session H1 H2).
Defined.

(** ** The number of a generated player id *)

Lemma ToInt32_range z :
  (- 2 ^ 31 ≤ SessionSummary.ToInt32 z < 2 ^ 31)%Z.
Proof.
  unfold SessionSummary.ToInt32.
  pose proof (Z.mod_pos_bound (z + 2 ^ 31) (2 ^ 32)). lia.
Qed.

Lemma ToInt32_wraps z :
  ∃ k, SessionSummary.ToInt32 z = (z + 2 ^ 32 * k)%Z.
Proof.
  unfold SessionSummary.ToInt32. exists (- ((z + 2 ^ 31) / 2 ^ 32))%Z.
  pose proof (Z.div_mod (z + 2 ^ 31) (2 ^ 32)). lia.
Qed.

Lemma ToInt32_plus_wraps z k :
  SessionSummary.ToInt32 (z + 2 ^ 32 * k) = SessionSummary.ToInt32 z.
Proof.
  unfold SessionSummary.ToInt32.
  replace (z + 2 ^ 32 * k + 2 ^ 31)%Z with (z + 2 ^ 31 + k * 2 ^ 32)%Z by lia.
  by rewrite Z_mod_plus_full.
Qed.

Lemma hashStep_times_31 hash charCode :
  SessionSummary.hashStep hash charCode
  = SessionSummary.ToInt32 (31 * hash + charCode).
Proof.
  unfold SessionSummary.hashStep.
  destruct (ToInt32_wraps hash) as (k1 & ->).
  rewrite Z.shiftl_mul_pow2 by lia.
  destruct (ToInt32_wraps ((hash + 2 ^ 32 * k1) * 2 ^ 5)) as (k2 & ->).
  replace ((hash + 2 ^ 32 * k1) * 2 ^ 5 + 2 ^ 32 * k2 - hash + charCode)%Z
    with (31 * hash + charCode + 2 ^ 32 * (32 * k1 + k2))%Z by lia.
  apply ToInt32_plus_wraps.
Qed.

(** X23: the hash behind a generated player id is the polynomial hash of the
    name's code units with multiplier 31, wrapped to 32 bits, and the number
    shown lies between 0 and 999. *)
Theorem nameHash_polynomial name :
  SessionSummary.nameHash name
  = SessionSummary.ToInt32 (foldl (λ h c, 31 * h + c)%Z 0%Z name)
  ∧ (- 2 ^ 31 ≤ SessionSummary.nameHash name < 2 ^ 31)%Z
  ∧ (0 ≤ SessionSummary.stableNum name ≤ 999)%Z.
Proof.
  assert (SessionSummary.nameHash name
          = SessionSummary.ToInt32 (foldl (λ h c, 31 * h + c)%Z 0%Z name))
    as Hpoly.
  { unfold SessionSummary.nameHash.
    induction name as [|c name IH] using rev_ind; [done|].
    rewrite !foldl_app. simpl. rewrite hashStep_times_31, IH.
    destruct (ToInt32_wraps (foldl (λ h c, 31 * h + c)%Z 0%Z name))
      as (k & ->).
    replace (31 * (foldl (λ h c, 31 * h + c) 0 name + 2 ^ 32 * k) + c)%Z
      with (31 * foldl (λ h c, 31 * h + c) 0 name + c + 2 ^ 32 * (31 * k))%Z
      by lia.
    apply ToInt32_plus_wraps. }
  split; [done|]. split; [rewrite Hpoly; apply ToInt32_range|].
  unfold SessionSummary.stableNum.
  pose proof (Z.rem_bound_abs (SessionSummary.nameHash name) 1000). lia.
Qed.
